(** * Helm repository index and chart-repository registry

    A shallow embedding of [pkg/repo/index.go] (package [repo]) and of the
    chart-repository registry (package [downloader]), with the properties of
    version resolution, sorting, merging, index loading and reference
    canonicalization that the specification states about them.

    Conventions of the embedding:
    - a Go pointer [*T] is an [option T]; [None] is the nil pointer;
    - a Go call that can panic returns a [go.outcome];
    - a Go [(T, error)] result is a pair whose error component is an
      [option go.error];
    - a Go [map[string]V] is a [gmap string V]; a [range] over a map visits
      the keys in an order that the caller of the model supplies, because Go
      leaves that order unspecified;
    - packages the code imports but that are not part of the two files
      (the semantic-version library, chart metadata validation, URL
      helpers, the file system) are interfaces, given as type classes. *)

From stdpp Require Import base option list gmap strings fin_maps sorting.
From Stdlib Require Import ZArith Lia Ascii.

(** ** The Go runtime: panics, errors *)

Module go.

Inductive panic : Type :=
  | nil_dereference
  | index_out_of_range
  | nil_map_assignment.

Inductive outcome (A : Type) : Type :=
  | Ok (a : A)
  | Panic (p : panic).
Global Arguments Ok {A} a.
Global Arguments Panic {A} p.

Global Instance outcome_ret : MRet outcome := λ A a, Ok a.
Global Instance outcome_bind : MBind outcome :=
  λ A B f m, match m with Ok a => f a | Panic p => Panic p end.
Global Instance outcome_fmap : FMap outcome :=
  λ A B f m, match m with Ok a => Ok (f a) | Panic p => Panic p end.

(** [p != nil] *)
Definition is_Some_b {A} (p : option A) : bool :=
  match p with Some _ => true | None => false end.

(** [*p] *)
Definition deref {A} (p : option A) : outcome A :=
  match p with Some a => Ok a | None => Panic nil_dereference end.

(** [c[i]] on a slice *)
Definition index {A} (c : list A) (i : nat) : outcome A :=
  match c !! i with Some a => Ok a | None => Panic index_out_of_range end.

(** Values of the [error] interface that the two packages produce or
    pass on. *)
Inductive error : Type :=
  | errors_New (msg : string)
  | errors_Wrapf (cause : error) (msg : string)
  | ValidationError (msg : string)
  | semver_error (input : string)
  | decode_error (msg : string)
  | os_error (path : string).

(** [err.Error()] *)
Fixpoint Error (e : error) : string :=
  match e with
  | errors_New msg => msg
  | errors_Wrapf cause msg => msg +:+ ": " +:+ Error cause
  | ValidationError msg => "validation: " +:+ msg
  | semver_error s => "improper constraint: " +:+ s
  | decode_error msg => msg
  | os_error p => "open " +:+ p
  end.

(** [for _, k := range m] visits every key of [m] once; [keys] is such
    a visiting order. *)
Definition range_order {V} (m : gmap string V) (keys : list string) : Prop :=
  keys ≡ₚ (map_to_list m).*1.

End go.

Import go.

(** ** Package [strings] *)

Module strings.

Definition HasPrefix (s prefix : string) : bool := String.prefix prefix s.

Definition TrimPrefix (s prefix : string) : string :=
  if HasPrefix s prefix
  then String.substring (String.length prefix)
                        (String.length s - String.length prefix) s
  else s.

(** [LastIndex(s, sep)] for a one-byte separator: the position of the last
    occurrence of the byte, or -1. *)
Fixpoint LastIndexByte (s : string) (c : Ascii.ascii) : Z :=
  match s with
  | EmptyString => (-1)%Z
  | String a rest =>
      let r := LastIndexByte rest c in
      if (0 <=? r)%Z then (r + 1)%Z
      else if Ascii.eqb a c then 0%Z else (-1)%Z
  end.

(** [HasSuffix] and [TrimSuffix], for the path separator that
    [IndexDirectory] trims. *)
Definition HasSuffix (s suffix : string) : bool :=
  (String.length suffix <=? String.length s)%nat
  && String.eqb (String.substring (String.length s - String.length suffix)
                                  (String.length suffix) s) suffix.

Definition TrimSuffix (s suffix : string) : string :=
  if HasSuffix s suffix
  then String.substring 0 (String.length s - String.length suffix) s
  else s.

End strings.

(** ** Package [sort]: the interface, [Reverse], and [Sort] *)

Module sort.

Record Interface (D : Type) : Type := {
  Len : D → nat;
  Less : D → nat → nat → outcome bool;
  Swap : D → nat → nat → outcome D
}.
Global Arguments Len {D} _ _.
Global Arguments Less {D} _ _ _ _.
Global Arguments Swap {D} _ _ _ _.

(** [Reverse] keeps [Len] and [Swap] and exchanges the arguments of
    [Less]. *)
Definition Reverse {D} (data : Interface D) : Interface D :=
  {| Len := Len data;
     Less := λ d i j, Less data d j i;
     Swap := Swap data |}.

(** The quicksort phase of [pdqsort], which runs on ranges of more than
    [maxInsertion] elements, is not part of the model: it is a parameter. *)
Class Pdqsort : Type :=
  pdqsort_large : ∀ D, Interface D → D → nat → nat → outcome D.

Definition maxInsertion : nat := 12.

Section sorting.
Context `{!Pdqsort} {D : Type} (data : Interface D).

(** [for j := i; j > a && data.Less(j, j-1); j-- { data.Swap(j, j-1) }];
    [k] is [j - a]. *)
Fixpoint insertionSort_inner (a k : nat) (d : D) : outcome D :=
  match k with
  | 0 => Ok d
  | S k' =>
      b ← Less data d (a + k) (a + k');
      if b : bool
      then d' ← Swap data d (a + k) (a + k'); insertionSort_inner a k' d'
      else Ok d
  end.

(** [for i := a + 1; i < b; i++ { ... }]; [steps] is [b - i]. *)
Fixpoint insertionSort_outer (a i steps : nat) (d : D) : outcome D :=
  match steps with
  | 0 => Ok d
  | S steps' =>
      d' ← insertionSort_inner a (i - a) d;
      insertionSort_outer a (S i) steps' d'
  end.

Definition insertionSort (d : D) (a b : nat) : outcome D :=
  insertionSort_outer a (a + 1) (b - (a + 1)) d.

Definition pdqsort (d : D) (a b : nat) : outcome D :=
  let length := b - a in
  if (length <=? maxInsertion)%nat
  then insertionSort d a b
  else pdqsort_large D data d a b.

Definition Sort (d : D) : outcome D :=
  let n := Len data d in
  if (n <=? 1)%nat then Ok d else pdqsort d 0 n.

End sorting.

(** What [insertionSort] computes, on lists: [insert_left moves x rp]
    inserts [x] into the sorted prefix, given from its end as [rp]; the
    element moves to the left past a neighbour [y] while [moves y x],
    which is the answer of [Less] for the places of [x] and [y]. *)
Fixpoint insert_left {A} (moves : A → A → bool) (x : A) (rp : list A) : list A :=
  match rp with
  | [] => [x]
  | y :: rp' => if moves y x then y :: insert_left moves x rp' else x :: rp
  end.

Definition insert_all {A} (moves : A → A → bool) (rp l : list A) : list A :=
  foldl (λ rp x, insert_left moves x rp) rp l.

Definition insertion {A} (moves : A → A → bool) (l : list A) : list A :=
  reverse (insert_all moves [] l).

End sort.

(** ** The semantic-version library, as the interface [index.go] uses *)

Module semver.

Class Lib : Type := {
  Version : Type;
  Constraints : Type;
  (** [NewVersion(s)]; [None] is a parse error *)
  NewVersion : string → option Version;
  (** [NewConstraint(s)]; [None] is a parse error *)
  NewConstraint : string → option Constraints;
  (** [cs.Check(v)] *)
  Check : Constraints → Version → bool;
  (** [v.LessThan(o)] *)
  LessThan : Version → Version → bool
}.

(** The order that [LessThan] is documented to be: a strict weak order
    (versions that differ in their metadata only are incomparable). *)
Class Order `{!Lib} : Prop := {
  LessThan_asym : ∀ a b, LessThan a b = true → LessThan b a = false;
  LessThan_incomparable : ∀ a b c,
    LessThan a b = false → LessThan b c = false → LessThan a c = false
}.

End semver.

(** ** Package [chart]: the metadata that an index entry embeds *)

Module chart.

Definition APIVersionV1 : string := "v1".

(** Modelled from the spec: the chart metadata (name, version string, and
    the rest of the manifest-level descriptor); the declaration of
    [chart.Metadata] is not among the source files. [Fields] stands for
    the rest of the descriptor. *)
Record Metadata : Type := {
  Name : string;
  Version : string;
  APIVersion : string;
  Fields : list (string * string)
}.

(** [&chart.Metadata{}] *)
Definition zero : Metadata :=
  {| Name := ""; Version := ""; APIVersion := ""; Fields := [] |}.

(** [md.Validate()], which [index.go] calls and does not define: the error
    it returns for the metadata, if any. *)
Class Validator : Type :=
  Validate : Metadata → option error.

(** Modelled from the spec: a dependency reference is a pair of a
    dependency name and a repository reference; the declaration of
    [chart.Dependency] is not among the source files. [Dependency_Fields]
    stands for the rest of the declaration. *)
Record Dependency : Type := {
  Dependency_Name : string;
  Repository : string;
  Dependency_Fields : list (string * string)
}.

End chart.

(** ** Package [repo]: [index.go] *)

Module repo.

Definition APIVersionV1 : string := "v1".

Definition ErrNoAPIVersion : error := errors_New "no API version specified".
Definition ErrNoChartVersion : error := errors_New "no chart version found".
Definition ErrNoChartName : error := errors_New "no chart name found".
Definition ErrEmptyIndexYaml : error := errors_New "empty index.yaml file".

Record ChartVersion : Type := {
  Metadata : option chart.Metadata;
  URLs : list string;
  Created : Z;
  Removed : bool;
  Digest : string;
  ChecksumDeprecated : string;
  EngineDeprecated : string;
  TillerVersionDeprecated : string;
  URLDeprecated : string
}.

Definition with_Metadata (md : option chart.Metadata) (cv : ChartVersion) : ChartVersion :=
  {| Metadata := md; URLs := URLs cv; Created := Created cv;
     Removed := Removed cv; Digest := Digest cv;
     ChecksumDeprecated := ChecksumDeprecated cv;
     EngineDeprecated := EngineDeprecated cv;
     TillerVersionDeprecated := TillerVersionDeprecated cv;
     URLDeprecated := URLDeprecated cv |}.

Definition with_Removed (r : bool) (cv : ChartVersion) : ChartVersion :=
  {| Metadata := Metadata cv; URLs := URLs cv; Created := Created cv;
     Removed := r; Digest := Digest cv;
     ChecksumDeprecated := ChecksumDeprecated cv;
     EngineDeprecated := EngineDeprecated cv;
     TillerVersionDeprecated := TillerVersionDeprecated cv;
     URLDeprecated := URLDeprecated cv |}.

(** The entry [cv] with its tombstone flag replaced by [flag cv]. *)
Definition retag (flag : ChartVersion → bool) (cv : ChartVersion) : ChartVersion :=
  with_Removed (flag cv) cv.

Definition retag_ptr (flag : ChartVersion → bool) (ver : option ChartVersion)
  : option ChartVersion :=
  option_map (retag flag) ver.

(** [ver.Version], [ver.Name]: fields promoted from the embedded
    [*chart.Metadata], read through the pointer [ver]. *)
Definition ver_Version (ver : option ChartVersion) : outcome string :=
  cv ← deref ver; md ← deref (Metadata cv); Ok (chart.Version md).

Definition ver_Name (ver : option ChartVersion) : outcome string :=
  cv ← deref ver; md ← deref (Metadata cv); Ok (chart.Name md).

(** [type ChartVersions []*ChartVersion] *)
Abbreviation ChartVersions := (list (option ChartVersion)).

Record IndexFile : Type := {
  ServerInfo : list (string * string);
  APIVersion : string;
  Generated : Z;
  (** [None] is the nil map of the zero [IndexFile]. *)
  Entries : option (gmap string ChartVersions);
  PublicKeys : list string;
  Annotations : gmap string string
}.

Definition with_Entries (m : option (gmap string ChartVersions)) (i : IndexFile) : IndexFile :=
  {| ServerInfo := ServerInfo i; APIVersion := APIVersion i;
     Generated := Generated i; Entries := m;
     PublicKeys := PublicKeys i; Annotations := Annotations i |}.

(** [&IndexFile{}] *)
Definition zero : IndexFile :=
  {| ServerInfo := []; APIVersion := ""; Generated := 0; Entries := None;
     PublicKeys := []; Annotations := ∅ |}.

(** Reading a map, nil or not: [i.Entries[name]] with the [ok] flag. *)
Definition entries (i : IndexFile) : gmap string ChartVersions :=
  default ∅ (Entries i).

Section index.
Context `{!semver.Lib}.

Definition ChartVersions_Len (c : ChartVersions) : nat := length c.

Definition ChartVersions_Swap (c : ChartVersions) (i j : nat) : outcome ChartVersions :=
  ci ← index c i; cj ← index c j; Ok (<[i := cj]> (<[j := ci]> c)).

Definition ChartVersions_Less (c : ChartVersions) (a b : nat) : outcome bool :=
  ca ← index c a; va ← ver_Version ca;
  match semver.NewVersion va with
  | None => Ok true
  | Some i =>
      cb ← index c b; vb ← ver_Version cb;
      match semver.NewVersion vb with
      | None => Ok false
      | Some j => Ok (semver.LessThan i j)
      end
  end.

Definition ChartVersions_Interface : sort.Interface ChartVersions :=
  {| sort.Len := ChartVersions_Len;
     sort.Less := ChartVersions_Less;
     sort.Swap := ChartVersions_Swap |}.

(** The first loop of [Get]: the exact match on the raw version string. *)
Fixpoint Get_exact (c : ChartVersions) (version : string) : outcome (option ChartVersion) :=
  match c with
  | [] => Ok None
  | ver :: rest =>
      v ← ver_Version ver;
      if String.eqb version v then Ok ver else Get_exact rest version
  end.

(** The second loop of [Get]: the first entry whose version parses and
    satisfies the constraint. [constraint] is a pointer; [Check] on the
    nil pointer panics. *)
Fixpoint Get_check (constraint : option semver.Constraints) (c : ChartVersions)
  : outcome (option ChartVersion) :=
  match c with
  | [] => Ok None
  | ver :: rest =>
      v ← ver_Version ver;
      match semver.NewVersion v with
      | None => Get_check constraint rest
      | Some test =>
          cs ← deref constraint;
          if semver.Check cs test then Ok ver else Get_check constraint rest
      end
  end.

Definition ChartVersions_Get (c : ChartVersions) (name version : string)
  : outcome (option ChartVersion * option error) :=
  let parsed : option semver.Constraints + error :=
    if String.eqb version ""
    then inl (semver.NewConstraint "*")
    else match semver.NewConstraint version with
         | Some k => inl (Some k)
         | None => inr (semver_error version)
         end in
  match parsed with
  | inr err => Ok (None, Some err)
  | inl constraint =>
      exact ← (if negb (String.length version =? 0)%nat
               then Get_exact c version else Ok None);
      match exact with
      | Some ver => Ok (Some ver, None)
      | None =>
          found ← Get_check constraint c;
          match found with
          | Some ver => Ok (Some ver, None)
          | None =>
              Ok (None, Some (errors_New
                    ("no chart version found for " +:+ name +:+ "-" +:+ version)))
          end
      end
  end.

Definition IndexFile_GetVersions (i : IndexFile) (name : string)
  : option ChartVersions * option error :=
  match entries i !! name with
  | None => (None, Some ErrNoChartName)
  | Some versions =>
      if (length versions =? 0)%nat then (None, Some ErrNoChartVersion)
      else (Some versions, None)
  end.

Definition IndexFile_Get (i : IndexFile) (name version : string)
  : outcome (option ChartVersion * option error) :=
  match IndexFile_GetVersions i name with
  | (_, Some err) => Ok (None, Some err)
  | (vs, None) => ChartVersions_Get (default [] vs) name version
  end.

Definition IndexFile_Has (i : IndexFile) (name version : string) : outcome bool :=
  r ← IndexFile_Get i name version;
  Ok (match r.2 with None => true | Some _ => false end).

(** [SortEntries]: [sort.Sort(sort.Reverse(versions))] for every list of
    the map. The sort swaps the elements of the slice that the map
    holds, so the map sees the sorted list. *)
Fixpoint SortEntries_range `{!sort.Pdqsort} (keys : list string)
    (m : gmap string ChartVersions) : outcome (gmap string ChartVersions) :=
  match keys with
  | [] => Ok m
  | k :: keys' =>
      match m !! k with
      | None => SortEntries_range keys' m
      | Some versions =>
          sorted ← sort.Sort (sort.Reverse ChartVersions_Interface) versions;
          SortEntries_range keys' (<[k := sorted]> m)
      end
  end.

Definition IndexFile_SortEntries `{!sort.Pdqsort} (keys : list string) (i : IndexFile)
  : outcome IndexFile :=
  match Entries i with
  | None => Ok i
  | Some m => m' ← SortEntries_range keys m; Ok (with_Entries (Some m') i)
  end.

(** The body of the inner loop of [Merge]. *)
Definition Merge_entry (i : IndexFile) (cv : option ChartVersion) : outcome IndexFile :=
  name ← ver_Name cv;
  version ← ver_Version cv;
  has ← IndexFile_Has i name version;
  if has : bool then Ok i
  else match Entries i with
       | None => Panic nil_map_assignment
       | Some m =>
           let e := default [] (m !! name) in
           Ok (with_Entries (Some (<[name := e ++ [cv]]> m)) i)
       end.

(** [for _, cv := range cvs { ... }] *)
Fixpoint Merge_cvs (cvs : ChartVersions) (i : IndexFile) : outcome IndexFile :=
  match cvs with
  | [] => Ok i
  | cv :: rest => i' ← Merge_entry i cv; Merge_cvs rest i'
  end.

Fixpoint Merge_range (keys : list string) (f : gmap string ChartVersions)
    (i : IndexFile) : outcome IndexFile :=
  match keys with
  | [] => Ok i
  | k :: keys' => i' ← Merge_cvs (default [] (f !! k)) i; Merge_range keys' f i'
  end.

(** [i.Merge(f)] for an [f] that is not [i] itself. *)
Definition IndexFile_Merge (keys : list string) (i f : IndexFile) : outcome IndexFile :=
  Merge_range keys (entries f) i.

(** [i.Merge(i)]: the map that the outer loop ranges over is the map that
    the loop body updates, so the list of a key is read when the key is
    visited. Go may or may not visit a key that the loop itself adds:
    [keys] is the sequence of keys visited. *)
Fixpoint IndexFile_Merge_self (keys : list string) (i : IndexFile) : outcome IndexFile :=
  match keys with
  | [] => Ok i
  | k :: keys' =>
      i' ← Merge_cvs (default [] (entries i !! k)) i;
      IndexFile_Merge_self keys' i'
  end.

End index.

(** *** Well-formed indices *)

(** The metadata that the pointer [ver] leads to, when neither [ver] nor its
    [Metadata] is nil. *)
Definition metadata_of (ver : option ChartVersion) : option chart.Metadata :=
  cv ← ver; Metadata cv.

(** Every entry of every list is a record with its metadata. *)
Definition readable (i : IndexFile) : Prop :=
  map_Forall (λ _ c, Forall (λ ver, is_Some (metadata_of ver)) c) (entries i).

(** Every entry is listed under its own chart name. *)
Definition keyed_by_name (i : IndexFile) : Prop :=
  map_Forall (λ name c,
    Forall (λ ver, ∀ md, metadata_of ver = Some md → chart.Name md = name) c)
    (entries i).

(** The version string of every entry is not empty and parses as a version
    constraint. *)
Definition requestable `{!semver.Lib} (i : IndexFile) : Prop :=
  map_Forall (λ _ c,
    Forall (λ ver, ∀ md, metadata_of ver = Some md →
              chart.Version md ≠ "" ∧ is_Some (semver.NewConstraint (chart.Version md))) c)
    (entries i).

(** [Has] holds of the name and version of the entry [ver]. *)
Definition listed `{!semver.Lib} (i : IndexFile) (ver : option ChartVersion) : Prop :=
  ∀ md, metadata_of ver = Some md →
        IndexFile_Has i (chart.Name md) (chart.Version md) = Ok true.

(** Whatever [Has] finds in [i] by a version that parses as a constraint, it
    finds in [i']. *)
Definition extends `{!semver.Lib} (i i' : IndexFile) : Prop :=
  ∀ name v, v ≠ "" → is_Some (semver.NewConstraint v) →
            IndexFile_Has i name v = Ok true → IndexFile_Has i' name v = Ok true.

(** [i'] is [i] with entries that satisfy [from] appended to its lists:
    the other fields are those of [i], and every list of [i'] is the list
    of [i] for the same name (the empty list when [i] has none), followed
    by such entries. *)
Definition extended_by (from : option ChartVersion → Prop) (i i' : IndexFile) : Prop :=
  i' = with_Entries (Entries i') i ∧
  ∀ name,
    match entries i' !! name with
    | None => entries i !! name = None
    | Some c' =>
        ∃ added, c' = default [] (entries i !! name) ++ added ∧ Forall from added
    end.

(** *** The order of a sorted list *)

Definition version_of `{!semver.Lib} (ver : option ChartVersion) : option semver.Version :=
  md ← metadata_of ver; semver.NewVersion (chart.Version md).

Definition parses `{!semver.Lib} (ver : option ChartVersion) : bool :=
  is_Some_b (version_of ver).

(** What [Less(a, b)] answers for the entries at [a] and [b]. *)
Definition Less_entries `{!semver.Lib} (ea eb : option ChartVersion) : bool :=
  match version_of ea with
  | None => true
  | Some i =>
      match version_of eb with
      | None => false
      | Some j => semver.LessThan i j
      end
  end.

(** Two entries whose versions parse and have the same precedence. *)
Definition tie `{!semver.Lib} (ea eb : option ChartVersion) : bool :=
  negb (Less_entries ea eb) && negb (Less_entries eb ea).

(** *** Loading an index *)

(** The decoders that [jsonOrYamlUnmarshal] chooses between; each fills the
    given [IndexFile] and returns its error. *)
Class Codec : Type := {
  json_Valid : string → bool;
  json_Unmarshal : string → IndexFile → IndexFile * option error;
  yaml_UnmarshalStrict : string → IndexFile → IndexFile * option error
}.

(** [os.ReadFile] *)
Class FileSystem : Type :=
  os_ReadFile : string → string + error.

(** The order in which a [range] inside [loadIndex] visits the keys of a
    map: any enumeration of the keys. *)
Class RangeOrder : Type := {
  range_keys : gmap string ChartVersions → list string;
  range_keys_order : ∀ m, range_order m (range_keys m)
}.

(** The lines that [loadIndex] writes with [log.Printf]. *)
Inductive log_record : Type :=
  | skip_empty_entry (name source : string)
  | skip_invalid_entry (name version source : string) (err : option error).

Definition jsonOrYamlUnmarshal `{!Codec} (b : string) (i : IndexFile)
  : IndexFile * option error :=
  if json_Valid b then json_Unmarshal b i else yaml_UnmarshalStrict b i.

Definition ignoreSkippableChartValidationError (err : option error) : option error :=
  match err with
  | Some (ValidationError msg) =>
      if strings.HasPrefix (Error (ValidationError msg))
           "validation: more than one dependency with name or alias"
      then None else err
  | _ => err
  end.

(** [append(cvs[:idx], cvs[idx+1:]...)] where [cvs] has length [n] and
    [arr] is its backing array: the elements after [idx] move one place
    down inside the array, whose length does not change; the result of the
    [append] has length [n - 1]. *)
Definition remove_at {A} (arr : list A) (n idx : nat) : list A :=
  take idx arr ++ take (n - (idx + 1)) (drop (idx + 1) arr) ++ drop (n - 1) arr.

Definition with_APIVersion (v : string) (md : chart.Metadata) : chart.Metadata :=
  {| chart.Name := chart.Name md; chart.Version := chart.Version md;
     chart.APIVersion := v; chart.Fields := chart.Fields md |}.

Section load.
Context `{!semver.Lib} `{!sort.Pdqsort} `{!chart.Validator}
            `{!Codec} `{!FileSystem} `{!RangeOrder}.

(** [for idx := len(cvs) - 1; idx >= 0; idx-- { ... }] for one chart.
    [arr] is the array behind the slice that the map holds, [n] the
    length of the local slice [cvs], and [k] is [idx + 1]. The entries
    are pointers: the defaults written through [cvs[idx]] are seen by
    the map. An entry is written through its pointer when the loop visits
    it, before a removal can copy the pointer to a second place of the
    array, so that the copies need no update later. *)
Fixpoint loadIndex_chart (name source : string) (k : nat)
    (arr : ChartVersions) (n : nat) (lg : list log_record)
  : outcome (ChartVersions * nat * list log_record) :=
  match k with
  | 0 => Ok (arr, n, lg)
  | S idx =>
      e ← (if (idx <? n)%nat then index arr idx else Panic index_out_of_range);
      match e with
      | None =>
          loadIndex_chart name source idx arr n
            (lg ++ [skip_empty_entry name source])
      | Some cv =>
          let md := default chart.zero (Metadata cv) in
          let md := if String.eqb (chart.APIVersion md) ""
                    then with_APIVersion chart.APIVersionV1 md else md in
          let arr := <[idx := Some (with_Metadata (Some md) cv)]> arr in
          let err := chart.Validate md in
          match ignoreSkippableChartValidationError err with
          | Some _ =>
              loadIndex_chart name source idx (remove_at arr n idx) (n - 1)
                (lg ++ [skip_invalid_entry name (chart.Version md) source err])
          | None => loadIndex_chart name source idx arr n lg
          end
      end
  end.

(** [for name, cvs := range i.Entries { ... }]. The local slice [cvs] is
    not stored back: the map keeps its own slice, of the original
    length, over the array that the loop has changed. *)
Fixpoint loadIndex_range (source : string) (keys : list string)
    (m : gmap string ChartVersions) (lg : list log_record)
  : outcome (gmap string ChartVersions * list log_record) :=
  match keys with
  | [] => Ok (m, lg)
  | name :: keys' =>
      match m !! name with
      | None => loadIndex_range source keys' m lg
      | Some cvs =>
          r ← loadIndex_chart name source (length cvs) cvs (length cvs) lg;
          loadIndex_range source keys' (<[name := r.1.1]> m) r.2
      end
  end.

Definition loadIndex (data source : string)
  : outcome (option IndexFile * option error * list log_record) :=
  let i := zero in
  if (String.length data =? 0)%nat then Ok (Some i, Some ErrEmptyIndexYaml, [])
  else
    let (i, err) := jsonOrYamlUnmarshal data i in
    match err with
    | Some e => Ok (Some i, Some e, [])
    | None =>
        r ← match Entries i with
            | None => Ok (i, [])
            | Some m =>
                r ← loadIndex_range source (range_keys m) m [];
                Ok (with_Entries (Some r.1) i, r.2)
            end;
        i' ← IndexFile_SortEntries (range_keys (entries r.1)) r.1;
        if String.eqb (APIVersion i') ""
        then Ok (Some i', Some ErrNoAPIVersion, r.2)
        else Ok (Some i', None, r.2)
    end.

Definition LoadIndexFile (path : string)
  : outcome (option IndexFile * option error * list log_record) :=
  match os_ReadFile path with
  | inr err => Ok (None, Some err, [])
  | inl b =>
      r ← loadIndex b path;
      match r.1.2 with
      | Some err =>
          Ok (None, Some (errors_Wrapf err ("error loading " +:+ path)), r.2)
      | None => Ok (r.1.1, None, r.2)
      end
  end.

End load.

(** *** Building an index *)

(** [NewIndexFile()]; [now] is the reading of [time.Now()]. *)
Definition NewIndexFile (now : Z) : IndexFile :=
  {| ServerInfo := []; APIVersion := APIVersionV1; Generated := now;
     Entries := Some ∅; PublicKeys := []; Annotations := ∅ |}.

(** What [MustAdd] and [IndexDirectory] call to compute the address of a
    chart file, and do not define: [filepath.Split], [urlutil.URLJoin] with
    one path element, [path.Join] of two elements. *)
Class Paths : Type := {
  filepath_Split : string → string * string;
  urlutil_URLJoin : string → string → string * option error;
  path_Join : string → string → string
}.

(** What [IndexDirectory] calls to read the directory: the two file-system
    helpers, the path separator, the chart loader (the result is the
    [Metadata] pointer of the chart loaded), the digest of a file, and the
    clock ([time_Now k] is the reading at the [k]-th call). *)
Class Archives : Type := {
  filepath_Glob : string → list string + error;
  filepath_Join : string → string → string;
  filepath_Rel : string → string → string + error;
  os_PathSeparator : string;
  loader_Load : string → option chart.Metadata + error;
  provenance_DigestFile : string → string + error;
  time_Now : nat → Z
}.

(** [md.APIVersion = chart.APIVersionV1] when the field is empty. *)
Definition default_APIVersion (md : chart.Metadata) : chart.Metadata :=
  if String.eqb (chart.APIVersion md) ""
  then with_APIVersion chart.APIVersionV1 md else md.

Section build.
Context `{!chart.Validator} `{!Paths}.

(** [u] in [MustAdd]: the address recorded for the file. *)
Definition MustAdd_url (filename baseURL : string) : string :=
  if String.eqb baseURL "" then filename
  else
    let file := (filepath_Split filename).2 in
    match urlutil_URLJoin baseURL file with
    | (u, None) => u
    | (_, Some _) => path_Join baseURL file
    end.

(** The record that [MustAdd] appends. *)
Definition MustAdd_record (now : Z) (md : chart.Metadata)
    (filename baseURL digest : string) : ChartVersion :=
  {| Metadata := Some md; URLs := [MustAdd_url filename baseURL];
     Created := now; Removed := false; Digest := digest;
     ChecksumDeprecated := ""; EngineDeprecated := "";
     TillerVersionDeprecated := ""; URLDeprecated := "" |}.

(** [i.MustAdd(md, filename, baseURL, digest)]. The receiver is a copy of
    the [IndexFile], which shares its map with the caller's: the result
    holds the index after the call. [md] is a pointer, and the default of
    the API version is written through it: the result holds the metadata
    after the call. [now] is the reading of [time.Now()]. *)
Definition IndexFile_MustAdd (now : Z) (i : IndexFile) (md : option chart.Metadata)
    (filename baseURL digest : string)
  : outcome (IndexFile * option chart.Metadata * option error) :=
  match Entries i with
  | None => Ok (i, md, Some (errors_New "entries not initialized"))
  | Some m =>
      md0 ← deref md;
      let md1 := default_APIVersion md0 in
      match chart.Validate md1 with
      | Some err =>
          Ok (i, Some md1,
              Some (errors_Wrapf err ("validate failed for " +:+ filename)))
      | None =>
          let cr := MustAdd_record now md1 filename baseURL digest in
          let ee := default [] (m !! chart.Name md1) in
          Ok (with_Entries (Some (<[chart.Name md1 := ee ++ [Some cr]]> m)) i,
              Some md1, None)
      end
  end.

(** [i.Add(md, filename, baseURL, digest)]: the error of [MustAdd] is
    logged, with the name and the version read through [md]; the line has
    the format of the line that [loadIndex] writes for an invalid entry. *)
Definition IndexFile_Add (now : Z) (i : IndexFile) (md : option chart.Metadata)
    (filename baseURL digest : string)
  : outcome (IndexFile * option chart.Metadata * list log_record) :=
  r ← IndexFile_MustAdd now i md filename baseURL digest;
  match r.2 with
  | Some err =>
      md' ← deref r.1.2;
      Ok (r.1.1, r.1.2,
          [skip_invalid_entry (chart.Name md') (chart.Version md') filename (Some err)])
  | None => Ok (r.1.1, r.1.2, [])
  end.

Context `{!Archives}.

(** [for _, arch := range archives { ... }] in [IndexDirectory]; [t] counts
    the readings of the clock. *)
Fixpoint IndexDirectory_range (dir baseURL : string) (archives : list string)
    (t : nat) (index : IndexFile) : outcome (option IndexFile * option error) :=
  match archives with
  | [] => Ok (Some index, None)
  | arch :: rest =>
      match filepath_Rel dir arch with
      | inr err => Ok (Some index, Some err)
      | inl fname =>
          let (parentDir, fname) := filepath_Split fname in
          let parentDir := strings.TrimSuffix parentDir os_PathSeparator in
          let parentURL :=
            match urlutil_URLJoin baseURL parentDir with
            | (u, None) => u
            | (_, Some _) => path_Join baseURL parentDir
            end in
          match loader_Load arch with
          | inr _ => IndexDirectory_range dir baseURL rest t index
          | inl md =>
              match provenance_DigestFile arch with
              | inr err => Ok (Some index, Some err)
              | inl hash =>
                  r ← IndexFile_MustAdd (time_Now t) index md fname parentURL hash;
                  match r.2 with
                  | Some err =>
                      Ok (Some r.1.1,
                          Some (errors_Wrapf err
                                  ("failed adding to " +:+ fname +:+ " to index")))
                  | None => IndexDirectory_range dir baseURL rest (S t) r.1.1
                  end
              end
          end
      end
  end.

Definition IndexDirectory (dir baseURL : string)
  : outcome (option IndexFile * option error) :=
  match filepath_Glob (filepath_Join dir "*.tgz") with
  | inr err => Ok (None, Some err)
  | inl archives =>
      match filepath_Glob (filepath_Join dir "**/*.tgz") with
      | inr err => Ok (None, Some err)
      | inl moreArchives =>
          IndexDirectory_range dir baseURL (archives ++ moreArchives) 1
            (NewIndexFile (time_Now 0))
      end
  end.

End build.

(** The number of records of an index, over all charts. *)
Definition records (i : IndexFile) : nat :=
  sum_list (length <$> (map_to_list (entries i)).*2).

(** The entry has metadata with an API version. *)
Definition defaulted (ver : option ChartVersion) : Prop :=
  ∃ md, metadata_of ver = Some md ∧ chart.APIVersion md ≠ "".

(** The entry is one that the cleanup of [loadIndex] leaves as it is: it has
    metadata with an API version, and the error of [Validate], if any, is one
    that the cleanup ignores. *)
Definition passes `{!chart.Validator} (ver : option ChartVersion) : Prop :=
  ∃ md, metadata_of ver = Some md ∧ chart.APIVersion md ≠ ""
        ∧ ignoreSkippableChartValidationError (chart.Validate md) = None.

(** [loader.Load] takes the archive for a chart. *)
Definition loadable `{!Archives} (arch : string) : bool :=
  match loader_Load arch with inl _ => true | inr _ => false end.

(** The metadata of an entry passes [Validate] and has an API version. *)
Definition validated `{!chart.Validator} (ver : option ChartVersion) : Prop :=
  ∃ md, metadata_of ver = Some md ∧ chart.APIVersion md ≠ ""
        ∧ chart.Validate md = None.

(** Modelled from the spec: a repository entry is a named configuration
    record with at least a name and a URL (and its credentials); the
    declaration of [repo.Entry] is not among the source files. *)
Record Entry : Type := {
  Name : string;
  URL : string;
  Username : string;
  Password : string
}.

End repo.

(** ** Package [downloader]: the chart-repository registry *)

Module downloader.

(** What the registry calls and does not define: the URL comparator, the
    key of a URL and the prefix of generated names, the OCI predicate,
    [url.Parse] followed by [IsAbs], the cache path helpers, and the
    loader of the repository configuration. *)
Class Collaborators : Type := {
  urlutil_Equal : string → string → bool;
  key : string → string * option error;
  managerKeyPrefix : string;
  registry_IsOCI : string → bool;
  url_IsAbs : string → bool;
  helmpath_CacheIndexFile : string → string;
  filepath_Join : string → string → string;
  loadRepoConfig : string → list (option repo.Entry) + error
}.

(** The two mutexes guard the two maps; the model is sequential and has
    no field for them. *)
Record ChartRepositories : Type := {
  indexPath : string;
  indices : gmap string (option repo.IndexFile);
  repos : gmap string repo.Entry
}.

Definition with_indices (m : gmap string (option repo.IndexFile))
    (c : ChartRepositories) : ChartRepositories :=
  {| indexPath := indexPath c; indices := m; repos := repos c |}.

Definition with_repos (m : gmap string repo.Entry)
    (c : ChartRepositories) : ChartRepositories :=
  {| indexPath := indexPath c; indices := indices c; repos := m |}.

Definition getInfo (c : ChartRepositories) (name : string) : option repo.Entry :=
  if String.eqb name "" then None else repos c !! name.

Definition GetInfo (c : ChartRepositories) (name : string) : option repo.Entry :=
  getInfo c name.

(** [for _, entry := range c.repos { if f(entry) { return entry } }] *)
Fixpoint getInfoByF_range (keys : list string) (m : gmap string repo.Entry)
    (f : repo.Entry → bool) : option repo.Entry :=
  match keys with
  | [] => None
  | k :: keys' =>
      match m !! k with
      | Some entry => if f entry then Some entry else getInfoByF_range keys' m f
      | None => getInfoByF_range keys' m f
      end
  end.

Definition getInfoByF (keys : list string) (c : ChartRepositories)
    (f : repo.Entry → bool) : option repo.Entry :=
  getInfoByF_range keys (repos c) f.

Fixpoint GetKeysByF_range (keys : list string) (m : gmap string repo.Entry)
    (f : repo.Entry → bool) (result : list string) : list string :=
  match keys with
  | [] => result
  | k :: keys' =>
      match m !! k with
      | Some entry =>
          GetKeysByF_range keys' m f
            (if f entry then result ++ [repo.Name entry] else result)
      | None => GetKeysByF_range keys' m f result
      end
  end.

Definition GetKeysByF (keys : list string) (c : ChartRepositories)
    (f : repo.Entry → bool) : list string :=
  GetKeysByF_range keys (repos c) f [].

(** [slices.Collect(maps.Keys(c.repos))]: the keys of the map, in the order
    in which the iteration visits them. *)
Fixpoint Keys_range (keys : list string) (m : gmap string repo.Entry) : list string :=
  match keys with
  | [] => []
  | k :: keys' =>
      match m !! k with
      | Some _ => k :: Keys_range keys' m
      | None => Keys_range keys' m
      end
  end.

Definition Keys (keys : list string) (c : ChartRepositories) : list string :=
  Keys_range keys (repos c).

Section registry.
Context `{!Collaborators}.

Definition getInfoByURL (keys : list string) (c : ChartRepositories) (url : string)
  : option repo.Entry * ChartRepositories :=
  match getInfoByF keys c (λ entry, urlutil_Equal (repo.URL entry) url) with
  | Some entry => (Some entry, c)
  | None =>
      let (generatedName, err) := key url in
      match err with
      | Some _ => (None, c)
      | None =>
          let generatedName := managerKeyPrefix +:+ generatedName in
          let generatedRepo :=
            {| repo.Name := generatedName; repo.URL := url;
               repo.Username := ""; repo.Password := "" |} in
          (Some generatedRepo,
           with_repos (<[generatedName := generatedRepo]> (repos c)) c)
      end
  end.

Definition GetInfoByURL (keys : list string) (c : ChartRepositories) (url : string)
  : option repo.Entry * ChartRepositories :=
  getInfoByURL keys c url.

(** [repos[entry.Name] = entry] for every entry of the configuration. *)
Fixpoint NewChartRepositories_range (entries : list (option repo.Entry))
    (repos : gmap string repo.Entry) : outcome (gmap string repo.Entry) :=
  match entries with
  | [] => Ok repos
  | entry :: rest =>
      e ← deref entry;
      NewChartRepositories_range rest (<[repo.Name e := e]> repos)
  end.

Definition NewChartRepositories (repoConfigPath repoCachePath : string)
  : outcome (option ChartRepositories * option error) :=
  match loadRepoConfig repoConfigPath with
  | inr err => Ok (None, Some err)
  | inl repositories =>
      repos ← NewChartRepositories_range repositories ∅;
      Ok (Some {| repos := repos; indexPath := repoCachePath; indices := ∅ |}, None)
  end.

Definition CanonicalizeRepoName (keys : list string) (c : ChartRepositories)
    (name : string) : string * ChartRepositories :=
  if String.eqb name "" || strings.HasPrefix name "file://" || registry_IsOCI name
  then ("", c)
  else
    let trimmed := strings.TrimPrefix name "@" in
    if is_Some_b (getInfo c trimmed) then (trimmed, c)
    else
      let trimmed := strings.TrimPrefix name "alias:" in
      if is_Some_b (getInfo c trimmed) then (trimmed, c)
      else if url_IsAbs name then
        match getInfoByURL keys c name with
        | (Some entry, c') => (repo.Name entry, c')
        | (None, c') => ("", c')
        end
      else ("", c).

Definition GetForRef (keys : list string) (c : ChartRepositories) (ref : string)
  : string * ChartRepositories :=
  let i := strings.LastIndexByte ref "/"%char in
  if (0 <? i)%Z
  then CanonicalizeRepoName keys c (String.substring 0 (Z.to_nat i) ref)
  else ("", c).

(** [for _, dep := range deps { ... }] in [GetForDeps]. Every call of
    [CanonicalizeRepoName] ranges over the map of the registry at that
    time: [orders k] is the order of the range of the [k]-th call. *)
Fixpoint GetForDeps_range (orders : nat → list string) (k : nat)
    (c : ChartRepositories) (deps : list (option chart.Dependency))
    (out : gmap string string) : outcome (gmap string string * ChartRepositories) :=
  match deps with
  | [] => Ok (out, c)
  | dep :: rest =>
      d ← deref dep;
      let (name, c') := CanonicalizeRepoName (orders k) c (chart.Repository d) in
      GetForDeps_range orders (S k) c' rest
        (if String.eqb name "" then out
         else <[chart.Dependency_Name d := name]> out)
  end.

Definition GetForDeps (orders : nat → list string) (c : ChartRepositories)
    (deps : list (option chart.Dependency))
  : outcome (gmap string string * ChartRepositories) :=
  GetForDeps_range orders 0 c deps ∅.

Context `{!semver.Lib} `{!sort.Pdqsort} `{!chart.Validator}
            `{!repo.Codec} `{!repo.FileSystem} `{!repo.RangeOrder}.

(** The result is the triple of [GetIndex]'s two results and the
    registry after the call, with the lines logged while loading. *)
Definition GetIndex (c : ChartRepositories) (name : string)
  : outcome (option repo.IndexFile * option error * ChartRepositories
             * list repo.log_record) :=
  if String.eqb name "" then Ok (None, None, c, [])
  else
    match indices c !! name with
    | Some index => Ok (index, None, c, [])
    | None =>
        match getInfo c name with
        | None => Ok (None, None, c, [])
        | Some repoEntry =>
            r ← repo.LoadIndexFile
                  (filepath_Join (indexPath c)
                     (helmpath_CacheIndexFile (repo.Name repoEntry)));
            match r.1.2 with
            | Some err => Ok (None, Some err, c, r.2)
            | None =>
                Ok (r.1.1, None,
                    with_indices (<[name := r.1.1]> (indices c)) c, r.2)
            end
        end
    end.

(** One call of an operation of the registry that can change it, from the
    registry before the call to the registry after it. The range orders
    are arbitrary. *)
Inductive step : ChartRepositories → ChartRepositories → Prop :=
  | step_GetInfoByURL keys c url :
      step c (GetInfoByURL keys c url).2
  | step_CanonicalizeRepoName keys c name :
      step c (CanonicalizeRepoName keys c name).2
  | step_GetForRef keys c ref :
      step c (GetForRef keys c ref).2
  | step_GetForDeps orders c deps out c' :
      GetForDeps orders c deps = Ok (out, c') → step c c'
  | step_GetIndex c name index err c' lg :
      GetIndex c name = Ok (index, err, c', lg) → step c c'.

End registry.

(** The invariant of the registry: the index cache holds indices of
    registered names only. The fields are private, and every state that the
    operations of the registry reach from [NewChartRepositories] satisfies
    it. *)
Definition cache_registered (c : ChartRepositories) : Prop :=
  dom (indices c) ⊆ dom (repos c).

(** Every repository is registered under its own name. *)
Definition registered_by_name (c : ChartRepositories) : Prop :=
  map_Forall (λ name entry, repo.Name entry = name) (repos c).

(** Every index of the cache is an index with an API version. *)
Definition cache_loaded (c : ChartRepositories) : Prop :=
  map_Forall (λ _ index, ∃ i, index = Some i ∧ repo.APIVersion i ≠ "") (indices c).

(** The invariant of a registry whose cache directory is [cache]. *)
Definition invariant (cache : string) (c : ChartRepositories) : Prop :=
  indexPath c = cache ∧ cache_registered c ∧ registered_by_name c ∧ cache_loaded c.

End downloader.

(** ** Reference instances of the interfaces

    The statements below hold for every instance of the interfaces. The
    instances of this part serve to evaluate the model on concrete inputs. *)

(** A reference instance of the semantic-version interface, after the
    documented behaviour of the library that [index.go] imports: the loose
    version grammar [v?MAJOR(.MINOR)?(.PATCH)?(-PRERELEASE)?(+METADATA)?],
    the precedence order of semantic versions, and the constraint
    expressions [*] and [version], [=version], where a part of the version
    may be missing or a wildcard ([x], [X], [*]). The other operators of the
    constraint language are outside this fragment, and no statement below
    evaluates the instance on one of them. *)
Module semver_ref.

Inductive ident : Type :=
  | Num (n : N)
  | Alpha (s : string).

Record version : Type := {
  major : N;
  minor : N;
  patch : N;
  pre : list ident;
  metadata : string
}.

Record constraint : Type := {
  con : version;
  dirty : bool;
  minorDirty : bool;
  patchDirty : bool
}.

Definition is_digit (c : ascii) : bool :=
  let n := N_of_ascii c in ((48 <=? n) && (n <=? 57))%N.

Definition is_ident_char (c : ascii) : bool :=
  let n := N_of_ascii c in
  (is_digit c || ((65 <=? n) && (n <=? 90)) || ((97 <=? n) && (n <=? 122))
   || (n =? 45))%N.

Fixpoint all_chars (p : ascii → bool) (s : string) : bool :=
  match s with
  | EmptyString => true
  | String c rest => p c && all_chars p rest
  end.

Definition nonempty (s : string) : bool :=
  match s with EmptyString => false | _ => true end.

Fixpoint digits_value (acc : N) (s : string) : N :=
  match s with
  | EmptyString => acc
  | String c rest => digits_value (10 * acc + (N_of_ascii c - 48))%N rest
  end.

(** [split sep s]: the pieces of [s] between the occurrences of [sep]. *)
Fixpoint split (sep : ascii) (s : string) : list string :=
  match s with
  | EmptyString => [EmptyString]
  | String c rest =>
      if Ascii.eqb c sep then EmptyString :: split sep rest
      else match split sep rest with
           | [] => [String c EmptyString]
           | piece :: pieces => String c piece :: pieces
           end
  end.

(** [cut sep s]: [s] up to the first [sep], and what follows it. *)
Fixpoint cut (sep : ascii) (s : string) : string * option string :=
  match s with
  | EmptyString => (EmptyString, None)
  | String c rest =>
      if Ascii.eqb c sep then (EmptyString, Some rest)
      else let (l, r) := cut sep rest in (String c l, r)
  end.

Definition parse_ident (s : string) : option ident :=
  if nonempty s && all_chars is_ident_char s
  then Some (if all_chars is_digit s then Num (digits_value 0 s) else Alpha s)
  else None.

Definition parse_pre (s : option string) : option (list ident) :=
  match s with
  | None => Some []
  | Some s => mapM parse_ident (split "." s)
  end.

Definition valid_metadata (s : option string) : bool :=
  match s with
  | None => true
  | Some s =>
      forallb (λ p, nonempty p && all_chars is_ident_char p) (split "." s)
  end.

(** A part of the dotted core of a version or of a constraint: a number,
    or a wildcard (in a constraint only). *)
Inductive part : Type :=
  | Digits (n : N)
  | Wildcard.

Definition parse_part (s : string) : option part :=
  if nonempty s && all_chars is_digit s then Some (Digits (digits_value 0 s))
  else if String.eqb s "x" || String.eqb s "X" || String.eqb s "*" then Some Wildcard
  else None.

Definition strip_v (s : string) : string :=
  match s with
  | String "v" rest => rest
  | _ => s
  end.

(** The three groups of the grammar: the dotted core (one to three
    parts), the pre-release identifiers, the metadata. *)
Definition parse_groups (s : string) : option (list part * list ident * string) :=
  let (body, meta) := cut "+" (strip_v s) in
  let (core, prerelease) := cut "-" body in
  parts ← mapM parse_part (split "." core);
  ids ← parse_pre prerelease;
  if valid_metadata meta && (length parts <=? 3)%nat
  then Some (parts, ids, default "" meta) else None.

Definition number (p : option part) : option N :=
  match p with
  | Some (Digits n) => Some n
  | Some Wildcard => None
  | None => Some 0%N
  end.

Definition NewVersion (s : string) : option version :=
  g ← parse_groups s;
  let parts := g.1.1 in
  ma ← number (parts !! 0%nat);
  mi ← number (parts !! 1%nat);
  pa ← number (parts !! 2%nat);
  Some {| major := ma; minor := mi; patch := pa; pre := g.1.2; metadata := g.2 |}.

Definition is_wild (p : option part) : bool :=
  match p with
  | Some (Digits _) => false
  | _ => true
  end.

Definition part_value (p : option part) : N :=
  match p with Some (Digits n) => n | _ => 0%N end.

Definition strip_eq (s : string) : string :=
  match s with
  | String "=" rest => rest
  | _ => s
  end.

Definition NewConstraint (s : string) : option constraint :=
  g ← parse_groups (strip_eq s);
  let parts := g.1.1 in
  let v ma mi pa :=
    {| major := ma; minor := mi; patch := pa; pre := g.1.2; metadata := g.2 |} in
  if is_wild (parts !! 0%nat)
  then Some {| con := v 0 0 0; dirty := true; minorDirty := false; patchDirty := false |}%N
  else if is_wild (parts !! 1%nat)
  then Some {| con := v (part_value (parts !! 0%nat)) 0 0;
               dirty := true; minorDirty := true; patchDirty := false |}%N
  else if is_wild (parts !! 2%nat)
  then Some {| con := v (part_value (parts !! 0%nat)) (part_value (parts !! 1%nat)) 0;
               dirty := true; minorDirty := false; patchDirty := true |}%N
  else Some {| con := v (part_value (parts !! 0%nat)) (part_value (parts !! 1%nat))
                        (part_value (parts !! 2%nat));
               dirty := false; minorDirty := false; patchDirty := false |}.

(** Precedence: the versions are compared through a key, a list of numbers
    compared lexicographically. A release follows all its pre-releases; a
    numeric identifier precedes an alphanumeric one; a longer list of
    identifiers follows its prefixes. *)
Definition ident_key (i : ident) : list N :=
  match i with
  | Num n => [0; n]%N
  | Alpha s => (1 :: map (λ c, N_of_ascii c + 1) (String.list_ascii_of_string s) ++ [0])%N
  end.

Definition version_key (v : version) : list N :=
  [major v; minor v; patch v] ++
  match pre v with
  | [] => [1%N]
  | ids => 0%N :: concat (map ident_key ids)
  end.

Fixpoint lex_ltb (k1 k2 : list N) : bool :=
  match k1, k2 with
  | _, [] => false
  | [], _ :: _ => true
  | a :: k1', b :: k2' => (a <? b)%N || ((a =? b)%N && lex_ltb k1' k2')
  end.

Definition LessThan (v o : version) : bool :=
  lex_ltb (version_key v) (version_key o).

Definition Equal (v o : version) : bool :=
  negb (LessThan v o) && negb (LessThan o v).

Definition has_pre (v : version) : bool :=
  match pre v with [] => false | _ => true end.

Definition constraintTilde (v : version) (c : constraint) : bool :=
  if has_pre v && negb (has_pre (con c)) then false
  else if LessThan v (con c) then false
  else if (major (con c) =? 0)%N && (minor (con c) =? 0)%N && (patch (con c) =? 0)%N
          && negb (minorDirty c) && negb (patchDirty c) then true
  else if negb (major v =? major (con c))%N then false
  else if negb (minor v =? minor (con c))%N && negb (minorDirty c) then false
  else true.

Definition Check (c : constraint) (v : version) : bool :=
  if has_pre v && negb (has_pre (con c)) then false
  else if dirty c then constraintTilde v c
  else Equal v (con c).

Definition lib : semver.Lib :=
  {| semver.Version := version;
     semver.Constraints := constraint;
     semver.NewVersion := NewVersion;
     semver.NewConstraint := NewConstraint;
     semver.Check := Check;
     semver.LessThan := LessThan |}.

End semver_ref.

(** An instance of [sort.Pdqsort] for slices of at most [sort.maxInsertion]
    elements, on which [pdqsort] does not reach the parameter. *)
Module sort_ref.

Definition small_only : sort.Pdqsort := λ D data d a b, Ok d.

End sort_ref.

(** Modelled from the spec: an entry missing required metadata fields (API
    version, name, version) or whose version is not a semantic version fails
    validation; [chart.Metadata.Validate] is not among the source files. *)
Module chart_ref.

Definition Validate (md : chart.Metadata) : option error :=
  if String.eqb (chart.APIVersion md) ""
  then Some (ValidationError "chart.metadata.apiVersion is required")
  else if String.eqb (chart.Name md) ""
  then Some (ValidationError "chart.metadata.name is required")
  else if String.eqb (chart.Version md) ""
  then Some (ValidationError "chart.metadata.version is required")
  else if is_Some_b (semver_ref.NewVersion (chart.Version md)) then None
  else Some (ValidationError "chart.metadata.version is invalid").

Definition validator : chart.Validator := Validate.

End chart_ref.

(** Instances of the interfaces of [loadIndex] given by tables: a codec that
    knows the decoded form of some documents, a file system with some
    files, and the enumeration of the keys of a map in the order of
    [map_to_list]. *)
Module repo_ref.

Fixpoint lookup_table {A} (table : list (string * A)) (k : string) : option A :=
  match table with
  | [] => None
  | (k', a) :: rest => if String.eqb k k' then Some a else lookup_table rest k
  end.

Definition codec (documents : list (string * repo.IndexFile)) : repo.Codec :=
  {| repo.json_Valid := λ _, false;
     repo.json_Unmarshal := λ _ i, (i, Some (decode_error "invalid JSON"));
     repo.yaml_UnmarshalStrict := λ b i,
       match lookup_table documents b with
       | Some decoded => (decoded, None)
       | None => (i, Some (decode_error "invalid YAML"))
       end |}.

Definition file_system (files : list (string * string)) : repo.FileSystem :=
  λ path,
    match lookup_table files path with
    | Some b => inl b
    | None => inr (os_error path)
    end.

Definition range_order : repo.RangeOrder :=
  {| repo.range_keys := λ m, (map_to_list m).*1;
     repo.range_keys_order := λ m, Permutation_refl _ |}.

End repo_ref.

(** Modelled from the spec: the published address of a chart file joins the
    base URL with the base name of the file (here: with a slash between
    them, unless the second is empty, and the join never fails); the index
    of a directory is built from the packaged charts found in it (here: the
    directory listing, the metadata and the digest of each chart archive
    are given by tables, and the clock counts its readings). None of these
    helpers is among the source files. *)
Module build_ref.

(** [filepath.Split] for slash-separated paths: the directory with its
    final slash, and the file. *)
Definition Split (path : string) : string * string :=
  let i := Z.to_nat (strings.LastIndexByte path "/"%char + 1) in
  (String.substring 0 i path, String.substring i (String.length path - i) path).

Definition join (a b : string) : string :=
  if String.eqb b "" then a else a +:+ "/" +:+ b.

Definition paths : repo.Paths :=
  {| repo.filepath_Split := Split;
     repo.urlutil_URLJoin := λ baseURL p, (join baseURL p, None);
     repo.path_Join := join |}.

Definition archives (listing : list (string * list string))
    (charts : list (string * (option chart.Metadata * string))) : repo.Archives :=
  {| repo.filepath_Glob := λ pattern,
       inl (default [] (repo_ref.lookup_table listing pattern));
     repo.filepath_Join := λ a b, a +:+ "/" +:+ b;
     repo.filepath_Rel := λ dir arch, inl (strings.TrimPrefix arch (dir +:+ "/"));
     repo.os_PathSeparator := "/";
     repo.loader_Load := λ arch,
       match repo_ref.lookup_table charts arch with
       | Some (md, _) => inl md
       | None => inr (errors_New "not a chart archive")
       end;
     repo.provenance_DigestFile := λ arch,
       match repo_ref.lookup_table charts arch with
       | Some (_, digest) => inl digest
       | None => inr (os_error arch)
       end;
     repo.time_Now := Z.of_nat |}.

End build_ref.

(** Modelled from the spec: the URL comparator is normalization-aware (here:
    a trailing slash is ignored); a generated name is a fixed prefix plus a
    content-derived key of the URL (here: the hexadecimal form of its bytes
    stands for the digest); the cache file of a repository has a fixed name
    derived from the repository name. None of these helpers is among the
    source files. *)
Module downloader_ref.

Fixpoint trim_slash (s : string) : string :=
  match s with
  | EmptyString => EmptyString
  | String c rest =>
      match rest with
      | EmptyString => if Ascii.eqb c "/" then EmptyString else s
      | _ => String c (trim_slash rest)
      end
  end.

Definition Equal (a b : string) : bool :=
  String.eqb (trim_slash a) (trim_slash b).

Definition hex_digit (n : N) : ascii :=
  ascii_of_N (if (n <? 10)%N then n + 48 else n + 87)%N.

Fixpoint hex (s : string) : string :=
  match s with
  | EmptyString => EmptyString
  | String c rest =>
      let n := N_of_ascii c in
      String (hex_digit (n / 16)) (String (hex_digit (n mod 16)) (hex rest))
  end.

Definition key (name : string) : string * option error := (hex name, None).

Definition is_letter (c : ascii) : bool :=
  let n := N_of_ascii c in
  (((65 <=? n) && (n <=? 90)) || ((97 <=? n) && (n <=? 122)))%N.

(** A URL is absolute when it starts with a scheme and a colon. *)
Fixpoint scheme_rest (s : string) : bool :=
  match s with
  | EmptyString => false
  | String c rest =>
      if Ascii.eqb c ":" then true
      else (is_letter c || semver_ref.is_digit c) && scheme_rest rest
  end.

Definition IsAbs (s : string) : bool :=
  match s with
  | EmptyString => false
  | String c rest => is_letter c && scheme_rest rest
  end.

Definition CacheIndexFile (name : string) : string :=
  (if String.eqb name "" then "" else name +:+ "-") +:+ "index.yaml".

Definition collaborators (config : list (string * list (option repo.Entry)))
  : downloader.Collaborators :=
  {| downloader.urlutil_Equal := Equal;
     downloader.key := key;
     downloader.managerKeyPrefix := "helm-manager-";
     downloader.registry_IsOCI := λ s, strings.HasPrefix s "oci://";
     downloader.url_IsAbs := IsAbs;
     downloader.helmpath_CacheIndexFile := CacheIndexFile;
     downloader.filepath_Join := λ a b, a +:+ "/" +:+ b;
     downloader.loadRepoConfig := λ path,
       match repo_ref.lookup_table config path with
       | Some l => inl l
       | None => inr (os_error path)
       end |}.

End downloader_ref.

(** Sample data for the evaluations. *)
Module samples.

Definition entry (name version digest : string) : repo.ChartVersion :=
  {| repo.Metadata :=
       Some {| chart.Name := name; chart.Version := version;
               chart.APIVersion := "v1"; chart.Fields := [] |};
     repo.URLs := ["https://charts.example.com/" +:+ name +:+ "-" +:+ version +:+ ".tgz"];
     repo.Created := 0; repo.Removed := false; repo.Digest := digest;
     repo.ChecksumDeprecated := ""; repo.EngineDeprecated := "";
     repo.TillerVersionDeprecated := ""; repo.URLDeprecated := "" |}.

Definition index (apiVersion : string) (charts : list (string * list (option repo.ChartVersion)))
  : repo.IndexFile :=
  {| repo.ServerInfo := []; repo.APIVersion := apiVersion; repo.Generated := 0;
     repo.Entries := Some (list_to_map charts);
     repo.PublicKeys := []; repo.Annotations := ∅ |}.

Definition stable : repo.Entry :=
  {| repo.Name := "stable"; repo.URL := "https://charts.example.com/stable";
     repo.Username := ""; repo.Password := "" |}.

Definition registry : downloader.ChartRepositories :=
  {| downloader.indexPath := "/cache"; downloader.indices := ∅;
     downloader.repos := {["stable" := stable]} |}.

(** A registry in which the name that is generated for [url_a] is the name
    of a repository with another URL. *)
Definition url_a : string := "https://a.io".

Definition taken_name : string := "helm-manager-" +:+ downloader_ref.hex url_a.

Definition registry_taken : downloader.ChartRepositories :=
  {| downloader.indexPath := "/cache"; downloader.indices := ∅;
     downloader.repos :=
       {[taken_name := {| repo.Name := taken_name; repo.URL := "https://b.io";
                          repo.Username := ""; repo.Password := "" |}]} |}.

(** Index documents and their decoded form. In [nameless] the [name] field
    is missing. *)
Definition valid : option repo.ChartVersion := Some (entry "c" "1.0.0" "d0").

Definition nameless : option repo.ChartVersion := Some (entry "" "0.1.0" "d1").

Definition document_invalid_last : string :=
    "apiVersion: v1
entries:
  c:
  - {name: c, version: 1.0.0, digest: d0}
  - {version: 0.1.0, digest: d1}".

Definition document_null : string :=
    "apiVersion: v1
entries:
  c:
  - null".

Definition document_null_and_invalid : string :=
    "apiVersion: v1
entries:
  c:
  - null
  - {version: 0.1.0, digest: d1}".

Definition document_no_apiVersion : string :=
    "entries:
  c:
  - {name: c, version: 1.0.0, digest: d0}".

Definition document_no_apiVersion_null : string :=
    "entries:
  c:
  - {name: c, version: 1.0.0, digest: d0}
  - null".

(** Chart metadata as a chart archive holds it, without API version. *)
Definition metadata (name version : string) : chart.Metadata :=
  {| chart.Name := name; chart.Version := version;
     chart.APIVersion := ""; chart.Fields := [] |}.

Definition dependency (name repository : string) : chart.Dependency :=
  {| chart.Dependency_Name := name; chart.Repository := repository;
     chart.Dependency_Fields := [] |}.

(** A directory with two chart archives, one of them in a subdirectory,
    and a file that is not a chart. *)
Definition directory : repo.Archives :=
  build_ref.archives
    [("/charts/*.tgz", ["/charts/a-1.0.0.tgz"; "/charts/notes.tgz"]);
     ("/charts/**/*.tgz", ["/charts/sub/b-0.2.0.tgz"])]
    [("/charts/a-1.0.0.tgz", (Some (metadata "a" "1.0.0"), "sha-a"));
     ("/charts/sub/b-0.2.0.tgz", (Some (metadata "b" "0.2.0"), "sha-b"))].

Definition document_two_versions : string :=
    "apiVersion: v1
entries:
  c:
  - {name: c, version: 1.0.0, digest: d0}
  - {name: c, version: 2.0.0, digest: d1}".

(** The cache of the registry [registry] on disk. *)
Definition cache_files : repo.FileSystem :=
  repo_ref.file_system [("/cache/stable-index.yaml", document_two_versions)].

Definition cache_codec : repo.Codec :=
  repo_ref.codec
    [(document_two_versions,
      index "v1" [("c", [Some (entry "c" "1.0.0" "d0"); Some (entry "c" "2.0.0" "d1")])])].

Definition documents : repo.Codec :=
  repo_ref.codec
    [(document_invalid_last, index "v1" [("c", [valid; nameless])]);
     (document_null, index "v1" [("c", [None])]);
     (document_null_and_invalid, index "v1" [("c", [None; nameless])]);
     (document_no_apiVersion, index "" [("c", [valid])]);
     (document_no_apiVersion_null, index "" [("c", [valid; None])])].

End samples.

(** * Properties *)

(** Proves a [Forall] over an explicit list, entry by entry. *)
Ltac each_entry tac :=
  repeat (apply Forall_cons_2; [tac|]); apply Forall_nil_2.

(** ** Version resolution: [ChartVersions.Get] *)

Section Get.
Context `{!semver.Lib}.

Lemma eqb_empty_false (v : string) : v ≠ "" → String.eqb v "" = false.
Proof. intros Hv. by apply String.eqb_neq. Qed.

Lemma length_nonzero (v : string) : v ≠ "" → negb (String.length v =? 0)%nat = true.
Proof. by destruct v. Qed.

(** [Get] with a version that parses as a constraint: the exact match
    first, the constraint scan next. *)
Lemma ChartVersions_Get_constraint (c : repo.ChartVersions) name v k :
  v ≠ "" → semver.NewConstraint v = Some k →
  repo.ChartVersions_Get c name v =
    exact ← repo.Get_exact c v;
    match exact with
    | Some ver => Ok (Some ver, None)
    | None =>
        found ← repo.Get_check (Some k) c;
        match found with
        | Some ver => Ok (Some ver, None)
        | None => Ok (None, Some (errors_New
                        ("no chart version found for " +:+ name +:+ "-" +:+ v)))
        end
    end.
Proof.
    intros Hv Hk. unfold repo.ChartVersions_Get.
    by rewrite (eqb_empty_false v Hv), Hk, (length_nonzero v Hv).
Qed.

Lemma ChartVersions_Get_improper (c : repo.ChartVersions) name v :
  v ≠ "" → semver.NewConstraint v = None →
  repo.ChartVersions_Get c name v = Ok (None, Some (semver_error v)).
Proof.
    intros Hv Hk. unfold repo.ChartVersions_Get.
    by rewrite (eqb_empty_false v Hv), Hk.
Qed.

Lemma ChartVersions_Get_any (c : repo.ChartVersions) name :
  repo.ChartVersions_Get c name "" =
    found ← repo.Get_check (semver.NewConstraint "*") c;
    match found with
    | Some ver => Ok (Some ver, None)
    | None => Ok (None, Some (errors_New
                    ("no chart version found for " +:+ name +:+ "-" +:+ "")))
    end.
Proof. reflexivity. Qed.

(** The exact-match loop returns the first entry with the requested raw
    version, when the entries before it can be read. *)
Lemma Get_exact_first (c : repo.ChartVersions) v k cv :
  c !! k = Some (Some cv) →
  repo.ver_Version (Some cv) = Ok v →
  Forall (λ e, ∃ w, repo.ver_Version e = Ok w ∧ w ≠ v) (take k c) →
  repo.Get_exact c v = Ok (Some cv).
Proof.
    revert k. induction c as [|e c IH]; intros k Hk Hv Hbefore; [done|].
    destruct k as [|k]; simpl in *.
    - injection Hk as ->. rewrite Hv. simpl. by rewrite String.eqb_refl.
    - apply Forall_cons in Hbefore as [(w & Hw & Hne) Hbefore].
      rewrite Hw. simpl.
      assert (String.eqb v w = false) as -> by (apply String.eqb_neq; congruence).
      by apply (IH k).
Qed.

(** The constraint scan returns the first entry whose version parses and
    satisfies the constraint. *)
Lemma Get_check_first (c : repo.ChartVersions) cs k cv s v :
  c !! k = Some (Some cv) →
  repo.ver_Version (Some cv) = Ok s →
  semver.NewVersion s = Some v →
  semver.Check cs v = true →
  Forall (λ e, ∃ w, repo.ver_Version e = Ok w ∧
               ∀ t, semver.NewVersion w = Some t → semver.Check cs t = false)
         (take k c) →
  repo.Get_check (Some cs) c = Ok (Some cv).
Proof.
    revert k. induction c as [|e c IH]; intros k Hk Hs Hv Hc Hbefore; [done|].
    destruct k as [|k]; simpl in *.
    - injection Hk as ->. rewrite Hs. simpl. rewrite Hv. simpl. by rewrite Hc.
    - apply Forall_cons in Hbefore as [(w & Hw & Hrej) Hbefore].
      rewrite Hw. simpl.
      destruct (semver.NewVersion w) as [t|] eqn:Ht; simpl.
      + rewrite (Hrej t eq_refl). by apply (IH k).
      + by apply (IH k).
Qed.

End Get.


Section Get_Removed.
Context `{!semver.Lib}.

Lemma ver_Version_retag flag (e : option repo.ChartVersion) :
  repo.ver_Version (repo.retag_ptr flag e) = repo.ver_Version e.
Proof. by destruct e as [cv|]. Qed.

Lemma Get_exact_retag flag (c : repo.ChartVersions) v :
  repo.Get_exact (map (repo.retag_ptr flag) c) v
  = repo.retag_ptr flag <$> repo.Get_exact c v.
Proof.
  induction c as [|e c IH]; [done|]. simpl.
  rewrite ver_Version_retag.
  destruct (repo.ver_Version e) as [w|]; simpl; [|done].
  by destruct (String.eqb v w).
Qed.

Lemma Get_check_retag flag cs (c : repo.ChartVersions) :
  repo.Get_check cs (map (repo.retag_ptr flag) c)
  = repo.retag_ptr flag <$> repo.Get_check cs c.
Proof.
  induction c as [|e c IH]; [done|]. simpl.
  rewrite ver_Version_retag.
  destruct (repo.ver_Version e) as [w|]; simpl; [|done].
  destruct (semver.NewVersion w) as [t|]; [|done].
  destruct cs as [cs|]; simpl; [|done].
  by destruct (semver.Check cs t).
Qed.

(** C10. Version resolution never consults the [Removed] tombstone flag:
    whatever the flags of the entries of a list are changed to, [Get]
    behaves the same for every name and every version constraint, and
    returns the entry at the same place (with its changed flag). *)
Theorem ChartVersions_Get_ignores_Removed
    (flag : repo.ChartVersion → bool) (c : repo.ChartVersions) (name version : string) :
  repo.ChartVersions_Get (map (repo.retag_ptr flag) c) name version
  = (λ r, (repo.retag_ptr flag r.1, r.2)) <$> repo.ChartVersions_Get c name version.
Proof.
  unfold repo.ChartVersions_Get.
  destruct (String.eqb version "");
    [|destruct (semver.NewConstraint version) as [k|]; [|done]].
  all: destruct (negb (String.length version =? 0)%nat); simpl.
  all: rewrite ?Get_exact_retag, ?Get_check_retag.
  all: try (destruct (repo.Get_exact c version) as [[ver|]|]; simpl; try done).
  all: match goal with
       | |- context [repo.Get_check ?cs ?l] =>
           by destruct (repo.Get_check cs l) as [[ver'|]|]
       end.
Qed.

End Get_Removed.

Section Get_claims.
Context `{!semver.Lib}.

(** C1 (amended). For every chart version list and every non-empty
    requested version string [v] that parses as a version constraint, if
    some (option repo.ChartVersion)s raw version string is exactly [v], and the entries before
    the first such entry are not nil and carry metadata, then [Get] returns
    the first such entry, whether or not [v] is a valid semantic version. *)
Theorem ChartVersions_Get_exact_match
    (c : repo.ChartVersions) (name v : string) (k : nat) (cv : repo.ChartVersion) :
  v ≠ "" →
  is_Some (semver.NewConstraint v) →
  c !! k = Some (Some cv) →
  repo.ver_Version (Some cv) = Ok v →
  Forall (λ e, ∃ w, repo.ver_Version e = Ok w ∧ w ≠ v) (take k c) →
  repo.ChartVersions_Get c name v = Ok (Some cv, None).
Proof.
  intros Hv [cs Hcs] Hk Hcv Hbefore.
  rewrite (ChartVersions_Get_constraint c name v cs Hv Hcs).
  by rewrite (Get_exact_first c v k cv Hk Hcv Hbefore).
Qed.

(** C2 (amended). For every index on which [SortEntries] has been called
    and every chart name, [IndexFile.Get] with an empty version string
    returns the first entry of that chart's list whose version parses as a
    semantic version and satisfies the constraint [*], when the entries
    before it are not nil and carry metadata: the entry at position 0 when
    that entry qualifies, a later one otherwise. *)
Theorem IndexFile_Get_empty_version `{!sort.Pdqsort}
    (keys : list string) (i0 i : repo.IndexFile) (name : string)
    (c : repo.ChartVersions) (star : semver.Constraints)
    (k : nat) (cv : repo.ChartVersion) (s : string) (v : semver.Version) :
  repo.IndexFile_SortEntries keys i0 = Ok i →
  repo.entries i !! name = Some c →
  semver.NewConstraint "*" = Some star →
  c !! k = Some (Some cv) →
  repo.ver_Version (Some cv) = Ok s →
  semver.NewVersion s = Some v →
  semver.Check star v = true →
  Forall (λ e, ∃ w, repo.ver_Version e = Ok w ∧
               ∀ t, semver.NewVersion w = Some t → semver.Check star t = false)
         (take k c) →
  repo.IndexFile_Get i name "" = Ok (Some cv, None).
Proof.
  intros _ Hc Hstar Hk Hs Hv Hcheck Hbefore.
  unfold repo.IndexFile_Get, repo.IndexFile_GetVersions. rewrite Hc.
  destruct c as [|e c]; [done|].
  change (length (e :: c) =? 0)%nat with false. cbv iota.
  change (default [] (Some (e :: c))) with (e :: c).
  rewrite ChartVersions_Get_any, Hstar.
  by rewrite (Get_check_first (e :: c) star k cv s v Hk Hs Hv Hcheck Hbefore).
Qed.

End Get_claims.

Section Get_evaluations.
Local Existing Instance semver_ref.lib.
Local Existing Instance sort_ref.small_only.

(** The exact match on ["1.x"], which is a constraint and not a version. *)
Lemma ChartVersions_Get_exact_match_witness :
  semver.NewVersion "1.x" = None ∧
  repo.ChartVersions_Get
    [Some (samples.entry "c" "1.0.0" "d0"); Some (samples.entry "c" "1.x" "d1");
     Some (samples.entry "c" "1.x" "d2")] "c" "1.x"
  = Ok (Some (samples.entry "c" "1.x" "d1"), None).
Proof.
  split; [reflexivity|].
  apply (ChartVersions_Get_exact_match _ "c" "1.x" 1).
  - discriminate.
  - eexists. reflexivity.
  - reflexivity.
  - reflexivity.
  - repeat constructor. eexists. split; [reflexivity|discriminate].
Defined.

(** The entry whose raw version is ["latest"] is not returned when
    ["latest"] is requested: the string is not a constraint, and [Get]
    returns the parse error before it looks for an exact match. *)
Lemma ChartVersions_Get_exact_match_counterexample :
  let c := [Some (samples.entry "c" "latest" "d0")] in
  "latest" ≠ "" ∧
  c !! 0%nat = Some (Some (samples.entry "c" "latest" "d0")) ∧
  repo.ver_Version (Some (samples.entry "c" "latest" "d0")) = Ok "latest" ∧
  repo.ChartVersions_Get c "c" "latest" = Ok (None, Some (semver_error "latest")) ∧
  repo.ChartVersions_Get c "c" "latest"
    ≠ Ok (Some (samples.entry "c" "latest" "d0"), None).
Proof. repeat split; try reflexivity; discriminate. Qed.

Lemma IndexFile_Get_empty_version_witness :
  let i0 := samples.index "v1"
    [("c", [Some (samples.entry "c" "1.0.0" "d0"); Some (samples.entry "c" "2.0.0" "d1")])] in
  let i := samples.index "v1"
    [("c", [Some (samples.entry "c" "2.0.0" "d1"); Some (samples.entry "c" "1.0.0" "d0")])] in
  repo.IndexFile_SortEntries ["c"] i0 = Ok i ∧
  repo.IndexFile_Get i "c" "" = Ok (Some (samples.entry "c" "2.0.0" "d1"), None).
Proof.
  intros i0 i.
  assert (repo.IndexFile_SortEntries ["c"] i0 = Ok i) as Hsort by (vm_compute; reflexivity).
  split; [exact Hsort|].
  eapply (IndexFile_Get_empty_version ["c"] i0 i "c" _ _ 0);
    [exact Hsort | reflexivity .. | constructor].
Defined.

(** A sorted list that starts with a pre-release: the empty version selects
    the entry at position 1. *)
Lemma IndexFile_Get_empty_version_counterexample :
  let beta := samples.entry "c" "2.0.0-beta" "d0" in
  let stable := samples.entry "c" "1.0.0" "d1" in
  let i := samples.index "v1" [("c", [Some beta; Some stable])] in
  repo.IndexFile_SortEntries ["c"] i = Ok i ∧
  repo.entries i !! "c" = Some [Some beta; Some stable] ∧
  repo.IndexFile_Get i "c" "" = Ok (Some stable, None) ∧
  repo.IndexFile_Get i "c" "" ≠ Ok (Some beta, None).
Proof.
  repeat split; try (vm_compute; reflexivity). vm_compute. discriminate.
Qed.

End Get_evaluations.

(** ** The registry: references *)

Section strings_facts.

Lemma LastIndexByte_bounds (s : string) (sep : ascii) :
  (-1 ≤ strings.LastIndexByte s sep < Z.of_nat (String.length s))%Z.
Proof.
  induction s as [|a s IH]; simpl; [lia|].
  destruct (0 <=? strings.LastIndexByte s sep)%Z eqn:E.
  - apply Z.leb_le in E. lia.
  - destruct (Ascii.eqb a sep); lia.
Qed.




End strings_facts.

Section references.
Context `{!downloader.Collaborators}.


Lemma getInfoByF_range_none (keys : list string) (m : gmap string repo.Entry)
    (f : repo.Entry → bool) :
  (∀ name entry, m !! name = Some entry → f entry = false) →
  downloader.getInfoByF_range keys m f = None.
Proof.
  intros Hnone. induction keys as [|k keys IH]; [done|]. simpl.
  destruct (m !! k) as [entry|] eqn:Hk; [|done].
  by rewrite (Hnone k entry Hk).
Qed.

Lemma getInfoByF_range_unique (keys : list string) (m : gmap string repo.Entry)
    (f : repo.Entry → bool) (k0 : string) (e0 : repo.Entry) :
  k0 ∈ keys → m !! k0 = Some e0 → f e0 = true →
  (∀ name entry, m !! name = Some entry → f entry = true → entry = e0) →
  downloader.getInfoByF_range keys m f = Some e0.
Proof.
  intros Hin Hk0 Hf Huniq. induction keys as [|k keys IH]; [by apply elem_of_nil in Hin|].
  simpl. destruct (m !! k) as [entry|] eqn:Hk.
  - destruct (f entry) eqn:Hfe; [by rewrite (Huniq k entry Hk Hfe)|].
    apply IH. apply elem_of_cons in Hin as [->|Hin]; [|done]. congruence.
  - apply IH. apply elem_of_cons in Hin as [->|Hin]; [|done]. congruence.
Qed.

Lemma range_order_elem {V} (m : gmap string V) (keys : list string) k v :
  range_order m keys → m !! k = Some v → k ∈ keys.
Proof.
  unfold range_order. intros -> Hk.
  apply list_elem_of_fmap. exists (k, v). split; [done|].
  by apply elem_of_map_to_list.
Qed.

Lemma getInfoByURL_fresh (keys : list string) (c : downloader.ChartRepositories)
    (url generated : string) :
  (∀ name entry, downloader.repos c !! name = Some entry →
                 downloader.urlutil_Equal (repo.URL entry) url = false) →
  downloader.key url = (generated, None) →
  let name := downloader.managerKeyPrefix +:+ generated in
  let entry := {| repo.Name := name; repo.URL := url;
                  repo.Username := ""; repo.Password := "" |} in
  downloader.getInfoByURL keys c url
    = (Some entry, downloader.with_repos (<[name := entry]> (downloader.repos c)) c).
Proof.
  intros Hnone Hkey. unfold downloader.getInfoByURL, downloader.getInfoByF.
  by rewrite (getInfoByF_range_none keys _ _ Hnone), Hkey.
Qed.

Lemma getInfoByURL_registered (keys : list string) (c : downloader.ChartRepositories)
    (url name : string) (entry : repo.Entry) :
  name ∈ keys → downloader.repos c !! name = Some entry →
  downloader.urlutil_Equal (repo.URL entry) url = true →
  (∀ k e, downloader.repos c !! k = Some e →
          downloader.urlutil_Equal (repo.URL e) url = true → e = entry) →
  downloader.getInfoByURL keys c url = (Some entry, c).
Proof.
  intros Hin Hname Heq Huniq. unfold downloader.getInfoByURL, downloader.getInfoByF.
  by rewrite (getInfoByF_range_unique keys _ _ name entry Hin Hname Heq Huniq).
Qed.

(** C7 (amended). For every URL with no registered entry whose URL compares
    equal to it, whose key is computed without error and whose generated
    name is not yet a registered name, resolving the URL twice returns the
    same generated repository name both times, and the entry table grows by
    exactly one entry across both calls. *)
Theorem GetInfoByURL_registers_once
    (keys1 keys2 : list string) (c : downloader.ChartRepositories)
    (url generated : string) :
  (∀ name entry, downloader.repos c !! name = Some entry →
                 downloader.urlutil_Equal (repo.URL entry) url = false) →
  downloader.key url = (generated, None) →
  downloader.urlutil_Equal url url = true →
  downloader.repos c !! (downloader.managerKeyPrefix +:+ generated) = None →
  range_order (downloader.repos (downloader.GetInfoByURL keys1 c url).2) keys2 →
  let r1 := downloader.GetInfoByURL keys1 c url in
  let r2 := downloader.GetInfoByURL keys2 r1.2 url in
  repo.Name <$> r1.1 = Some (downloader.managerKeyPrefix +:+ generated) ∧
  repo.Name <$> r2.1 = Some (downloader.managerKeyPrefix +:+ generated) ∧
  size (downloader.repos r2.2) = S (size (downloader.repos c)).
Proof.
  intros Hnone Hkey Hrefl Hfree. unfold downloader.GetInfoByURL.
  rewrite (getInfoByURL_fresh keys1 c url generated Hnone Hkey).
  set (name := downloader.managerKeyPrefix +:+ generated).
  set (entry := {| repo.Name := name; repo.URL := url;
                   repo.Username := ""; repo.Password := "" |}).
  simpl. intros Horder.
  assert (<[name:=entry]> (downloader.repos c) !! name = Some entry) as Hname
    by apply lookup_insert_eq.
  rewrite (getInfoByURL_registered keys2 _ url name entry).
  - simpl. split; [done|]. split; [done|]. by apply map_size_insert_None.
  - by eapply range_order_elem.
  - done.
  - done.
  - simpl. intros k e Hk He. destruct (decide (name = k)) as [<-|Hne]; [congruence|].
    rewrite lookup_insert_ne in Hk by done.
    rewrite (Hnone k e Hk) in He. done.
Qed.

(** Whatever the collaborators are: when the generated name is already the
    name of a repository with another URL, the first call replaces that
    entry and the table does not grow. *)
Lemma GetInfoByURL_replaces_taken_name
    (keys : list string) (c : downloader.ChartRepositories)
    (url generated : string) (old : repo.Entry) :
  (∀ name entry, downloader.repos c !! name = Some entry →
                 downloader.urlutil_Equal (repo.URL entry) url = false) →
  downloader.key url = (generated, None) →
  downloader.repos c !! (downloader.managerKeyPrefix +:+ generated) = Some old →
  size (downloader.repos (downloader.GetInfoByURL keys c url).2)
    = size (downloader.repos c).
Proof.
  intros Hnone Hkey Htaken. unfold downloader.GetInfoByURL.
  rewrite (getInfoByURL_fresh keys c url generated Hnone Hkey). simpl.
  by erewrite map_size_insert_Some.
Qed.

Lemma CanonicalizeRepoName_url (keys : list string) (c : downloader.ChartRepositories)
    (url : string) :
  String.eqb url "" = false →
  strings.HasPrefix url "file://" = false →
  downloader.registry_IsOCI url = false →
  downloader.url_IsAbs url = true →
  downloader.getInfo c (strings.TrimPrefix url "@") = None →
  downloader.getInfo c (strings.TrimPrefix url "alias:") = None →
  downloader.CanonicalizeRepoName keys c url
  = match downloader.getInfoByURL keys c url with
    | (Some entry, c') => (repo.Name entry, c')
    | (None, c') => ("", c')
    end.
Proof.
  intros Hblank Hfile Hoci Habs Hat Halias. unfold downloader.CanonicalizeRepoName.
  by rewrite Hblank, Hfile, Hoci, Hat, Halias, Habs.
Qed.

Lemma getInfo_insert (c : downloader.ChartRepositories) (name t : string)
    (entry : repo.Entry) :
  downloader.getInfo c t = None →
  downloader.getInfo
    (downloader.with_repos (<[name := entry]> (downloader.repos c)) c) t = None
  ∨ (t = name ∧
     downloader.getInfo
       (downloader.with_repos (<[name := entry]> (downloader.repos c)) c) t
     = Some entry).
Proof.
  unfold downloader.getInfo. destruct (String.eqb t ""); [by left|]. simpl.
  intros Hnone. destruct (decide (name = t)) as [->|Hne].
  - right. by rewrite lookup_insert_eq.
  - left. by rewrite lookup_insert_ne.
Qed.

(** The same through [CanonicalizeRepoName], for an absolute URL that is
    neither a file nor an OCI reference, and that names no repository after
    its alias marker is removed. *)
Lemma CanonicalizeRepoName_registers_once
    (keys1 keys2 : list string) (c : downloader.ChartRepositories)
    (url generated : string) :
  (∀ name entry, downloader.repos c !! name = Some entry →
                 downloader.urlutil_Equal (repo.URL entry) url = false) →
  downloader.key url = (generated, None) →
  downloader.urlutil_Equal url url = true →
  downloader.repos c !! (downloader.managerKeyPrefix +:+ generated) = None →
  String.eqb url "" = false →
  strings.HasPrefix url "file://" = false →
  downloader.registry_IsOCI url = false →
  downloader.url_IsAbs url = true →
  downloader.getInfo c (strings.TrimPrefix url "@") = None →
  downloader.getInfo c (strings.TrimPrefix url "alias:") = None →
  range_order (downloader.repos (downloader.CanonicalizeRepoName keys1 c url).2) keys2 →
  let r1 := downloader.CanonicalizeRepoName keys1 c url in
  let r2 := downloader.CanonicalizeRepoName keys2 r1.2 url in
  r1.1 = downloader.managerKeyPrefix +:+ generated ∧
  r2.1 = downloader.managerKeyPrefix +:+ generated ∧
  size (downloader.repos r2.2) = S (size (downloader.repos c)).
Proof.
  intros Hnone Hkey Hrefl Hfree Hblank Hfile Hoci Habs Hat Halias.
  rewrite (CanonicalizeRepoName_url keys1 c url Hblank Hfile Hoci Habs Hat Halias).
  rewrite (getInfoByURL_fresh keys1 c url generated Hnone Hkey).
  set (name := downloader.managerKeyPrefix +:+ generated).
  set (entry := {| repo.Name := name; repo.URL := url;
                   repo.Username := ""; repo.Password := "" |}).
  set (c1 := downloader.with_repos (<[name := entry]> (downloader.repos c)) c).
  cbv zeta. simpl. intros Horder.
  assert (size (downloader.repos c1) = S (size (downloader.repos c))) as Hsize
    by (by apply map_size_insert_None).
  assert (downloader.getInfoByURL keys2 c1 url = (Some entry, c1)) as Hurl.
  { apply (getInfoByURL_registered keys2 c1 url name entry); simpl; auto.
    - by eapply range_order_elem, lookup_insert_eq.
    - apply lookup_insert_eq.
    - intros k e Hk He. destruct (decide (name = k)) as [<-|Hne].
      + rewrite lookup_insert_eq in Hk. congruence.
      + rewrite lookup_insert_ne in Hk by done. rewrite (Hnone k e Hk) in He. done. }
  assert (downloader.CanonicalizeRepoName keys2 c1 url = (name, c1)) as ->; [|done].
  unfold downloader.CanonicalizeRepoName. rewrite Hblank, Hfile, Hoci. simpl.
  pose proof (getInfo_insert c name _ entry Hat) as H1. fold c1 in H1.
  pose proof (getInfo_insert c name _ entry Halias) as H2. fold c1 in H2.
  destruct H1 as [->|[<- ->]]; simpl; [|done].
  destruct H2 as [->|[<- ->]]; simpl; [|done].
  by rewrite Habs, Hurl.
Qed.

End references.

Section references_evaluations.


Lemma GetInfoByURL_registers_once_witness :
  let C := downloader_ref.collaborators [] in
  let r1 := downloader.GetInfoByURL (H := C) ["stable"] samples.registry samples.url_a in
  let r2 := downloader.GetInfoByURL (H := C) ["stable"; samples.taken_name] r1.2 samples.url_a in
  repo.Name <$> r1.1 = Some samples.taken_name ∧
  repo.Name <$> r2.1 = Some samples.taken_name ∧
  size (downloader.repos r2.2) = 2.
Proof.
  apply (GetInfoByURL_registers_once (H := downloader_ref.collaborators [])
           ["stable"] ["stable"; samples.taken_name] samples.registry
           samples.url_a (downloader_ref.hex samples.url_a)).
  - intros name entry Hentry. simpl in Hentry.
    apply lookup_singleton_Some in Hentry as [_ <-]. reflexivity.
  - reflexivity.
  - reflexivity.
  - reflexivity.
  - vm_compute. reflexivity.
Defined.

(** The generated name of [samples.url_a] is taken by a repository with
    another URL: both calls return the generated name, and the table has
    one entry before and after. *)
Lemma GetInfoByURL_registers_once_counterexample :
  let C := downloader_ref.collaborators [] in
  let c := samples.registry_taken in
  let r1 := downloader.GetInfoByURL (H := C) [samples.taken_name] c samples.url_a in
  let r2 := downloader.GetInfoByURL (H := C) [samples.taken_name] r1.2 samples.url_a in
  downloader.url_IsAbs samples.url_a = true ∧
  downloader.getInfoByF [samples.taken_name] c
    (λ entry, downloader.urlutil_Equal (repo.URL entry) samples.url_a) = None ∧
  repo.Name <$> r1.1 = Some samples.taken_name ∧
  repo.Name <$> r2.1 = Some samples.taken_name ∧
  size (downloader.repos c) = 1 ∧
  size (downloader.repos r2.2) = 1 ∧
  size (downloader.repos r2.2) ≠ S (size (downloader.repos c)).
Proof. repeat split; try (vm_compute; reflexivity). vm_compute. discriminate. Qed.

End references_evaluations.

(** ** The registry: the index cache *)

Section GetIndex.
Context `{!downloader.Collaborators} `{!semver.Lib} `{!sort.Pdqsort}
        `{!chart.Validator} `{!repo.Codec} `{!repo.FileSystem} `{!repo.RangeOrder}.

(** The registry that the constructor returns satisfies the invariant, and
    the operations keep it. *)
Lemma NewChartRepositories_cache_registered (config cache : string)
    (c : downloader.ChartRepositories) (err : option error) :
  downloader.NewChartRepositories config cache = Ok (Some c, err) →
  downloader.cache_registered c.
Proof.
  unfold downloader.NewChartRepositories, downloader.cache_registered.
  destruct (downloader.loadRepoConfig config) as [l|e]; [|done].
  destruct (downloader.NewChartRepositories_range l ∅) as [m|]; simpl; [|done].
  intros [= <- _]. simpl. set_solver.
Qed.

Lemma getInfoByURL_cache_registered (keys : list string)
    (c : downloader.ChartRepositories) (url : string) :
  downloader.cache_registered c →
  downloader.cache_registered (downloader.getInfoByURL keys c url).2.
Proof.
  unfold downloader.cache_registered, downloader.getInfoByURL. intros Hc.
  destruct (downloader.getInfoByF keys c _); [done|].
  destruct (downloader.key url) as [g [e|]]; [done|]. simpl.
  rewrite dom_insert_L. set_solver.
Qed.

Lemma CanonicalizeRepoName_cache_registered (keys : list string)
    (c : downloader.ChartRepositories) (name : string) :
  downloader.cache_registered c →
  downloader.cache_registered (downloader.CanonicalizeRepoName keys c name).2.
Proof.
  intros Hc. unfold downloader.CanonicalizeRepoName.
  repeat (match goal with |- context [if ?b then _ else _] => destruct b end; [done|]).
  destruct (downloader.url_IsAbs name); [|done].
  pose proof (getInfoByURL_cache_registered keys c name Hc) as Hc'.
  by destruct (downloader.getInfoByURL keys c name) as [[entry|] c'].
Qed.

Lemma GetForRef_cache_registered (keys : list string)
    (c : downloader.ChartRepositories) (ref : string) :
  downloader.cache_registered c →
  downloader.cache_registered (downloader.GetForRef keys c ref).2.
Proof.
  intros Hc. unfold downloader.GetForRef.
  destruct (0 <? _)%Z; [|done]. by apply CanonicalizeRepoName_cache_registered.
Qed.

Lemma GetIndex_cache_registered (c c' : downloader.ChartRepositories) (name : string)
    (index : option repo.IndexFile) (err : option error) (lg : list repo.log_record) :
  downloader.cache_registered c →
  downloader.GetIndex c name = Ok (index, err, c', lg) →
  downloader.cache_registered c'.
Proof.
  unfold downloader.cache_registered, downloader.GetIndex, downloader.getInfo.
  intros Hc. destruct (String.eqb name ""); [by intros [= ? ? <- ?]|].
  destruct (downloader.indices c !! name); [by intros [= ? ? <- ?]|].
  destruct (downloader.repos c !! name) as [entry|] eqn:Hentry; [|by intros [= ? ? <- ?]].
  destruct (repo.LoadIndexFile _) as [[[i e] l]|]; simpl; [|done].
  destruct e; intros Heq; injection Heq as ? ? <- ?; [done|]. simpl.
  rewrite dom_insert_L. apply elem_of_dom_2 in Hentry.
  apply union_subseteq. split; [by apply singleton_subseteq_l|done].
Qed.

(** C8. In every state of the registry that satisfies its invariant,
    [GetIndex] returns no index and no error, and leaves the registry as it
    is, for the blank name and for every name with no registered entry; and
    when it returns an error, the name is registered and the error is the
    one that [LoadIndexFile] returned for the cached index file of that
    repository. *)
Theorem GetIndex_soft_failure (c : downloader.ChartRepositories) (name : string) :
  downloader.cache_registered c →
  (name = "" ∨ downloader.repos c !! name = None →
   downloader.GetIndex c name = Ok (None, None, c, []))
  ∧ (∀ index err c' lg,
       downloader.GetIndex c name = Ok (index, Some err, c', lg) →
       ∃ entry loaded,
         downloader.repos c !! name = Some entry ∧
         repo.LoadIndexFile
           (downloader.filepath_Join (downloader.indexPath c)
              (downloader.helmpath_CacheIndexFile (repo.Name entry)))
           = Ok (loaded, Some err, lg) ∧
         index = None ∧ c' = c).
Proof.
  intros Hc. unfold downloader.GetIndex, downloader.getInfo. split.
  - intros [->|Hnone]; [done|].
    destruct (String.eqb name ""); [done|].
    destruct (downloader.indices c !! name) as [i|] eqn:Hi; [|by rewrite Hnone].
    apply elem_of_dom_2, Hc, elem_of_dom in Hi as [entry Hentry]. congruence.
  - intros index err c' lg.
    destruct (String.eqb name ""); [done|].
    destruct (downloader.indices c !! name) as [i|]; [done|].
    destruct (downloader.repos c !! name) as [entry|]; [|done].
    destruct (repo.LoadIndexFile _) as [[[i e] l]|] eqn:Hload; simpl; [|done].
    destruct e as [e|]; [|done]. intros [= <- <- <- <-]. by exists entry, i.
Qed.

End GetIndex.

Section GetIndex_evaluations.

Lemma GetIndex_soft_failure_witness :
  let run := downloader.GetIndex
    (H := downloader_ref.collaborators []) (H0 := semver_ref.lib)
    (H1 := sort_ref.small_only) (H2 := chart_ref.validator)
    (H3 := repo_ref.codec []) (H4 := repo_ref.file_system [])
    (H5 := repo_ref.range_order) samples.registry in
  run "" = Ok (None, None, samples.registry, []) ∧
  run "unknown" = Ok (None, None, samples.registry, []) ∧
  run "stable" = Ok (None, Some (os_error "/cache/stable-index.yaml"),
                     samples.registry, []).
Proof.
  intros run.
  assert (downloader.cache_registered samples.registry) as Hinv
    by (unfold downloader.cache_registered; simpl; set_solver).
  split; [|split].
  - apply (GetIndex_soft_failure (H := downloader_ref.collaborators [])
             (H0 := semver_ref.lib) (H1 := sort_ref.small_only)
             (H2 := chart_ref.validator) (H3 := repo_ref.codec [])
             (H4 := repo_ref.file_system []) (H5 := repo_ref.range_order)
             samples.registry "" Hinv).
    by left.
  - apply (GetIndex_soft_failure (H := downloader_ref.collaborators [])
             (H0 := semver_ref.lib) (H1 := sort_ref.small_only)
             (H2 := chart_ref.validator) (H3 := repo_ref.codec [])
             (H4 := repo_ref.file_system []) (H5 := repo_ref.range_order)
             samples.registry "unknown" Hinv).
    right. reflexivity.
  - vm_compute. reflexivity.
Defined.

End GetIndex_evaluations.

(** ** Merging indices *)

Section Merge.
Context `{!semver.Lib}.

Lemma ver_Version_metadata (ver : option repo.ChartVersion) (md : chart.Metadata) :
  repo.metadata_of ver = Some md →
  repo.ver_Version ver = Ok (chart.Version md) ∧ repo.ver_Name ver = Ok (chart.Name md).
Proof.
  destruct ver as [cv|]; [|done]. unfold repo.ver_Version, repo.ver_Name. simpl.
  by intros ->.
Qed.

Lemma Get_exact_app (c l : repo.ChartVersions) (v : string) :
  repo.Get_exact (c ++ l) v =
    r ← repo.Get_exact c v;
    match r with Some x => Ok (Some x) | None => repo.Get_exact l v end.
Proof.
  induction c as [|e c IH]; simpl; [by destruct (repo.Get_exact l v)|].
  destruct e as [cv|]; [|done].
  destruct (repo.ver_Version (Some cv)) as [w|]; simpl; [|done].
  by destruct (String.eqb v w).
Qed.

Lemma Get_check_app cs (c l : repo.ChartVersions) :
  repo.Get_check cs (c ++ l) =
    r ← repo.Get_check cs c;
    match r with Some x => Ok (Some x) | None => repo.Get_check cs l end.
Proof.
  induction c as [|e c IH]; simpl; [by destruct (repo.Get_check cs l)|].
  destruct e as [cv|]; [|done].
  destruct (repo.ver_Version (Some cv)) as [w|]; simpl; [|done].
  destruct (semver.NewVersion w) as [t|]; [|done].
  destruct cs as [cs|]; simpl; [|done].
  by destruct (semver.Check cs t).
Qed.

Lemma Get_exact_total (c : repo.ChartVersions) (v : string) :
  Forall (λ ver, is_Some (repo.metadata_of ver)) c →
  ∃ r, repo.Get_exact c v = Ok r.
Proof.
  induction 1 as [|e c [md Hmd] _ [r IH]]; simpl; [by eauto|].
  destruct (ver_Version_metadata e md Hmd) as [-> _]. simpl.
  destruct (String.eqb v (chart.Version md)); eauto.
Qed.

Lemma Get_check_total cs (c : repo.ChartVersions) :
  Forall (λ ver, is_Some (repo.metadata_of ver)) c →
  ∃ r, repo.Get_check (Some cs) c = Ok r.
Proof.
  induction 1 as [|e c [md Hmd] _ [r IH]]; simpl; [by eauto|].
  destruct (ver_Version_metadata e md Hmd) as [-> _]. simpl.
  destruct (semver.NewVersion (chart.Version md)) as [t|]; simpl; [|by eauto].
  destruct (semver.Check cs t); eauto.
Qed.

(** [Get] returns, on a list of records, for a version that parses as a
    constraint. *)
Lemma ChartVersions_Get_total (c : repo.ChartVersions) (name v : string) :
  Forall (λ ver, is_Some (repo.metadata_of ver)) c →
  v ≠ "" → is_Some (semver.NewConstraint v) →
  ∃ r, repo.ChartVersions_Get c name v = Ok r.
Proof.
  intros Hc Hv [cs Hcs]. rewrite (ChartVersions_Get_constraint c name v cs Hv Hcs).
  destruct (Get_exact_total c v Hc) as [[x|] ->]; simpl; [by eauto|].
  destruct (Get_check_total cs c Hc) as [[x|] ->]; simpl; eauto.
Qed.

(** A successful [Get] stays successful when entries are appended. *)
Lemma ChartVersions_Get_app (c l : repo.ChartVersions)
    (name v : string) (x : option repo.ChartVersion) :
  Forall (λ ver, is_Some (repo.metadata_of ver)) l →
  v ≠ "" → is_Some (semver.NewConstraint v) →
  repo.ChartVersions_Get c name v = Ok (x, None) →
  ∃ y, repo.ChartVersions_Get (c ++ l) name v = Ok (y, None).
Proof.
  intros Hl Hv [cs Hcs].
  rewrite !(ChartVersions_Get_constraint _ name v cs Hv Hcs).
  rewrite Get_exact_app, Get_check_app.
  destruct (Get_exact_total l v Hl) as [ye ->].
  destruct (Get_check_total cs l Hl) as [yc ->].
  destruct (repo.Get_exact c v) as [[x1|]|]; simpl; [by eauto| |done].
  destruct ye as [y|]; simpl; [by eauto|].
  destruct (repo.Get_check (Some cs) c) as [[x2|]|]; simpl; [by eauto|done|done].
Qed.

Lemma ChartVersions_Get_snoc (c : repo.ChartVersions) (e : option repo.ChartVersion)
    (name v : string) (x : option repo.ChartVersion) :
  is_Some (repo.metadata_of e) →
  v ≠ "" → is_Some (semver.NewConstraint v) →
  repo.ChartVersions_Get c name v = Ok (x, None) →
  ∃ y, repo.ChartVersions_Get (c ++ [e]) name v = Ok (y, None).
Proof. intros He. apply ChartVersions_Get_app. by repeat constructor. Qed.

(** The entry that was appended last is found by its own version. *)
Lemma ChartVersions_Get_appended (c : repo.ChartVersions) (e : option repo.ChartVersion)
    (md : chart.Metadata) (name : string) :
  Forall (λ ver, is_Some (repo.metadata_of ver)) c →
  repo.metadata_of e = Some md →
  chart.Version md ≠ "" → is_Some (semver.NewConstraint (chart.Version md)) →
  ∃ y, repo.ChartVersions_Get (c ++ [e]) name (chart.Version md) = Ok (y, None).
Proof.
  intros Hc He Hv [cs Hcs].
  rewrite (ChartVersions_Get_constraint _ name _ cs Hv Hcs), Get_exact_app.
  destruct (Get_exact_total c (chart.Version md) Hc) as [[x|] ->]; simpl; [by eauto|].
  destruct (ver_Version_metadata e md He) as [-> _]. simpl.
  rewrite String.eqb_refl. destruct e as [cv|]; [|done]. simpl. eauto.
Qed.


(** [Has] in terms of the list of the chart. *)
Lemma IndexFile_Has_lookup (i : repo.IndexFile) (name v : string) (c : repo.ChartVersions) :
  repo.entries i !! name = Some c → c ≠ [] →
  repo.IndexFile_Has i name v =
    r ← repo.ChartVersions_Get c name v;
    Ok (match r.2 with None => true | Some _ => false end).
Proof.
  intros Hc Hne. unfold repo.IndexFile_Has, repo.IndexFile_Get, repo.IndexFile_GetVersions.
  rewrite Hc. by destruct c.
Qed.

Lemma IndexFile_Has_true_inv (i : repo.IndexFile) (name v : string) :
  repo.IndexFile_Has i name v = Ok true →
  ∃ c x, repo.entries i !! name = Some c ∧ c ≠ [] ∧
         repo.ChartVersions_Get c name v = Ok (x, None).
Proof.
  unfold repo.IndexFile_Has, repo.IndexFile_Get, repo.IndexFile_GetVersions.
  destruct (repo.entries i !! name) as [c|]; [|done].
  destruct c as [|e c]; [done|]. simpl.
  destruct (repo.ChartVersions_Get (e :: c) name v) as [[x [err|]]|] eqn:Hget;
    simpl; try done.
  intros _. by exists (e :: c), x.
Qed.


Lemma IndexFile_Has_total (i : repo.IndexFile) (name v : string) :
  repo.readable i → v ≠ "" → is_Some (semver.NewConstraint v) →
  ∃ b, repo.IndexFile_Has i name v = Ok b.
Proof.
  intros Hi Hv Hcs.
  unfold repo.IndexFile_Has, repo.IndexFile_Get, repo.IndexFile_GetVersions.
  destruct (repo.entries i !! name) as [c|] eqn:Hc; [|by eauto].
  destruct c as [|e c]; [by eauto|]. simpl.
  destruct (ChartVersions_Get_total (e :: c) name v (Hi name _ Hc) Hv Hcs) as [r ->].
  simpl. eauto.
Qed.

Lemma Merge_entry_listed (i : repo.IndexFile) (ver : option repo.ChartVersion) :
  is_Some (repo.metadata_of ver) → repo.listed i ver →
  repo.Merge_entry i ver = Ok i.
Proof.
  intros [md Hmd] Hlisted. unfold repo.Merge_entry.
  destruct (ver_Version_metadata ver md Hmd) as [-> ->]. simpl.
  by rewrite (Hlisted md Hmd).
Qed.

Lemma entries_with_Entries (m : gmap string repo.ChartVersions) (i : repo.IndexFile) :
  repo.entries (repo.with_Entries (Some m) i) = m.
Proof. done. Qed.

(** One step of [Merge] on a readable, initialised index: it returns, the
    index stays readable and initialised, the entry is listed afterwards,
    and nothing that was listed is lost. *)
Lemma Merge_entry_step (i : repo.IndexFile) (ver : option repo.ChartVersion)
    (md : chart.Metadata) :
  repo.readable i → is_Some (repo.Entries i) →
  repo.metadata_of ver = Some md →
  chart.Version md ≠ "" → is_Some (semver.NewConstraint (chart.Version md)) →
  ∃ i', repo.Merge_entry i ver = Ok i' ∧
        repo.readable i' ∧ is_Some (repo.Entries i') ∧
        repo.listed i' ver ∧ repo.extends i i'.
Proof.
  intros Hi [m Hm] Hmd Hv Hcs. unfold repo.Merge_entry.
  destruct (ver_Version_metadata ver md Hmd) as [-> ->]. simpl.
  destruct (IndexFile_Has_total i (chart.Name md) _ Hi Hv Hcs) as [[|] Hhas];
    rewrite Hhas; simpl.
  { exists i. repeat split; eauto.
    - intros md' Hmd'. congruence.
    - by intros ???. }
  rewrite Hm.
  assert (repo.entries i = m) as Hentries by (unfold repo.entries; by rewrite Hm).
  set (c := default [] (m !! chart.Name md)).
  assert (Forall (λ ver, is_Some (repo.metadata_of ver)) c) as Hc.
  { unfold c. destruct (m !! chart.Name md) as [c0|] eqn:Hc0; simpl; [|done].
    apply (Hi (chart.Name md)). by rewrite Hentries. }
  eexists. split; [done|]. repeat split.
  - unfold repo.readable. rewrite entries_with_Entries.
    apply map_Forall_insert_2; [|by rewrite <- Hentries].
    apply Forall_app. split; [done|]. repeat constructor. by rewrite Hmd.
  - by eexists.
  - intros md' Hmd'. assert (md' = md) as -> by congruence.
    destruct (ChartVersions_Get_appended c ver md (chart.Name md) Hc Hmd Hv Hcs) as [y Hy].
    rewrite (IndexFile_Has_lookup _ _ _ (c ++ [ver])).
    + by rewrite Hy.
    + rewrite entries_with_Entries. apply lookup_insert_eq.
    + by destruct c.
  - intros name v Hv' Hcs' Hname.
    apply IndexFile_Has_true_inv in Hname as (c' & x & Hc' & Hne & Hget).
    rewrite Hentries in Hc'.
    destruct (decide (chart.Name md = name)) as [<-|Hother].
    + assert (c = c') as <- by (unfold c; by rewrite Hc').
      destruct (ChartVersions_Get_snoc c ver (chart.Name md) v x) as [y Hy];
        [by rewrite Hmd|done..|].
      rewrite (IndexFile_Has_lookup _ _ _ (c ++ [ver])).
      * by rewrite Hy.
      * rewrite entries_with_Entries. apply lookup_insert_eq.
      * by destruct c.
    + rewrite (IndexFile_Has_lookup _ _ _ c'); [by rewrite Hget| |done].
      rewrite entries_with_Entries. by rewrite lookup_insert_ne.
Qed.


(** An entry of a readable list is found by its own version. *)
Lemma ChartVersions_Get_member (c : repo.ChartVersions) (ver : option repo.ChartVersion)
    (md : chart.Metadata) (name : string) :
  Forall (λ ver, is_Some (repo.metadata_of ver)) c →
  ver ∈ c → repo.metadata_of ver = Some md →
  chart.Version md ≠ "" → is_Some (semver.NewConstraint (chart.Version md)) →
  ∃ y, repo.ChartVersions_Get c name (chart.Version md) = Ok (y, None).
Proof.
  intros Hc Hin Hmd Hv Hcs.
  apply list_elem_of_split in Hin as (l1 & l2 & ->).
  apply Forall_app in Hc as [Hl1 Hl2]. apply Forall_cons in Hl2 as [_ Hl2].
  destruct (ChartVersions_Get_appended l1 ver md name Hl1 Hmd Hv Hcs) as [x Hx].
  rewrite (cons_middle ver l1 l2), (assoc_L (++)).
  by eapply ChartVersions_Get_app.
Qed.

Lemma extends_refl (i : repo.IndexFile) : repo.extends i i.
Proof. by intros ???. Qed.

Lemma extends_trans (i1 i2 i3 : repo.IndexFile) :
  repo.extends i1 i2 → repo.extends i2 i3 → repo.extends i1 i3.
Proof. intros H12 H23 name v Hv Hcs Hhas. by apply H23, H12. Qed.

Lemma Merge_cvs_steps (c : repo.ChartVersions) (i : repo.IndexFile) :
  repo.readable i → is_Some (repo.Entries i) →
  Forall (λ ver, ∃ md, repo.metadata_of ver = Some md ∧ chart.Version md ≠ "" ∧
                       is_Some (semver.NewConstraint (chart.Version md))) c →
  ∃ i', repo.Merge_cvs c i = Ok i' ∧
        repo.readable i' ∧ is_Some (repo.Entries i') ∧
        Forall (repo.listed i') c ∧ repo.extends i i'.
Proof.
  intros Hi Hinit Hc. revert i Hi Hinit.
  induction Hc as [|ver c (md & Hmd & Hv & Hcs) _ IH]; intros i Hi Hinit.
  { exists i. repeat split; auto using extends_refl. }
  destruct (Merge_entry_step i ver md Hi Hinit Hmd Hv Hcs)
    as (i1 & Hstep & Hi1 & Hinit1 & Hlisted & Hext1).
  destruct (IH i1 Hi1 Hinit1) as (i2 & Hrest & Hi2 & Hinit2 & Hall & Hext2).
  exists i2. simpl. rewrite Hstep. simpl. repeat split; auto.
  - constructor; [|done]. intros md' Hmd'. assert (md' = md) as -> by congruence.
    apply Hext2; auto.
  - by eapply extends_trans.
Qed.

Lemma Merge_cvs_listed (c : repo.ChartVersions) (i : repo.IndexFile) :
  Forall (λ ver, is_Some (repo.metadata_of ver) ∧ repo.listed i ver) c →
  repo.Merge_cvs c i = Ok i.
Proof.
  induction 1 as [|ver c [Hmd Hlisted] _ IH]; simpl; [done|].
  by rewrite (Merge_entry_listed i ver Hmd Hlisted).
Qed.

Lemma Merge_range_steps (keys : list string) (f : gmap string repo.ChartVersions)
    (i : repo.IndexFile) :
  repo.readable i → is_Some (repo.Entries i) →
  map_Forall (λ _ c,
    Forall (λ ver, ∃ md, repo.metadata_of ver = Some md ∧ chart.Version md ≠ "" ∧
                         is_Some (semver.NewConstraint (chart.Version md))) c) f →
  ∃ i', repo.Merge_range keys f i = Ok i' ∧
        repo.readable i' ∧ is_Some (repo.Entries i') ∧
        (∀ k c, k ∈ keys → f !! k = Some c → Forall (repo.listed i') c) ∧
        repo.extends i i'.
Proof.
  intros Hi Hinit Hf. revert i Hi Hinit.
  induction keys as [|k keys IH]; intros i Hi Hinit.
  { exists i. repeat split; auto using extends_refl. by intros ?? ?%elem_of_nil. }
  assert (Forall (λ ver, ∃ md, repo.metadata_of ver = Some md ∧ chart.Version md ≠ "" ∧
                   is_Some (semver.NewConstraint (chart.Version md)))
                 (default [] (f !! k))) as Hk.
  { destruct (f !! k) as [c|] eqn:Hc; simpl; [by apply (Hf k)|done]. }
  destruct (Merge_cvs_steps _ i Hi Hinit Hk) as (i1 & Hstep & Hi1 & Hinit1 & Hall1 & Hext1).
  destruct (IH i1 Hi1 Hinit1) as (i2 & Hrest & Hi2 & Hinit2 & Hall2 & Hext2).
  exists i2. simpl. rewrite Hstep. simpl. repeat split; auto.
  - intros k' c [->|Hin]%elem_of_cons Hc; [|by eapply Hall2].
    rewrite Hc in Hall1, Hk. simpl in *.
    apply Forall_forall. intros ver Hver md Hmd.
    destruct (proj1 (Forall_forall _ _) Hk ver Hver) as (md' & Hmd' & Hv & Hcs).
    assert (md' = md) as -> by congruence.
    apply Hext2; auto. by apply (proj1 (Forall_forall _ _) Hall1 ver Hver).
  - by eapply extends_trans.
Qed.

Lemma Merge_range_listed (keys : list string) (f : gmap string repo.ChartVersions)
    (i : repo.IndexFile) :
  (∀ k c, k ∈ keys → f !! k = Some c →
          Forall (λ ver, is_Some (repo.metadata_of ver) ∧ repo.listed i ver) c) →
  repo.Merge_range keys f i = Ok i.
Proof.
  induction keys as [|k keys IH]; intros Hall; simpl; [done|].
  rewrite Merge_cvs_listed; simpl.
  - apply IH. intros k' c Hin. apply Hall. by right.
  - destruct (f !! k) as [c|] eqn:Hc; simpl; [|done]. apply (Hall k); [by left|done].
Qed.


Lemma Merge_self_listed (keys : list string) (i : repo.IndexFile) :
  map_Forall (λ _ c,
    Forall (λ ver, is_Some (repo.metadata_of ver) ∧ repo.listed i ver) c)
    (repo.entries i) →
  repo.IndexFile_Merge_self keys i = Ok i.
Proof.
  intros Hall. induction keys as [|k keys IH]; simpl; [done|].
  rewrite Merge_cvs_listed; simpl; [done|].
  destruct (repo.entries i !! k) as [c|] eqn:Hc; simpl; [|done]. by apply (Hall k).
Qed.

(** C6 (amended). Merging an index into itself leaves it unchanged when its
    entries are records with metadata, each listed under its own chart name
    and with a non-empty version string that parses as a version
    constraint. Merging [B] into [A] twice yields what merging once yields,
    and both merges return, when the entries of both are records with
    metadata, the entries mapping of [A] is not nil, and the version string
    of every entry of [B] is non-empty and parses as a version constraint. *)
Theorem IndexFile_Merge_idempotent
    (A B : repo.IndexFile) (keys keys1 keys2 : list string) :
  (repo.readable A → repo.keyed_by_name A → repo.requestable A →
   repo.IndexFile_Merge_self keys A = Ok A)
  ∧ (repo.readable A → is_Some (repo.Entries A) →
     repo.readable B → repo.requestable B →
     range_order (repo.entries B) keys1 → range_order (repo.entries B) keys2 →
     ∃ A1, repo.IndexFile_Merge keys1 A B = Ok A1 ∧
           repo.IndexFile_Merge keys2 A1 B = Ok A1).
Proof.
  split.
  - intros Hread Hkeyed Hreq. apply Merge_self_listed.
    intros k c Hc. apply Forall_forall. intros ver Hver.
    pose proof (proj1 (Forall_forall _ _) (Hread k c Hc) ver Hver) as [md Hmd].
    split; [by eexists|]. intros md' Hmd'. assert (md' = md) as -> by congruence.
    rewrite (proj1 (Forall_forall _ _) (Hkeyed k c Hc) ver Hver md Hmd).
    destruct (proj1 (Forall_forall _ _) (Hreq k c Hc) ver Hver md Hmd) as [Hv Hcs].
    destruct (ChartVersions_Get_member c ver md k (Hread k c Hc) Hver Hmd Hv Hcs)
      as [y Hy].
    rewrite (IndexFile_Has_lookup A k _ c Hc); [by rewrite Hy|].
    intros ->. by apply elem_of_nil in Hver.
  - intros HA Hinit HB Hreq Hkeys1 Hkeys2. unfold repo.IndexFile_Merge.
    assert (map_Forall (λ _ c,
      Forall (λ ver, ∃ md, repo.metadata_of ver = Some md ∧ chart.Version md ≠ "" ∧
                           is_Some (semver.NewConstraint (chart.Version md))) c)
      (repo.entries B)) as Hgood.
    { intros k c Hc. apply Forall_forall. intros ver Hver.
      pose proof (proj1 (Forall_forall _ _) (HB k c Hc) ver Hver) as [md Hmd].
      destruct (proj1 (Forall_forall _ _) (Hreq k c Hc) ver Hver md Hmd) as [Hv Hcs].
      by exists md. }
    destruct (Merge_range_steps keys1 (repo.entries B) A HA Hinit Hgood)
      as (A1 & Hmerge & _ & _ & Hlisted & _).
    exists A1. split; [done|]. apply Merge_range_listed.
    intros k c Hk Hc. apply Forall_forall. intros ver Hver. split.
    + by apply (proj1 (Forall_forall _ _) (HB k c Hc) ver Hver).
    + apply (proj1 (Forall_forall _ _) (Hlisted k c (range_order_elem _ _ k c Hkeys1 Hc) Hc)
               ver Hver).
Qed.

End Merge.

Section Merge_evaluations.
Local Existing Instance semver_ref.lib.

Lemma IndexFile_Merge_idempotent_witness :
  let e1 := Some (samples.entry "c" "1.0.0" "d0") in
  let e2 := Some (samples.entry "c" "2.0.0" "d1") in
  let e2' := Some (samples.entry "c" "2.0.0" "d2") in
  let e3 := Some (samples.entry "c" "3.0.0" "d3") in
  let A := samples.index "v1" [("c", [e1; e2])] in
  let B := samples.index "v1" [("c", [e2'; e3])] in
  repo.IndexFile_Merge_self ["c"] A = Ok A
  ∧ ∃ A1, repo.IndexFile_Merge ["c"] A B = Ok A1 ∧ repo.IndexFile_Merge ["c"] A1 B = Ok A1.
Proof.
  intros e1 e2 e2' e3 A B.
  destruct (IndexFile_Merge_idempotent A B ["c"] ["c"] ["c"]) as [Hself Htwice].
  split.
  - apply Hself.
    + apply map_Forall_insert_2; [|apply map_Forall_empty].
      each_entry ltac:(by eexists).
    + apply map_Forall_insert_2; [|apply map_Forall_empty].
      each_entry ltac:(by intros md [= <-]).
    + apply map_Forall_insert_2; [|apply map_Forall_empty].
      each_entry ltac:(intros md [= <-]; split; [done|by eexists]).
  - apply Htwice.
    + apply map_Forall_insert_2; [|apply map_Forall_empty].
      each_entry ltac:(by eexists).
    + by eexists.
    + apply map_Forall_insert_2; [|apply map_Forall_empty].
      each_entry ltac:(by eexists).
    + apply map_Forall_insert_2; [|apply map_Forall_empty].
      each_entry ltac:(intros md [= <-]; split; [done|by eexists]).
    + unfold range_order. vm_compute. reflexivity.
    + unfold range_order. vm_compute. reflexivity.
Defined.

(** An entry whose version string is ["latest"]: [Has] does not find it,
    because the string is not a constraint, and every merge appends it
    again. *)
Lemma IndexFile_Merge_idempotent_counterexample :
  let e := Some (samples.entry "c" "latest" "d0") in
  let A := samples.index "v1" [("c", [e])] in
  let A0 := samples.index "v1" [] in
  repo.IndexFile_Merge_self ["c"] A = Ok (samples.index "v1" [("c", [e; e])])
  ∧ repo.entries (samples.index "v1" [("c", [e; e])]) ≠ repo.entries A
  ∧ repo.IndexFile_Merge ["c"] A0 A = Ok A
  ∧ repo.IndexFile_Merge ["c"] A A = Ok (samples.index "v1" [("c", [e; e])]).
Proof.
  repeat split; try (vm_compute; reflexivity).
  intros Heq. apply (f_equal (λ m, m !! "c")) in Heq. vm_compute in Heq. discriminate.
Qed.

End Merge_evaluations.

(** ** Sorting: [SortEntries] *)

Section insertion.
Context {A : Type} (moves : A → A → bool).

Lemma insert_left_perm (x : A) (rp : list A) :
  sort.insert_left moves x rp ≡ₚ x :: rp.
Proof.
  induction rp as [|y rp IH]; simpl; [done|].
  destruct (moves y x); [|done]. rewrite IH. apply perm_swap.
Qed.

Lemma insert_all_perm (rp l : list A) :
  sort.insert_all moves rp l ≡ₚ rp ++ l.
Proof.
  revert rp. induction l as [|x l IH]; intros rp; simpl.
  - by rewrite app_nil_r.
  - unfold sort.insert_all in *. rewrite IH, insert_left_perm. simpl.
    apply Permutation_middle.
Qed.

Lemma insertion_perm (l : list A) : sort.insertion moves l ≡ₚ l.
Proof. unfold sort.insertion. by rewrite reverse_Permutation, insert_all_perm. Qed.

Lemma insert_all_snoc (rp l : list A) (x : A) :
  sort.insert_all moves rp (l ++ [x])
  = sort.insert_left moves x (sort.insert_all moves rp l).
Proof. unfold sort.insert_all. by rewrite foldl_snoc. Qed.

End insertion.

Section insertion_order.
Context {A : Type} (moves : A → A → bool) (P : A → Prop).
Context (asym : ∀ a b, P a → P b → moves a b = true → moves b a = false).
Context (incomparable : ∀ a b c, P a → P b → P c →
           moves a b = false → moves b c = false → moves a c = false).

Lemma insert_left_sorted (x : A) (rp : list A) :
  P x → Forall P rp →
  StronglySorted (λ a b, moves b a = false) rp →
  StronglySorted (λ a b, moves b a = false) (sort.insert_left moves x rp).
Proof.
  intros Hx. induction rp as [|y rp IH]; simpl; intros Hrp Hs.
  { repeat constructor. }
  apply Forall_cons in Hrp as [Hy Hrp].
  apply StronglySorted_cons in Hs as [Hyrp Hs].
  destruct (moves y x) eqn:Hyx.
  - apply StronglySorted_cons. split; [|by apply IH].
    rewrite insert_left_perm. constructor; [by apply asym|done].
  - apply StronglySorted_cons. split; [|by apply StronglySorted_cons].
    constructor; [done|].
    apply Forall_forall. intros z Hz.
    apply (incomparable z y x); auto.
    + by apply (proj1 (Forall_forall _ _) Hrp).
    + by apply (proj1 (Forall_forall _ _) Hyrp).
Qed.

Lemma insert_all_sorted (l : list A) :
  Forall P l →
  StronglySorted (λ a b, moves b a = false) (sort.insert_all moves [] l).
Proof.
  induction l as [|x l IH] using rev_ind; intros Hl; [constructor|].
  apply Forall_app in Hl as [Hl [Hx _]%Forall_cons].
  rewrite insert_all_snoc. apply insert_left_sorted; auto.
  by rewrite insert_all_perm.
Qed.

Lemma StronglySorted_reverse (R : relation A) (l : list A) :
  StronglySorted R l → StronglySorted (flip R) (reverse l).
Proof.
  induction 1 as [|x l Hs IH Hx]; [constructor|].
  rewrite reverse_cons. apply StronglySorted_app_2; [|done|repeat constructor].
  intros x1 x2 Hx1 ->%list_elem_of_singleton. unfold flip.
  rewrite elem_of_reverse in Hx1. rewrite Forall_forall in Hx. by apply Hx.
Qed.

(** The result is non-increasing. *)
Lemma insertion_sorted (l : list A) :
  Forall P l →
  StronglySorted (λ a b, moves a b = false) (sort.insertion moves l).
Proof.
  intros Hl. apply (StronglySorted_reverse (λ a b, moves b a = false)).
  by apply insert_all_sorted.
Qed.

Lemma insert_left_filter (v x : A) (rp : list A) :
  P v → P x → Forall P rp →
  filter (λ e, negb (moves v e) && negb (moves e v)) (sort.insert_left moves x rp)
  = filter (λ e, negb (moves v e) && negb (moves e v)) (x :: rp).
Proof.
  intros Hv Hx. induction rp as [|y rp IH]; simpl; intros Hrp; [done|].
  apply Forall_cons in Hrp as [Hy Hrp].
  destruct (moves y x) eqn:Hyx; [|done].
  rewrite filter_cons, (IH Hrp), !filter_cons.
  repeat case_decide; try done.
  exfalso.
  repeat match goal with H : Is_true (_ && _) |- _ => apply andb_True in H as [??] end.
  repeat match goal with H : Is_true (negb _) |- _ =>
    apply negb_True, Is_true_false_1 in H end.
  by rewrite (incomparable y v x) in Hyx.
Qed.

Lemma insert_all_filter (v : A) (l : list A) :
  P v → Forall P l →
  filter (λ e, negb (moves v e) && negb (moves e v)) (sort.insert_all moves [] l)
  = reverse (filter (λ e, negb (moves v e) && negb (moves e v)) l).
Proof.
  intros Hv. induction l as [|x l IH] using rev_ind; intros Hl; [done|].
  apply Forall_app in Hl as [Hl [Hx _]%Forall_cons].
  rewrite insert_all_snoc, insert_left_filter; auto.
  - rewrite filter_cons, (IH Hl), filter_app, reverse_app.
    rewrite filter_cons, filter_nil. by case_decide.
  - by rewrite insert_all_perm.
Qed.

(** The entries of one precedence keep their order. *)
Lemma insertion_filter (v : A) (l : list A) :
  P v → Forall P l →
  filter (λ e, negb (moves v e) && negb (moves e v)) (sort.insertion moves l)
  = filter (λ e, negb (moves v e) && negb (moves e v)) l.
Proof.
  intros Hv Hl. unfold sort.insertion.
  by rewrite filter_reverse, insert_all_filter, reverse_involutive.
Qed.

End insertion_order.

Section insertion_refinement.
Context `{!semver.Lib} `{!sort.Pdqsort}.

Lemma ver_Version_readable (ver : option repo.ChartVersion) md :
  repo.metadata_of ver = Some md → repo.ver_Version ver = Ok (chart.Version md).
Proof.
  destruct ver as [cv|]; [|done]. unfold repo.ver_Version. simpl. by intros ->.
Qed.

Lemma index_middle {A} (l1 l2 : list A) (x : A) :
  index (l1 ++ x :: l2) (length l1) = Ok x.
Proof. unfold index. by rewrite list_lookup_middle. Qed.

(** [Less(k, k + 1)] on two neighbours that carry metadata. *)
Lemma ChartVersions_Less_neighbours (l1 l2 : list (option repo.ChartVersion)) (y x : option repo.ChartVersion) :
  is_Some (repo.metadata_of y) → is_Some (repo.metadata_of x) →
  repo.ChartVersions_Less (l1 ++ y :: x :: l2) (length l1) (S (length l1))
  = Ok (repo.Less_entries y x).
Proof.
  intros [my Hy] [mx Hx]. unfold repo.ChartVersions_Less, repo.Less_entries, repo.version_of.
  rewrite index_middle. simpl. rewrite (ver_Version_readable y my Hy), Hy. simpl.
  destruct (semver.NewVersion (chart.Version my)); [|done].
  replace (l1 ++ y :: x :: l2) with ((l1 ++ [y]) ++ x :: l2) by by rewrite <- (assoc_L (++)).
  replace (S (length l1)) with (length (l1 ++ [y])) by (rewrite length_app; simpl; lia).
  rewrite index_middle. simpl. rewrite (ver_Version_readable x mx Hx), Hx. simpl.
  by destruct (semver.NewVersion (chart.Version mx)).
Qed.

Lemma ChartVersions_Swap_neighbours (l1 l2 : list (option repo.ChartVersion)) (y x : option repo.ChartVersion) :
  repo.ChartVersions_Swap (l1 ++ y :: x :: l2) (S (length l1)) (length l1)
  = Ok (l1 ++ x :: y :: l2).
Proof.
  unfold repo.ChartVersions_Swap.
  replace (l1 ++ y :: x :: l2) with ((l1 ++ [y]) ++ x :: l2) at 1 by by rewrite <- (assoc_L (++)).
  replace (S (length l1)) with (length (l1 ++ [y])) at 1 by (rewrite length_app; simpl; lia).
  rewrite !index_middle. simpl. f_equal.
  rewrite !insert_app_r_alt by lia.
  replace (length l1 - length l1) with 0 by lia.
  by replace (S (length l1) - length l1) with 1 by lia.
Qed.

(** The inner loop moves the element at [length l1] to its place in the
    sorted prefix [l1]. *)
Lemma insertionSort_inner_insert (l1 l2 : list (option repo.ChartVersion)) (x : option repo.ChartVersion) :
  Forall (λ ver, is_Some (repo.metadata_of ver)) l1 → is_Some (repo.metadata_of x) →
  sort.insertionSort_inner (sort.Reverse repo.ChartVersions_Interface) 0 (length l1)
    (l1 ++ x :: l2)
  = Ok (reverse (sort.insert_left repo.Less_entries x (reverse l1)) ++ l2).
Proof.
  intros Hl1 Hx. revert l2.
  induction l1 as [|y l1 IH] using rev_ind; intros l2; [done|].
  apply Forall_app in Hl1 as [Hl1 [Hy _]%Forall_cons].
  rewrite length_app, reverse_snoc. simpl. rewrite Nat.add_1_r. simpl.
  rewrite <- (assoc_L (++)). simpl.
  rewrite (ChartVersions_Less_neighbours l1 l2 y x Hy Hx). simpl.
  destruct (repo.Less_entries y x).
  - rewrite ChartVersions_Swap_neighbours. simpl.
    rewrite (IH Hl1). by rewrite reverse_cons, <- (assoc_L (++)).
  - by rewrite !reverse_cons, reverse_involutive, <- !(assoc_L (++)).
Qed.


(** The outer loop inserts the elements of [q] one after the other. *)
Lemma insertionSort_outer_insert_all (p q : list (option repo.ChartVersion)) :
  Forall (λ ver, is_Some (repo.metadata_of ver)) p → Forall (λ ver, is_Some (repo.metadata_of ver)) q →
  sort.insertionSort_outer (sort.Reverse repo.ChartVersions_Interface) 0
    (length p) (length q) (p ++ q)
  = Ok (reverse (sort.insert_all repo.Less_entries (reverse p) q)).
Proof.
  intros Hp Hq. revert p Hp.
  induction Hq as [|x q Hx Hq IH]; intros p Hp; simpl.
  { by rewrite reverse_involutive, app_nil_r. }
  rewrite Nat.sub_0_r, (insertionSort_inner_insert p q x Hp Hx). simpl.
  set (p' := reverse (sort.insert_left repo.Less_entries x (reverse p))).
  assert (p' ≡ₚ x :: p) as Hperm.
  { unfold p'. by rewrite reverse_Permutation, insert_left_perm, reverse_Permutation. }
  replace (S (length p)) with (length p') by by rewrite Hperm.
  rewrite IH; [|by rewrite Hperm; constructor].
  unfold p'. by rewrite reverse_involutive.
Qed.

(** [sort.Sort(sort.Reverse(versions))] on at most [maxInsertion] entries
    that carry metadata is the insertion sort. *)
Lemma Sort_Reverse_insertion (c : list (option repo.ChartVersion)) :
  Forall (λ ver, is_Some (repo.metadata_of ver)) c → length c ≤ sort.maxInsertion →
  sort.Sort (sort.Reverse repo.ChartVersions_Interface) c
  = Ok (sort.insertion repo.Less_entries c).
Proof.
  intros Hc Hlen. unfold sort.Sort, sort.pdqsort. simpl sort.Len.
  unfold repo.ChartVersions_Len.
  destruct c as [|x [|y c]]; [done..|].
  change (length (x :: y :: c) <=? 1) with false. cbv iota zeta.
  rewrite Nat.sub_0_r, (proj2 (Nat.leb_le _ _) Hlen).
  apply Forall_cons in Hc as [Hx Hc].
  exact (insertionSort_outer_insert_all [x] (y :: c) ltac:(by repeat constructor) Hc).
Qed.

End insertion_refinement.

Section sorted_entries.
Context `{!semver.Lib}.

Lemma Less_entries_unparsed_l (y x : option repo.ChartVersion) :
  ¬ repo.parses y → repo.Less_entries y x = true.
Proof.
  unfold repo.parses, repo.Less_entries. by destruct (repo.version_of y).
Qed.

Lemma Less_entries_unparsed_r (y x : option repo.ChartVersion) :
  repo.parses y → ¬ repo.parses x → repo.Less_entries y x = false.
Proof.
  unfold repo.parses, repo.Less_entries.
  destruct (repo.version_of y); [|done]. by destruct (repo.version_of x).
Qed.

Lemma tie_parses (v e : option repo.ChartVersion) : repo.tie v e → repo.parses v ∧ repo.parses e.
Proof.
  unfold repo.tie, repo.parses, repo.Less_entries.
  by destruct (repo.version_of v), (repo.version_of e).
Qed.

(** An entry that does not parse goes behind the entries that parse and in
    front of the entries that do not; an entry that parses is inserted
    among those that parse. [U ++ S] is the sorted prefix from its end. *)
Lemma insert_left_split (x : option repo.ChartVersion) (U S : list (option repo.ChartVersion)) :
  Forall (λ e, ¬ repo.parses e) U → Forall (λ e, repo.parses e) S →
  sort.insert_left repo.Less_entries x (U ++ S)
  = if repo.parses x then U ++ sort.insert_left repo.Less_entries x S
    else (U ++ [x]) ++ S.
Proof.
  intros HU HS. induction HU as [|y U Hy HU IH]; simpl.
  - destruct (repo.parses x) eqn:Hx; [done|].
    destruct HS as [|y S Hy HS]; [done|]. simpl.
    rewrite Less_entries_unparsed_r; [done|done|by apply Is_true_false].
  - rewrite (Less_entries_unparsed_l y x Hy), IH.
    by destruct (repo.parses x).
Qed.

Lemma insert_all_split (c : list (option repo.ChartVersion)) :
  sort.insert_all repo.Less_entries [] c
  = filter (λ e, ¬ repo.parses e) c
    ++ sort.insert_all repo.Less_entries [] (filter (λ e, repo.parses e) c).
Proof.
  induction c as [|x c IH] using rev_ind; [done|].
  rewrite insert_all_snoc, IH, !filter_app, !filter_cons, !filter_nil.
  rewrite insert_left_split.
  - destruct (repo.parses x) eqn:Hx.
    + rewrite decide_False by (by intros []).
      rewrite decide_True by done.
      by rewrite app_nil_r, insert_all_snoc.
    + rewrite decide_True by (by intros []).
      rewrite decide_False by (by intros []).
      by rewrite app_nil_r.
  - apply Forall_forall. by intros e [? _]%list_elem_of_filter.
  - rewrite insert_all_perm. simpl. apply Forall_forall.
    by intros e [? _]%list_elem_of_filter.
Qed.

Lemma insertion_split (c : list (option repo.ChartVersion)) :
  sort.insertion repo.Less_entries c
  = sort.insertion repo.Less_entries (filter (λ e, repo.parses e) c)
    ++ reverse (filter (λ e, ¬ repo.parses e) c).
Proof. unfold sort.insertion. by rewrite insert_all_split, reverse_app. Qed.

Lemma filter_tie_parses (v : option repo.ChartVersion) (c : list (option repo.ChartVersion)) :
  filter (λ e, repo.tie v e) (filter (λ e, repo.parses e) c)
  = filter (λ e, repo.tie v e) c.
Proof.
  induction c as [|x c IH]; [done|]. rewrite !filter_cons.
  destruct (decide (repo.tie v x)) as [Ht|Ht].
  - destruct (tie_parses v x Ht) as [_ Hx].
    rewrite decide_True by done. rewrite filter_cons, decide_True by done. by rewrite IH.
  - case_decide; [|done]. by rewrite filter_cons, decide_False.
Qed.

Lemma filter_tie_unparsed (v : option repo.ChartVersion) (c : list (option repo.ChartVersion)) :
  ¬ repo.parses v → filter (λ e, repo.tie v e) c = [].
Proof.
  intros Hv. induction c as [|x c IH]; [done|].
  rewrite filter_cons, IH, decide_False; [done|].
  intros [? _]%tie_parses. done.
Qed.

Context `{!semver.Order}.

Lemma Less_entries_asym (a b : option repo.ChartVersion) :
  repo.parses a → repo.parses b →
  repo.Less_entries a b = true → repo.Less_entries b a = false.
Proof.
  unfold repo.parses, repo.Less_entries.
  destruct (repo.version_of a), (repo.version_of b); try done.
  intros _ _. apply semver.LessThan_asym.
Qed.

Lemma Less_entries_incomparable (a b c : option repo.ChartVersion) :
  repo.parses a → repo.parses b → repo.parses c →
  repo.Less_entries a b = false → repo.Less_entries b c = false →
  repo.Less_entries a c = false.
Proof.
  unfold repo.parses, repo.Less_entries.
  destruct (repo.version_of a), (repo.version_of b), (repo.version_of c); try done.
  intros _ _ _. apply semver.LessThan_incomparable.
Qed.

(** The list that the insertion sort returns: the entries that parse, in
    non-increasing order and with the ties in their original order, and
    then the entries that do not parse, in the reverse of their original
    order. *)
Lemma insertion_entries (c : list (option repo.ChartVersion)) :
  ∃ sorted,
    sort.insertion repo.Less_entries c
      = sorted ++ reverse (filter (λ e, ¬ repo.parses e) c) ∧
    sorted ≡ₚ filter (λ e, repo.parses e) c ∧
    StronglySorted (λ a b, repo.Less_entries a b = false) sorted ∧
    ∀ v, filter (λ e, repo.tie v e) sorted = filter (λ e, repo.tie v e) c.
Proof.
  exists (sort.insertion repo.Less_entries (filter (λ e, repo.parses e) c)).
  assert (Forall (λ e, repo.parses e) (filter (λ e, repo.parses e) c)) as Hparsed.
  { apply Forall_forall. by intros e [? _]%list_elem_of_filter. }
  split; [apply insertion_split|]. split; [apply insertion_perm|]. split.
  - exact (insertion_sorted repo.Less_entries (λ e, repo.parses e)
             Less_entries_asym Less_entries_incomparable _ Hparsed).
  - intros v. destruct (decide (repo.parses v)) as [Hv|Hv].
    + rewrite <- (filter_tie_parses v c).
      exact (insertion_filter repo.Less_entries (λ e, repo.parses e)
               Less_entries_incomparable v _ Hv Hparsed).
    + by rewrite !filter_tie_unparsed.
Qed.

End sorted_entries.

Section SortEntries.
Context `{!semver.Lib} `{!sort.Pdqsort}.

Lemma SortEntries_range_insertion (keys : list string)
    (m : gmap string (list (option repo.ChartVersion))) :
  NoDup keys →
  map_Forall (λ _ c, Forall (λ ver, is_Some (repo.metadata_of ver)) c
                     ∧ length c ≤ sort.maxInsertion) m →
  ∃ m', repo.SortEntries_range keys m = Ok m' ∧
        dom m' = dom m ∧
        ∀ k c, m !! k = Some c →
               m' !! k = Some (if decide (k ∈ keys)
                               then sort.insertion repo.Less_entries c else c).
Proof.
  intros Hkeys. revert m.
  induction Hkeys as [|k keys Hk Hkeys IH]; intros m Hm; simpl.
  { exists m. split; [done|]. split; [done|].
    by intros k c ->. }
  destruct (m !! k) as [c|] eqn:Hc.
  - destruct (Hm k c Hc) as [Hread Hlen].
    rewrite (Sort_Reverse_insertion c Hread Hlen). simpl.
    set (sorted := sort.insertion repo.Less_entries c).
    assert (sorted ≡ₚ c) as Hperm by apply insertion_perm.
    destruct (IH (<[k := sorted]> m)) as (m' & Hm' & Hdom & Hlookup).
    { apply map_Forall_insert_2; [by rewrite Hperm|done]. }
    exists m'. split; [done|]. split.
    { rewrite Hdom. apply dom_insert_lookup_L. by eexists. }
    intros k0 c0 Hc0. destruct (decide (k0 = k)) as [->|Hne].
    + assert (c0 = c) as -> by congruence.
      rewrite (Hlookup k sorted) by apply lookup_insert_eq.
      rewrite decide_False by done. by rewrite decide_True by (by left).
    + rewrite (Hlookup k0 c0) by (by rewrite lookup_insert_ne).
      f_equal. destruct (decide (k0 ∈ keys)) as [Hin|Hin].
      * by rewrite decide_True by (by right).
      * rewrite decide_False; [done|]. by intros [?|?]%elem_of_cons.
  - destruct (IH m Hm) as (m' & Hm' & Hdom & Hlookup).
    exists m'. split; [done|]. split; [done|].
    intros k0 c0 Hc0. rewrite (Hlookup k0 c0 Hc0). f_equal.
    destruct (decide (k0 ∈ keys)) as [Hin|Hin].
    + by rewrite decide_True by (by right).
    + rewrite decide_False; [done|]. intros [->|?]%elem_of_cons; [congruence|done].
Qed.

Context `{!semver.Order}.


End SortEntries.

Section semver_ref_order.

Lemma lex_ltb_asym (k1 k2 : list N) :
  semver_ref.lex_ltb k1 k2 = true → semver_ref.lex_ltb k2 k1 = false.
Proof.
  revert k2. induction k1 as [|a k1 IH]; intros [|b k2]; simpl; try done.
  destruct (N.ltb_spec a b), (N.ltb_spec b a), (N.eqb_spec a b), (N.eqb_spec b a);
    simpl; try done; try lia.
  apply IH.
Qed.

Lemma lex_ltb_incomparable (k1 k2 k3 : list N) :
  semver_ref.lex_ltb k1 k2 = false → semver_ref.lex_ltb k2 k3 = false →
  semver_ref.lex_ltb k1 k3 = false.
Proof.
  revert k2 k3. induction k1 as [|a k1 IH]; intros [|b k2] [|c k3]; simpl; try done.
  destruct (N.ltb_spec a b), (N.ltb_spec b c), (N.ltb_spec a c),
    (N.eqb_spec a b), (N.eqb_spec b c), (N.eqb_spec a c);
    simpl; try done; try lia.
  apply IH.
Qed.

Lemma semver_ref_order : @semver.Order semver_ref.lib.
Proof.
  split; simpl; unfold semver_ref.LessThan.
  - intros a b. apply lex_ltb_asym.
  - intros a b c. apply lex_ltb_incomparable.
Qed.

End semver_ref_order.

Section SortEntries_evaluations.
Local Existing Instance semver_ref.lib.
Local Existing Instance sort_ref.small_only.



End SortEntries_evaluations.

(** ** Loading an index: [loadIndex] *)

Section loadIndex.
Context `{!semver.Lib} `{!sort.Pdqsort} `{!chart.Validator}
        `{!repo.Codec} `{!repo.RangeOrder}.

Lemma length_remove_at {A} (arr : list A) (n idx : nat) :
  idx < n ≤ length arr → length (repo.remove_at arr n idx) = length arr.
Proof.
  intros Hn. unfold repo.remove_at.
  rewrite !length_app, !length_take, !length_drop. lia.
Qed.

(** The cleanup loop of [loadIndex] never changes the length of the array
    behind the slice that the map holds: it drops nothing from the map. *)
Lemma loadIndex_chart_length (name source : string) (k : nat)
    (arr : repo.ChartVersions) (n : nat) (lg : list repo.log_record)
    (r : repo.ChartVersions * nat * list repo.log_record) :
  k ≤ n ≤ length arr →
  repo.loadIndex_chart name source k arr n lg = Ok r →
  length r.1.1 = length arr.
Proof.
  revert arr n lg. induction k as [|idx IH]; intros arr n lg Hn; simpl.
  { by intros [= <-]. }
  assert ((idx <? n) = true) as -> by (apply Nat.ltb_lt; lia).
  destruct (index arr idx) as [[cv|]|]; simpl; [| |done].
  - destruct (repo.ignoreSkippableChartValidationError _); intros Hr.
    + apply IH in Hr.
      * rewrite Hr, length_remove_at; rewrite length_insert; [done|lia].
      * rewrite length_remove_at; rewrite length_insert; lia.
    + apply IH in Hr; rewrite ?Hr, length_insert; [done|lia].
  - intros Hr. apply IH in Hr; [done|lia].
Qed.

Lemma IndexFile_SortEntries_APIVersion (keys : list string) (i i' : repo.IndexFile) :
  repo.IndexFile_SortEntries keys i = Ok i' → repo.APIVersion i' = repo.APIVersion i.
Proof.
  unfold repo.IndexFile_SortEntries. destruct (repo.Entries i); [|by intros [= <-]].
  destruct (repo.SortEntries_range keys _); simpl; [|done]. by intros [= <-].
Qed.

(** Without a top-level API version, [loadIndex] returns what the cleanup
    and [SortEntries] have made of the decoded index, together with
    [ErrNoAPIVersion], whenever it returns. *)
Lemma loadIndex_missing_APIVersion (data source : string) (i : repo.IndexFile)
    (r : option repo.IndexFile * option error * list repo.log_record) :
  data ≠ "" →
  repo.jsonOrYamlUnmarshal data repo.zero = (i, None) →
  repo.APIVersion i = "" →
  repo.loadIndex data source = Ok r →
  ∃ cleaned sorted,
    repo.APIVersion cleaned = "" ∧
    repo.IndexFile_SortEntries (repo.range_keys (repo.entries cleaned)) cleaned
      = Ok sorted ∧
    r = (Some sorted, Some repo.ErrNoAPIVersion, r.2).
Proof.
  intros Hdata Hdecode Hversion. unfold repo.loadIndex.
  destruct data as [|a data]; [done|].
  change (String.length (String a data) =? 0) with false. cbv iota.
  rewrite Hdecode.
  set (cleanup := match repo.Entries i with None => _ | Some m => _ end).
  assert (∀ c, cleanup = Ok c → repo.APIVersion c.1 = "") as Hcleanup.
  { unfold cleanup. destruct (repo.Entries i) as [m|]; [|by intros c [= <-]].
    destruct (repo.loadIndex_range _ _ _ _); simpl; [|done]. by intros c [= <-]. }
  destruct cleanup as [[cleaned lg]|]; simpl; [|done].
  specialize (Hcleanup _ eq_refl). simpl in Hcleanup.
  destruct (repo.IndexFile_SortEntries _ cleaned) as [sorted|] eqn:Hsort; simpl; [|done].
  rewrite (IndexFile_SortEntries_APIVersion _ _ _ Hsort), Hcleanup. simpl.
  intros [= <-]. by exists cleaned, sorted.
Qed.

End loadIndex.

Section loadIndex_returns.
Context `{!semver.Lib} `{!sort.Pdqsort} `{!chart.Validator}
        `{!repo.Codec} `{!repo.RangeOrder}.

Lemma remove_at_middle {A} (l1 l2 : list A) (x : A) (n : nat) :
  length l1 < n →
  repo.remove_at (l1 ++ x :: l2) n (length l1)
  = l1 ++ take (n - (length l1 + 1)) l2 ++ drop (n - 1 - length l1) (x :: l2).
Proof.
  intros Hn. unfold repo.remove_at.
  rewrite take_app_length. f_equal.
  rewrite (drop_app_ge l1 (x :: l2) (n - 1)) by lia. f_equal.
  rewrite (cons_middle x l1 l2), (assoc_L (++)).
  by rewrite drop_app_length' by (rewrite length_app; simpl; lia).
Qed.

(** On an array without nil entries the cleanup loop returns, and every
    entry of the array then carries metadata. [todo] are the entries that
    the loop has yet to visit. *)
Lemma loadIndex_chart_returns (name source : string)
    (todo visited : list (option repo.ChartVersion)) (n : nat)
    (lg : list repo.log_record) :
  length todo ≤ n ≤ length (todo ++ visited) →
  Forall (λ ver, is_Some ver) todo →
  Forall (λ ver, is_Some (repo.metadata_of ver)) visited →
  ∃ r, repo.loadIndex_chart name source (length todo) (todo ++ visited) n lg = Ok r ∧
       length r.1.1 = length (todo ++ visited) ∧
       Forall (λ ver, is_Some (repo.metadata_of ver)) r.1.1.
Proof.
  revert visited n lg.
  induction todo as [|e todo IH] using rev_ind; intros visited n lg Hn Htodo Hvisited.
  { by eexists. }
  apply Forall_app in Htodo as [Htodo [[cv ->] _]%Forall_cons].
  rewrite length_app in *. simpl in *. rewrite Nat.add_1_r. simpl.
  assert ((length todo <? n) = true) as -> by (apply Nat.ltb_lt; lia).
  rewrite <- (assoc_L (++)). simpl. rewrite index_middle. simpl.
  set (md := if (chart.APIVersion (default chart.zero (repo.Metadata cv)) =? "")%string
             then _ else _).
  set (x := Some (repo.with_Metadata (Some md) cv)).
  replace (<[length todo := x]> (todo ++ Some cv :: visited))
    with (todo ++ x :: visited)
    by (by rewrite insert_app_r_alt, Nat.sub_diag by lia).
  assert (Forall (λ ver, is_Some (repo.metadata_of ver)) (x :: visited)) as Hx
    by (constructor; [by eexists|done]).
  destruct (repo.ignoreSkippableChartValidationError _).
  - rewrite remove_at_middle by lia.
    destruct (IH (take (n - (length todo + 1)) visited
                  ++ drop (n - 1 - length todo) (x :: visited)) (n - 1)
                 (lg ++ [repo.skip_invalid_entry name (chart.Version md) source
                           (chart.Validate md)]))
      as (r & -> & Hlen & Hr); [|done| |].
    + rewrite !length_app, length_take, length_drop in *. simpl in *. lia.
    + apply Forall_app. split; [by apply Forall_take|by apply Forall_drop].
    + exists r. split; [done|]. split; [|done].
      rewrite Hlen, !length_app, length_take, length_drop in *. simpl in *. lia.
  - destruct (IH (x :: visited) n lg) as (r & -> & Hlen & Hr); [|done|done|].
    + rewrite !length_app in *. simpl in *. lia.
    + exists r. split; [done|]. split; [|done].
      rewrite Hlen, !length_app. simpl. lia.
Qed.


Lemma readable_is_Some (c : list (option repo.ChartVersion)) :
  Forall (λ ver, is_Some (repo.metadata_of ver)) c → Forall (λ ver, is_Some ver) c.
Proof. intros Hc. eapply Forall_impl; [exact Hc|]. by intros [cv|] [md Hmd]. Qed.

(** On a map without nil entries the cleanup returns; every list keeps its
    length, and the entries of every list that was visited carry
    metadata. *)
Lemma loadIndex_range_returns (source : string) (keys : list string)
    (m : gmap string (list (option repo.ChartVersion))) (lg : list repo.log_record) :
  map_Forall (λ _ c, Forall (λ ver, is_Some ver) c) m →
  ∃ r, repo.loadIndex_range source keys m lg = Ok r ∧
       dom r.1 = dom m ∧
       ∀ k c, m !! k = Some c →
         ∃ c', r.1 !! k = Some c' ∧ length c' = length c ∧
               Forall (λ ver, is_Some ver) c' ∧
               (k ∈ keys ∨ Forall (λ ver, is_Some (repo.metadata_of ver)) c →
                Forall (λ ver, is_Some (repo.metadata_of ver)) c').
Proof.
  revert m lg. induction keys as [|name keys IH]; intros m lg Hm; simpl.
  { eexists. split; [done|]. split; [done|]. intros k c Hc. exists c. repeat split; auto.
    - by apply (Hm k).
    - by intros [?%elem_of_nil|?]. }
  destruct (m !! name) as [cvs|] eqn:Hcvs.
  - destruct (loadIndex_chart_returns name source cvs [] (length cvs) lg)
      as (r1 & Hr1 & Hlen1 & Hread1).
    { rewrite app_nil_r. lia. }
    { by apply (Hm name). }
    { constructor. }
    rewrite app_nil_r in Hr1, Hlen1. rewrite Hr1. simpl.
    destruct (IH (<[name := r1.1.1]> m) r1.2) as (r & Hr & Hdom & Hall).
    { apply map_Forall_insert_2; [by apply readable_is_Some|done]. }
    exists r. split; [done|]. split.
    { rewrite Hdom. apply dom_insert_lookup_L. by eexists. }
    intros k c Hc.
    destruct (decide (k = name)) as [->|Hne].
    + assert (c = cvs) as -> by congruence.
      destruct (Hall name r1.1.1) as (c' & Hc' & Hlen' & Hsome' & Hread');
        [apply lookup_insert_eq|].
      exists c'. repeat split; auto. congruence.
    + destruct (Hall k c) as (c' & Hc' & Hlen' & Hsome' & Hread');
        [by rewrite lookup_insert_ne|].
      exists c'. repeat split; auto.
      intros [[?|?]%elem_of_cons|?]; [done|auto..].
  - destruct (IH m lg Hm) as (r & Hr & Hdom & Hall). exists r. split; [done|].
    split; [done|]. intros k c Hc. destruct (Hall k c Hc) as (c' & Hc' & Hlen' & Hsome' & Hread').
    exists c'. repeat split; auto.
    intros [[->|?]%elem_of_cons|?]; [congruence|auto..].
Qed.

(** C5 on the documents that the defect does not touch: without nil
    entries, and with at most 12 entries in a list, [loadIndex] returns; and
    without a top-level API version it returns the cleaned and sorted index
    with [ErrNoAPIVersion]. *)
Lemma loadIndex_missing_APIVersion_returns (data source : string) (i : repo.IndexFile) :
  data ≠ "" →
  repo.jsonOrYamlUnmarshal data repo.zero = (i, None) →
  repo.APIVersion i = "" →
  map_Forall (λ _ c, Forall (λ ver, is_Some ver) c ∧ length c ≤ sort.maxInsertion)
    (repo.entries i) →
  ∃ sorted lg,
    repo.loadIndex data source = Ok (Some sorted, Some repo.ErrNoAPIVersion, lg).
Proof.
  intros Hdata Hdecode Hversion Hgood.
  assert (∃ r, repo.loadIndex data source = Ok r) as [r Hr].
  { unfold repo.loadIndex.
    destruct data as [|a data]; [done|].
    change (String.length (String a data) =? 0) with false. cbv iota.
    rewrite Hdecode. unfold repo.entries in Hgood.
    destruct (repo.Entries i) as [m|] eqn:Hm; simpl in *.
    - destruct (loadIndex_range_returns source (repo.range_keys m) m [])
        as ([m1 lg] & -> & Hdom & Hall).
      { intros k c Hc. by apply (Hgood k). }
      simpl in *. unfold repo.IndexFile_SortEntries. simpl.
      rewrite entries_with_Entries.
      destruct (SortEntries_range_insertion (repo.range_keys m1) m1) as (m2 & -> & _).
      + pose proof (repo.range_keys_order m1) as Hkeys. unfold range_order in Hkeys.
        rewrite Hkeys. apply NoDup_fst_map_to_list.
      + intros k c1 Hc1.
        assert (is_Some (m !! k)) as [c Hc].
        { apply elem_of_dom. rewrite <- Hdom. apply elem_of_dom. by eexists. }
        destruct (Hall k c Hc) as (c' & Hc' & Hlen' & _ & Hread').
        assert (c' = c1) as -> by congruence. split.
        * apply Hread'. left. eapply range_order_elem; [apply repo.range_keys_order|done].
        * rewrite Hlen'. by apply (Hgood k).
      + simpl. destruct (_ =? _)%string; eauto.
    - simpl. unfold repo.IndexFile_SortEntries. rewrite Hm. simpl.
      destruct (_ =? _)%string; eauto. }
  destruct (loadIndex_missing_APIVersion data source i r Hdata Hdecode Hversion Hr)
    as (cleaned & sorted & _ & _ & Heq).
  exists sorted, r.2. rewrite Hr. by f_equal.
Qed.

End loadIndex_returns.

Section loadIndex_evaluations.
Local Existing Instance semver_ref.lib.
Local Existing Instance sort_ref.small_only.
Local Existing Instance chart_ref.validator.
Local Existing Instance samples.documents.
Local Existing Instance repo_ref.range_order.

(** C4. What [loadIndex] does with entries that it logs as skipped: an
    invalid entry at the end of its list, and a null entry that is alone in
    its list, are still in the returned index; with a null entry and
    another entry in one list, [SortEntries] panics on the null entry. *)
Theorem loadIndex_skipped_entries_remain :
  repo.loadIndex samples.document_invalid_last "index.yaml"
    = Ok (Some (samples.index "v1" [("c", [samples.valid; samples.nameless])]), None,
          [repo.skip_invalid_entry "c" "0.1.0" "index.yaml"
             (Some (ValidationError "chart.metadata.name is required"))])
  ∧ repo.loadIndex samples.document_null "index.yaml"
    = Ok (Some (samples.index "v1" [("c", [None])]), None,
          [repo.skip_empty_entry "c" "index.yaml"])
  ∧ repo.loadIndex samples.document_null_and_invalid "index.yaml"
    = Panic nil_dereference.
Proof. repeat split; vm_compute; reflexivity. Qed.

(** C5. Without a top-level API version, [loadIndex] returns the sorted
    index with [ErrNoAPIVersion] for a document without null entries, and
    panics in [SortEntries] for a document with a null entry next to
    another entry. *)
Theorem loadIndex_missing_APIVersion_null_entry :
  repo.loadIndex samples.document_no_apiVersion "index.yaml"
    = Ok (Some (samples.index "" [("c", [samples.valid])]),
          Some repo.ErrNoAPIVersion, [])
  ∧ repo.jsonOrYamlUnmarshal samples.document_no_apiVersion_null repo.zero
    = (samples.index "" [("c", [samples.valid; None])], None)
  ∧ repo.loadIndex samples.document_no_apiVersion_null "index.yaml"
    = Panic nil_dereference.
Proof. repeat split; vm_compute; reflexivity. Qed.

End loadIndex_evaluations.

(** ** What [Get] returns *)

Section Get_results.
Context `{!semver.Lib}.

Lemma ver_Version_inv (ver : option repo.ChartVersion) (w : string) :
  repo.ver_Version ver = Ok w →
  ∃ cv md, ver = Some cv ∧ repo.Metadata cv = Some md ∧ chart.Version md = w.
Proof.
  destruct ver as [cv|]; [|done]. unfold repo.ver_Version. simpl.
  destruct (repo.Metadata cv) as [md|] eqn:Hmd; simpl; [|done].
  intros [= <-]. by exists cv, md.
Qed.

(** What the exact-match loop returns: the first entry with the requested
    raw version, after entries with other versions; or nothing, when no
    entry has it. *)
Lemma Get_exact_inv (c : repo.ChartVersions) (v : string) (r : option repo.ChartVersion) :
  repo.Get_exact c v = Ok r →
  match r with
  | Some cv =>
      ∃ before after md,
        c = before ++ Some cv :: after ∧ repo.Metadata cv = Some md ∧
        chart.Version md = v ∧
        Forall (λ e, ∃ w, repo.ver_Version e = Ok w ∧ w ≠ v) before
  | None => Forall (λ e, ∃ w, repo.ver_Version e = Ok w ∧ w ≠ v) c
  end.
Proof.
  revert r. induction c as [|e c IH]; intros r; simpl.
  - intros [= <-]. constructor.
  - destruct (repo.ver_Version e) as [w|] eqn:Hw; [|done]. simpl.
    destruct (String.eqb v w) eqn:Heq.
    + intros [= <-]. apply String.eqb_eq in Heq as <-.
      destruct (ver_Version_inv e v Hw) as (cv & md & -> & Hmd & Hv).
      exists [], c, md. by repeat split.
    + intros Hr. apply String.eqb_neq in Heq. specialize (IH r Hr).
      assert (∃ w', repo.ver_Version e = Ok w' ∧ w' ≠ v) as He
        by (exists w; split; [done|congruence]).
      destruct r as [cv|].
      * destruct IH as (before & after & md & -> & Hmd & Hv & Hbefore).
        exists (e :: before), after, md. repeat split; try done. by constructor.
      * by constructor.
Qed.

(** What the constraint scan returns: the first entry whose version parses
    and satisfies the constraint, or nothing when there is none. *)
Lemma Get_check_inv (constraint : option semver.Constraints) (c : repo.ChartVersions)
    (r : option repo.ChartVersion) :
  repo.Get_check constraint c = Ok r →
  let rejected cs (e : option repo.ChartVersion) :=
    ∃ w, repo.ver_Version e = Ok w ∧
         ∀ t, semver.NewVersion w = Some t →
              ∃ k, cs = Some k ∧ semver.Check k t = false in
  match r with
  | Some cv =>
      ∃ before after md cs t,
        c = before ++ Some cv :: after ∧ repo.Metadata cv = Some md ∧
        constraint = Some cs ∧ semver.NewVersion (chart.Version md) = Some t ∧
        semver.Check cs t = true ∧ Forall (rejected constraint) before
  | None => Forall (rejected constraint) c
  end.
Proof.
  intros Hr rejected. revert r Hr. induction c as [|e c IH]; intros r; simpl.
  - intros [= <-]. constructor.
  - destruct (repo.ver_Version e) as [w|] eqn:Hw; [|done]. simpl.
    destruct (semver.NewVersion w) as [t|] eqn:Ht.
    + destruct constraint as [cs|]; [|done]. simpl.
      destruct (semver.Check cs t) eqn:Hc.
      * intros [= <-].
        destruct (ver_Version_inv e w Hw) as (cv & md & -> & Hmd & <-).
        exists [], c, md, cs, t. by repeat split.
      * intros Hr. specialize (IH r Hr).
        assert (rejected (Some cs) e) as He.
        { exists w. split; [done|]. intros t' Ht'. exists cs. split; [done|]. congruence. }
        destruct r as [cv|].
        -- destruct IH as (before & after & md & cs' & t' & -> & ? & ? & ? & ? & ?).
           exists (e :: before), after, md, cs', t'. repeat split; try done.
           by constructor.
        -- by constructor.
    + intros Hr. specialize (IH r Hr).
      assert (rejected constraint e) as He.
      { exists w. split; [done|]. intros t' Ht'. congruence. }
      destruct r as [cv|].
      * destruct IH as (before & after & md & cs' & t' & -> & ? & ? & ? & ? & ?).
        exists (e :: before), after, md, cs', t'. repeat split; try done.
        by constructor.
      * by constructor.
Qed.

(** The constraint that [Get] checks the versions against. *)
Lemma ChartVersions_Get_cases (c : repo.ChartVersions) (name version : string) :
  repo.ChartVersions_Get c name version =
    if String.eqb version ""
    then found ← repo.Get_check (semver.NewConstraint "*") c;
         match found with
         | Some ver => Ok (Some ver, None)
         | None => Ok (None, Some (errors_New
                         ("no chart version found for " +:+ name +:+ "-" +:+ version)))
         end
    else match semver.NewConstraint version with
         | None => Ok (None, Some (semver_error version))
         | Some k =>
             exact ← repo.Get_exact c version;
             match exact with
             | Some ver => Ok (Some ver, None)
             | None =>
                 found ← repo.Get_check (Some k) c;
                 match found with
                 | Some ver => Ok (Some ver, None)
                 | None => Ok (None, Some (errors_New
                                 ("no chart version found for " +:+ name +:+ "-" +:+ version)))
                 end
             end
         end.
Proof.
  destruct (String.eqb version "") eqn:Hv.
  - apply String.eqb_eq in Hv as ->. reflexivity.
  - apply String.eqb_neq in Hv.
    destruct (semver.NewConstraint version) as [k|] eqn:Hk.
    + by apply ChartVersions_Get_constraint.
    + by apply ChartVersions_Get_improper.
Qed.

(** X1. [Get] returns an entry and no error, or no entry and an error. An
    entry that it returns is an entry of the list, and either its version
    string is the requested one, which is then not empty, or its version
    parses and satisfies the constraint that the request parses to (the
    constraint ["*"] for the empty request). *)
Theorem ChartVersions_Get_sound (c : repo.ChartVersions) (name version : string)
    (r : option repo.ChartVersion) (err : option error) :
  repo.ChartVersions_Get c name version = Ok (r, err) →
  match r with
  | Some cv =>
      err = None ∧ Some cv ∈ c ∧
      ∃ md, repo.Metadata cv = Some md ∧
        ((version ≠ "" ∧ chart.Version md = version)
         ∨ ∃ cs t,
             semver.NewConstraint (if String.eqb version "" then "*" else version)
               = Some cs ∧
             semver.NewVersion (chart.Version md) = Some t ∧
             semver.Check cs t = true)
  | None => is_Some err
  end.
Proof.
  rewrite ChartVersions_Get_cases.
  destruct (String.eqb version "") eqn:Hv.
  - destruct (repo.Get_check (semver.NewConstraint "*") c) as [found|] eqn:Hfound; [|done].
    simpl. apply Get_check_inv in Hfound.
    destruct found as [cv|]; intros [= <- <-]; [|by eexists].
    destruct Hfound as (before & after & md & cs & t & -> & Hmd & Hcs & Ht & Hc & _).
    split; [done|]. split; [set_solver|].
    exists md. split; [done|]. right. by exists cs, t.
  - apply String.eqb_neq in Hv.
    destruct (semver.NewConstraint version) as [k|] eqn:Hk.
    2: { intros [= <- <-]. by eexists. }
    destruct (repo.Get_exact c version) as [exact|] eqn:Hexact; [|done]. simpl.
    apply Get_exact_inv in Hexact. destruct exact as [cv|].
    + intros [= <- <-].
      destruct Hexact as (before & after & md & -> & Hmd & Hver & _).
      split; [done|]. split; [set_solver|]. exists md. split; [done|]. by left.
    + destruct (repo.Get_check (Some k) c) as [found|] eqn:Hfound; [|done]. simpl.
      apply Get_check_inv in Hfound.
      destruct found as [cv|]; intros [= <- <-]; [|by eexists].
      destruct Hfound as (before & after & md & cs & t & -> & Hmd & Hcs & Ht & Hc & _).
      split; [done|]. split; [set_solver|].
      exists md. split; [done|]. right. exists cs, t. by rewrite <- Hcs.
Qed.


Lemma Get_exact_none (c : repo.ChartVersions) (v : string) :
  Forall (λ e, ∃ w, repo.ver_Version e = Ok w ∧ w ≠ v) c →
  repo.Get_exact c v = Ok None.
Proof.
  induction 1 as [|e c (w & Hw & Hne) _ IH]; [done|]. simpl. rewrite Hw. simpl.
  assert (String.eqb v w = false) as Heq by (apply String.eqb_neq; congruence).
  by rewrite Heq.
Qed.

Lemma Get_check_none (cs : semver.Constraints) (c : repo.ChartVersions) :
  Forall (λ e, ∃ w, repo.ver_Version e = Ok w ∧
               ∀ t, semver.NewVersion w = Some t → semver.Check cs t = false) c →
  repo.Get_check (Some cs) c = Ok None.
Proof.
  induction 1 as [|e c (w & Hw & Hrej) _ IH]; [done|]. simpl. rewrite Hw. simpl.
  destruct (semver.NewVersion w) as [t|] eqn:Ht; [|done]. simpl.
  by rewrite (Hrej t eq_refl).
Qed.

(** X2. On a list whose entries all have metadata, and for a request that
    parses as a constraint (["*"] for the empty request), [Get] returns; and
    it returns the error "no chart version found for name-version" exactly
    when no entry has the requested version string and no entry has a
    version that parses and satisfies the constraint. *)
Theorem ChartVersions_Get_not_found (c : repo.ChartVersions) (name version : string)
    (cs : semver.Constraints) :
  Forall (λ ver, is_Some (repo.metadata_of ver)) c →
  semver.NewConstraint (if String.eqb version "" then "*" else version) = Some cs →
  (∃ r, repo.ChartVersions_Get c name version = Ok r)
  ∧ (repo.ChartVersions_Get c name version
       = Ok (None, Some (errors_New
               ("no chart version found for " +:+ name +:+ "-" +:+ version)))
     ↔ Forall (λ ver, ∀ md, repo.metadata_of ver = Some md →
                 (version = "" ∨ chart.Version md ≠ version)
                 ∧ ∀ t, semver.NewVersion (chart.Version md) = Some t →
                        semver.Check cs t = false) c).
Proof.
  intros Hread Hcs.
  assert (∀ P : string → Prop,
    Forall (λ ver, ∀ md, repo.metadata_of ver = Some md → P (chart.Version md)) c
    ↔ Forall (λ e, ∃ w, repo.ver_Version e = Ok w ∧ P w) c) as Hshape.
  { intros P. rewrite !Forall_forall. split; intros HP e He.
    - rewrite Forall_forall in Hread. destruct (Hread e He) as [md Hmd].
      exists (chart.Version md). split; [by apply ver_Version_metadata|by apply (HP e)].
    - intros md Hmd. destruct (HP e He) as (w & Hw & HPw).
      apply ver_Version_metadata in Hmd as [Hv _]. congruence. }
  set (P := λ w, (version = "" ∨ w ≠ version)
                 ∧ ∀ t, semver.NewVersion w = Some t → semver.Check cs t = false).
  destruct (Get_exact_total c version Hread) as [exact Hexact].
  destruct (Get_check_total cs c Hread) as [found Hfound].
  rewrite ChartVersions_Get_cases.
  destruct (String.eqb version "") eqn:Hv.
  - rewrite Hcs, Hfound. simpl. split; [by destruct found; eexists|].
    apply Get_check_inv in Hfound as Hinv. split.
    + destruct found; [done|]. intros _.
      apply (Hshape P).
      eapply Forall_impl; [exact Hinv|]. intros e (w & Hw & Hrej).
      exists w. split; [done|]. split; [left; by apply String.eqb_eq|].
      intros t Ht. destruct (Hrej t Ht) as (k & [= <-] & ?). done.
    + intros Hnone. apply (Hshape P) in Hnone.
      rewrite Get_check_none in Hfound; [by injection Hfound as <-|].
      eapply Forall_impl; [exact Hnone|]. intros e (w & Hw & _ & Hrej). by exists w.
  - apply String.eqb_neq in Hv. rewrite Hcs, Hexact. simpl.
    apply Get_exact_inv in Hexact as Hinv1. destruct exact as [cv|].
    + split; [by eexists|]. split; [done|]. intros Hnone.
      destruct Hinv1 as (before & after & md & -> & Hmd & Hver & _).
      apply Forall_app in Hnone as [_ Hnone]. apply Forall_cons in Hnone as [Hnone _].
      destruct (Hnone md) as [[?|?] _]; [by simpl; rewrite Hmd|done..].
    + rewrite Hfound. simpl. split; [by destruct found; eexists|].
      apply Get_check_inv in Hfound as Hinv2. split.
      * destruct found; [done|]. intros _.
        apply (Hshape P).
        rewrite Forall_forall in Hinv1, Hinv2. apply Forall_forall. intros e He.
        destruct (Hinv1 e He) as (w & Hw & Hne).
        destruct (Hinv2 e He) as (w' & Hw' & Hrej).
        exists w. split; [done|]. split; [by right|].
        intros t Ht. assert (w' = w) as -> by congruence.
        destruct (Hrej t Ht) as (k & [= <-] & ?). done.
      * intros Hnone. apply (Hshape P) in Hnone.
        rewrite Get_check_none in Hfound; [by injection Hfound as <-|].
        eapply Forall_impl; [exact Hnone|]. intros e (w & Hw & _ & Hrej). by exists w.
Qed.

(** X3. For a chart name that the index does not list, [Get] returns
    [ErrNoChartName] whatever the requested version is, a string that is no
    constraint included; for a name with an empty list it returns
    [ErrNoChartVersion]; [Has] is false in both cases; and the zero index,
    whose map is nil, lists no name. *)
Theorem IndexFile_Get_unknown_chart (i : repo.IndexFile) (name version : string) :
  (repo.entries i !! name = None →
   repo.IndexFile_Get i name version = Ok (None, Some repo.ErrNoChartName)
   ∧ repo.IndexFile_Has i name version = Ok false)
  ∧ (repo.entries i !! name = Some [] →
     repo.IndexFile_Get i name version = Ok (None, Some repo.ErrNoChartVersion)
     ∧ repo.IndexFile_Has i name version = Ok false)
  ∧ repo.IndexFile_Get repo.zero name version = Ok (None, Some repo.ErrNoChartName).
Proof.
  unfold repo.IndexFile_Has, repo.IndexFile_Get, repo.IndexFile_GetVersions.
  split; [|split].
  - by intros ->.
  - by intros ->.
  - unfold repo.entries. simpl. by rewrite lookup_empty.
Qed.

End Get_results.

(** ** Sorted indices: the latest version, and sorting again *)

Section sorted_twice.
Context {A : Type} (moves : A → A → bool).

(** The insertion sort leaves a sorted list as it is. *)
Lemma insertion_of_sorted (l : list A) :
  StronglySorted (λ a b, moves a b = false) l → sort.insertion moves l = l.
Proof.
  unfold sort.insertion.
  induction l as [|x l IH] using rev_ind; intros Hsorted; [done|].
  apply StronglySorted_app in Hsorted as (Hx & Hl & _).
  rewrite insert_all_snoc.
  assert (sort.insert_all moves [] l = reverse l) as ->.
  { rewrite <- (IH Hl) at 2. by rewrite reverse_involutive. }
  assert (sort.insert_left moves x (reverse l) = x :: reverse l) as ->.
  { destruct (reverse l) as [|y rp] eqn:Hrev; [done|]. simpl.
    rewrite (Hx y x); [done| |set_solver].
    apply elem_of_reverse. rewrite Hrev. set_solver. }
  by rewrite reverse_cons, reverse_involutive.
Qed.

End sorted_twice.

Section Get_latest.
Context `{!semver.Lib} `{!sort.Pdqsort}.

Lemma range_order_fmap {V W} (f : V → W) (m : gmap string V) (keys : list string) :
  range_order m keys → range_order (f <$> m) keys.
Proof.
  unfold range_order. intros ->. rewrite map_to_list_fmap, <- list_fmap_compose.
  assert ((fst ∘ prod_map id f) <$> map_to_list m = (map_to_list m).*1) as E
    by (apply list_fmap_ext; by intros ? [??]).
  by rewrite E.
Qed.

(** [SortEntries] on lists of at most 12 readable entries: every list is
    replaced by its insertion sort. *)
Lemma IndexFile_SortEntries_insertion (keys : list string) (i : repo.IndexFile) :
  range_order (repo.entries i) keys →
  repo.readable i →
  map_Forall (λ _ c, length c ≤ sort.maxInsertion) (repo.entries i) →
  repo.IndexFile_SortEntries keys i
  = Ok (repo.with_Entries
          (fmap (M := gmap string) (sort.insertion repo.Less_entries) <$> repo.Entries i) i).
Proof.
  intros Hkeys Hread Hlen. unfold repo.IndexFile_SortEntries.
  destruct (repo.Entries i) as [m|] eqn:Hm; simpl.
  - assert (repo.entries i = m) as Hentries by (unfold repo.entries; by rewrite Hm).
    unfold repo.readable in Hread. rewrite Hentries in *.
    destruct (SortEntries_range_insertion keys m) as (m' & -> & Hdom & Hlookup).
    { unfold range_order in Hkeys. rewrite Hkeys. apply NoDup_fst_map_to_list. }
    { intros k c Hc. split; [by apply (Hread k)|by apply (Hlen k)]. }
    simpl. do 3 f_equal. apply map_eq. intros k. rewrite lookup_fmap.
    destruct (m !! k) as [c|] eqn:Hc; simpl.
    + rewrite (Hlookup k c Hc). by rewrite decide_True by (by eapply range_order_elem).
    + apply not_elem_of_dom. rewrite Hdom. by apply not_elem_of_dom.
  - destruct i. simpl in *. by subst.
Qed.

End Get_latest.

Section split_tail.
Context {A : Type} (P : A → Prop).

(** An element with [P] of a list that ends with elements without [P]
    lies before that tail. *)
Lemma app_tail_split (before after s u : list A) (x : A) :
  before ++ x :: after = s ++ u → Forall (λ e, ¬ P e) u → P x →
  ∃ after', s = before ++ x :: after'.
Proof.
  intros Heq Hu Hx. revert s Heq.
  induction before as [|b before IH]; intros [|y s] Heq; simpl in *.
  - subst u. by apply Forall_cons in Hu as [? _].
  - injection Heq as -> _. by exists s.
  - subst u. apply Forall_cons in Hu as [_ Hu].
    apply Forall_app in Hu as [_ Hu]. by apply Forall_cons in Hu as [? _].
  - injection Heq as -> Heq. destruct (IH s Heq) as [after' ->]. by exists after'.
Qed.

End split_tail.

Section sorted_index.
Context `{!semver.Lib} `{!sort.Pdqsort} `{!semver.Order}.

Lemma LessThan_irrefl (t : semver.Version) : semver.LessThan t t = false.
Proof.
  destruct (semver.LessThan t t) eqn:Ht; [|done].
  by rewrite (semver.LessThan_asym t t Ht) in Ht.
Qed.

(** X26. [Less] of an entry with itself is true exactly when the version of
    the entry does not parse, and for such an entry [Less] is true against
    every index, of the list or not: on a list with such entries [Less] is
    not the strict order that [sort.Sort] expects. *)
Theorem ChartVersions_Less_reflexive (c : repo.ChartVersions) (a : nat)
    (ea : option repo.ChartVersion) (md : chart.Metadata) :
  c !! a = Some ea → repo.metadata_of ea = Some md →
  repo.ChartVersions_Less c a a = Ok (negb (repo.parses ea))
  ∧ (¬ repo.parses ea → ∀ b, repo.ChartVersions_Less c a b = Ok true).
Proof.
  intros Ha Hmd. unfold repo.ChartVersions_Less, index, repo.parses, repo.version_of.
  rewrite Ha, Hmd. simpl. rewrite !(ver_Version_readable ea md Hmd). simpl.
  destruct (semver.NewVersion (chart.Version md)) as [v|] eqn:Hv; simpl.
  - split; [|done]. by rewrite LessThan_irrefl.
  - split; [done|]. by intros _ b.
Qed.

(** In a sorted list, the entry that the constraint scan returns has a
    version that the constraint accepts and that no accepted version of the
    list exceeds. *)
Lemma Get_check_greatest (constraint : option semver.Constraints)
    (c : repo.ChartVersions) (cv : repo.ChartVersion) :
  repo.Get_check constraint (sort.insertion repo.Less_entries c) = Ok (Some cv) →
  ∃ md cs t,
    Some cv ∈ c ∧ repo.Metadata cv = Some md ∧ constraint = Some cs ∧
    semver.NewVersion (chart.Version md) = Some t ∧
    semver.Check cs t = true ∧
    ∀ e md' t',
      e ∈ c → repo.metadata_of e = Some md' →
      semver.NewVersion (chart.Version md') = Some t' →
      semver.Check cs t' = true →
      semver.LessThan t t' = false.
Proof.
  intros Hfound. apply Get_check_inv in Hfound
    as (before & after & md & cs & t & Heq & Hmd & -> & Ht & Hcheck & Hbefore).
  destruct (insertion_entries c) as (sorted & Hins & Hperm & Hsorted & _).
  rewrite Hins in Heq. symmetry in Heq.
  assert (repo.parses (Some cv)) as Hcv.
  { unfold repo.parses, repo.version_of. simpl. rewrite Hmd. simpl. by rewrite Ht. }
  destruct (app_tail_split (λ e, repo.parses e) before after sorted _ (Some cv) Heq)
    as [after' ->]; [|done|].
  { apply Forall_forall. intros e He. rewrite elem_of_reverse in He.
    by apply list_elem_of_filter in He as [? _]. }
  exists md, cs, t. split.
  { assert (Some cv ∈ filter (λ e, repo.parses e) c) as Hin.
    { rewrite <- Hperm. apply elem_of_app. right. by left. }
    by apply list_elem_of_filter in Hin as [_ ?]. }
  repeat (split; [done|]).
  intros e md' t' He Hmd' Ht' Hcheck'.
  assert (repo.version_of e = Some t') as Hve
    by (unfold repo.version_of; rewrite Hmd'; done).
  assert (e ∈ before ++ Some cv :: after') as Hin.
  { rewrite Hperm. apply list_elem_of_filter. split; [|done].
    unfold repo.parses. by rewrite Hve. }
  apply elem_of_app in Hin as [Hin|Hin].
  - rewrite Forall_forall in Hbefore. destruct (Hbefore e Hin) as (w & Hw & Hrej).
    rewrite (ver_Version_readable e md' Hmd') in Hw. injection Hw as <-.
    destruct (Hrej t' Ht') as (k & Hk & Hfalse). congruence.
  - apply elem_of_cons in Hin as [->|Hin].
    + assert (t' = t) as -> by (simpl in Hmd'; congruence). apply LessThan_irrefl.
    + apply StronglySorted_app in Hsorted as (_ & _ & Hsorted).
      apply StronglySorted_cons in Hsorted as [Hall _].
      rewrite Forall_forall in Hall. specialize (Hall e Hin).
      unfold repo.Less_entries, repo.version_of in Hall. simpl in Hall.
      rewrite Hmd in Hall. simpl in Hall. rewrite Ht in Hall.
      fold (repo.version_of e) in Hall. by rewrite Hve in Hall.
Qed.

(** X4. The latest version. On an index that [SortEntries] has sorted
    (entries with metadata, at most 12 in a list), the entry that [Get]
    returns for a chart is an entry of the chart that has the requested
    version string, or else one whose version the constraint of the request
    accepts (the constraint ["*"] for the empty request) and that no
    accepted version of the chart exceeds. *)
Theorem IndexFile_Get_latest (keys : list string) (i0 i : repo.IndexFile)
    (name version : string) (c : repo.ChartVersions) (cv : repo.ChartVersion) :
  range_order (repo.entries i0) keys →
  repo.readable i0 →
  map_Forall (λ _ c, length c ≤ sort.maxInsertion) (repo.entries i0) →
  repo.IndexFile_SortEntries keys i0 = Ok i →
  repo.entries i0 !! name = Some c →
  repo.IndexFile_Get i name version = Ok (Some cv, None) →
  ∃ md,
    Some cv ∈ c ∧ repo.Metadata cv = Some md ∧
    ((version ≠ "" ∧ chart.Version md = version)
     ∨ ∃ cs t,
         semver.NewConstraint (if String.eqb version "" then "*" else version)
           = Some cs ∧
         semver.NewVersion (chart.Version md) = Some t ∧
         semver.Check cs t = true ∧
         ∀ e md' t',
           e ∈ c → repo.metadata_of e = Some md' →
           semver.NewVersion (chart.Version md') = Some t' →
           semver.Check cs t' = true →
           semver.LessThan t t' = false).
Proof.
  intros Hkeys Hread Hlen Hsort Hc Hget.
  rewrite IndexFile_SortEntries_insertion in Hsort by done. injection Hsort as <-.
  assert (repo.Entries i0 = Some (repo.entries i0)) as Hm.
  { unfold repo.entries in *. destruct (repo.Entries i0); [done|].
    simpl in Hc. by rewrite lookup_empty in Hc. }
  rewrite Hm in Hget. simpl in Hget.
  unfold repo.IndexFile_Get, repo.IndexFile_GetVersions in Hget.
  rewrite entries_with_Entries, lookup_fmap, Hc in Hget. simpl in Hget.
  destruct (length (sort.insertion repo.Less_entries c) =? 0)%nat; [done|].
  simpl in Hget. rewrite ChartVersions_Get_cases in Hget.
  assert (∀ constraint,
    repo.Get_check constraint (sort.insertion repo.Less_entries c) = Ok (Some cv) →
    semver.NewConstraint (if String.eqb version "" then "*" else version) = constraint →
    ∃ md, Some cv ∈ c ∧ repo.Metadata cv = Some md ∧
      ((version ≠ "" ∧ chart.Version md = version)
       ∨ ∃ cs t,
           semver.NewConstraint (if String.eqb version "" then "*" else version)
             = Some cs ∧
           semver.NewVersion (chart.Version md) = Some t ∧
           semver.Check cs t = true ∧
           ∀ e md' t',
             e ∈ c → repo.metadata_of e = Some md' →
             semver.NewVersion (chart.Version md') = Some t' →
             semver.Check cs t' = true →
             semver.LessThan t t' = false)) as Hscan.
  { intros constraint Hfound Hconstraint.
    apply Get_check_greatest in Hfound as (md & cs & t & ? & ? & -> & ? & ? & ?).
    exists md. split; [done|]. split; [done|]. right. by exists cs, t. }
  destruct (String.eqb version "") eqn:Hv.
  - destruct (repo.Get_check _ _) as [[cv'|]|] eqn:Hfound; [|done..].
    simpl in Hget. injection Hget as ->. by apply (Hscan _ Hfound).
  - apply String.eqb_neq in Hv.
    destruct (semver.NewConstraint version) as [k|] eqn:Hk; [|done].
    destruct (repo.Get_exact _ version) as [exact|] eqn:Hexact; [|done].
    simpl in Hget. apply Get_exact_inv in Hexact. destruct exact as [cv'|].
    + injection Hget as ->.
      destruct Hexact as (before & after & md & Heq & Hmd & Hver & _).
      exists md. split; [|split; [done|by left]].
      rewrite <- (insertion_perm repo.Less_entries c), Heq.
      apply elem_of_app. right. by left.
    + destruct (repo.Get_check _ _) as [[cv'|]|] eqn:Hfound; [|done..].
      simpl in Hget. injection Hget as ->. by apply (Hscan _ Hfound).
Qed.

Lemma filter_Forall_id {A} (P : A → Prop) `{!∀ x, Decision (P x)} (l : list A) :
  Forall P l → filter P l = l.
Proof.
  induction 1 as [|x l Hx _ IH]; [done|]. by rewrite filter_cons_True, IH.
Qed.

Lemma filter_Forall_nil {A} (P : A → Prop) `{!∀ x, Decision (P x)} (l : list A) :
  Forall (λ x, ¬ P x) l → filter P l = [].
Proof.
  induction 1 as [|x l Hx _ IH]; [done|]. by rewrite filter_cons_False.
Qed.

(** Sorting a sorted list again: the entries whose version parses stay,
    and the entries whose version does not parse, which the first sort
    has reversed, are reversed again. *)
Lemma insertion_twice (c : list (option repo.ChartVersion)) :
  sort.insertion repo.Less_entries (sort.insertion repo.Less_entries c)
  = sort.insertion repo.Less_entries (filter (λ e, repo.parses e) c)
    ++ filter (λ e, ¬ repo.parses e) c.
Proof.
  set (S := sort.insertion repo.Less_entries (filter (λ e, repo.parses e) c)).
  set (U := filter (λ e, ¬ repo.parses e) c).
  assert (Forall (λ e, repo.parses e) (filter (λ e, repo.parses e) c)) as Hparsed.
  { apply Forall_forall. by intros e [? _]%list_elem_of_filter. }
  assert (Forall (λ e, repo.parses e) S) as HS.
  { unfold S. by rewrite insertion_perm. }
  assert (Forall (λ e, ¬ repo.parses e) (reverse U)) as HU.
  { apply Forall_forall. intros e He. rewrite elem_of_reverse in He.
    by apply list_elem_of_filter in He as [? _]. }
  rewrite (insertion_split c). fold S U. rewrite insertion_split, !filter_app.
  rewrite (filter_Forall_id _ S HS), (filter_Forall_id _ (reverse U) HU).
  rewrite (filter_Forall_nil (λ e, repo.parses e) (reverse U)) by done.
  rewrite (filter_Forall_nil (λ e, ¬ repo.parses e) S).
  2: { eapply Forall_impl; [exact HS|]. by intros e He Hne. }
  rewrite app_nil_r, app_nil_l, reverse_involutive. f_equal.
  apply insertion_of_sorted.
  exact (insertion_sorted repo.Less_entries (λ e, repo.parses e)
           Less_entries_asym Less_entries_incomparable _ Hparsed).
Qed.

Lemma entries_sorted (i : repo.IndexFile) :
  repo.entries
    (repo.with_Entries
       (fmap (M := gmap string) (sort.insertion repo.Less_entries) <$> repo.Entries i) i)
  = sort.insertion repo.Less_entries <$> repo.entries i.
Proof.
  unfold repo.entries. destruct (repo.Entries i); simpl; [done|].
  by rewrite fmap_empty.
Qed.

(** X5. [SortEntries] a second time (entries with metadata, at most 12 in a
    list): the entries whose version parses stay where the first sort has
    put them, and the entries whose version does not parse, which the
    first sort has reversed, are back in their original order. So the sort
    is idempotent on an index in which at most one entry of every list has
    a version that does not parse. *)
Theorem IndexFile_SortEntries_again (keys keys' : list string) (i : repo.IndexFile) :
  range_order (repo.entries i) keys →
  range_order (repo.entries i) keys' →
  repo.readable i →
  map_Forall (λ _ c, length c ≤ sort.maxInsertion) (repo.entries i) →
  ∃ i1 i2,
    repo.IndexFile_SortEntries keys i = Ok i1 ∧
    repo.IndexFile_SortEntries keys' i1 = Ok i2 ∧
    (∀ name c, repo.entries i !! name = Some c →
       ∃ sorted,
         repo.entries i1 !! name
           = Some (sorted ++ reverse (filter (λ e, ¬ repo.parses e) c)) ∧
         repo.entries i2 !! name
           = Some (sorted ++ filter (λ e, ¬ repo.parses e) c)) ∧
    (map_Forall (λ _ c, length (filter (λ e, ¬ repo.parses e) c) ≤ 1)
       (repo.entries i) → i2 = i1).
Proof.
  intros Hkeys Hkeys' Hread Hlen.
  eexists _, _. split; [by apply IndexFile_SortEntries_insertion|].
  split.
  { apply IndexFile_SortEntries_insertion; unfold repo.readable; rewrite entries_sorted.
    - by apply range_order_fmap.
    - apply map_Forall_fmap. intros k c Hc. simpl.
      rewrite insertion_perm. by apply (Hread k).
    - apply map_Forall_fmap. intros k c Hc. simpl.
      rewrite insertion_perm. by apply (Hlen k). }
  split.
  - intros name c Hc.
    exists (sort.insertion repo.Less_entries (filter (λ e, repo.parses e) c)).
    unfold repo.entries in *. destruct (repo.Entries i) as [m|]; simpl in *.
    + rewrite !lookup_fmap, Hc. simpl. by rewrite insertion_twice, <- insertion_split.
    + by rewrite lookup_empty in Hc.
  - intros Hone. unfold repo.with_Entries. simpl. f_equal.
    unfold repo.entries in Hone. destruct (repo.Entries i) as [m|]; simpl in *; [|done].
    f_equal. apply map_eq. intros k. rewrite !lookup_fmap.
    destruct (m !! k) as [c|] eqn:Hc; simpl; [|done]. f_equal.
    rewrite insertion_twice, (insertion_split c). f_equal.
    specialize (Hone k c Hc). simpl in Hone.
    destruct (filter _ c) as [|x [|y U]]; simpl in *; [done..|lia].
Qed.

End sorted_index.

(** ** What [Merge] adds *)

Section Merge_appends.
Context `{!semver.Lib}.

Lemma extended_by_refl (from : option repo.ChartVersion → Prop) (i : repo.IndexFile) :
  repo.extended_by from i i.
Proof.
  split; [by destruct i|]. intros name.
  destruct (repo.entries i !! name) as [c|]; [|done].
  exists []. split; [by rewrite app_nil_r|constructor].
Qed.

Lemma extended_by_trans (from : option repo.ChartVersion → Prop)
    (i1 i2 i3 : repo.IndexFile) :
  repo.extended_by from i1 i2 → repo.extended_by from i2 i3 →
  repo.extended_by from i1 i3.
Proof.
  intros [H12 Hl12] [H23 Hl23]. split.
  { destruct i1, i2, i3. unfold repo.with_Entries in *. simpl in *. congruence. }
  intros name. specialize (Hl12 name). specialize (Hl23 name).
  destruct (repo.entries i3 !! name) as [c3|].
  - destruct Hl23 as (added2 & -> & Hadded2).
    destruct (repo.entries i2 !! name) as [c2|]; simpl.
    + destruct Hl12 as (added1 & -> & Hadded1).
      exists (added1 ++ added2). split; [by rewrite (assoc_L (++))|].
      by apply Forall_app.
    + rewrite Hl12. by exists added2.
  - by rewrite Hl23 in Hl12.
Qed.

Lemma extended_by_impl (from from' : option repo.ChartVersion → Prop)
    (i i' : repo.IndexFile) :
  (∀ e, from e → from' e) → repo.extended_by from i i' → repo.extended_by from' i i'.
Proof.
  intros Himpl [Hi Hl]. split; [done|]. intros name. specialize (Hl name).
  destruct (repo.entries i' !! name) as [c'|]; [|done].
  destruct Hl as (added & -> & Hadded). exists added. split; [done|].
  by eapply Forall_impl.
Qed.

(** One step of [Merge] leaves the index as it is or appends the entry. *)
Lemma Merge_entry_extended (i i' : repo.IndexFile) (cv : option repo.ChartVersion) :
  repo.Merge_entry i cv = Ok i' → repo.extended_by (λ e, e = cv) i i'.
Proof.
  unfold repo.Merge_entry.
  destruct (repo.ver_Name cv) as [name|]; [|done]. simpl.
  destruct (repo.ver_Version cv) as [version|]; [|done]. simpl.
  destruct (repo.IndexFile_Has i name version) as [[|]|]; simpl; [| |done].
  { intros [= <-]. apply extended_by_refl. }
  destruct (repo.Entries i) as [m|] eqn:Hm; [|done]. intros [= <-].
  assert (repo.entries i = m) as Hentries by (unfold repo.entries; by rewrite Hm).
  split; [done|]. intros k. rewrite entries_with_Entries, Hentries.
  destruct (decide (name = k)) as [<-|Hk].
  - rewrite lookup_insert_eq. exists [cv]. split; [done|]. by repeat constructor.
  - rewrite lookup_insert_ne by done.
    destruct (m !! k) as [c|]; [|done].
    exists []. split; [by rewrite app_nil_r|constructor].
Qed.

Lemma Merge_cvs_extended (cvs : repo.ChartVersions) (i i' : repo.IndexFile) :
  repo.Merge_cvs cvs i = Ok i' → repo.extended_by (λ e, e ∈ cvs) i i'.
Proof.
  revert i. induction cvs as [|cv cvs IH]; intros i; simpl.
  - intros [= <-]. apply extended_by_refl.
  - destruct (repo.Merge_entry i cv) as [i1|] eqn:H1; [|done]. simpl. intros Hrest.
    eapply extended_by_trans.
    + eapply extended_by_impl; [|by apply Merge_entry_extended].
      intros e ->. set_solver.
    + eapply extended_by_impl; [|by apply IH]. intros e He. set_solver.
Qed.

Lemma Merge_range_extended (keys : list string) (f : gmap string repo.ChartVersions)
    (i i' : repo.IndexFile) :
  repo.Merge_range keys f i = Ok i' →
  repo.extended_by (λ e, ∃ k cvs, k ∈ keys ∧ f !! k = Some cvs ∧ e ∈ cvs) i i'.
Proof.
  revert i. induction keys as [|k keys IH]; intros i; simpl.
  - intros [= <-]. apply extended_by_refl.
  - destruct (repo.Merge_cvs _ i) as [i1|] eqn:H1; [|done]. simpl. intros Hrest.
    eapply extended_by_trans.
    + eapply extended_by_impl; [|by apply Merge_cvs_extended].
      intros e He. simpl in He. destruct (f !! k) as [cvs|] eqn:Hk; simpl in He.
      * exists k, cvs. set_solver.
      * by apply elem_of_nil in He.
    + eapply extended_by_impl; [|by apply IH].
      intros e (k' & cvs & ? & ? & ?). exists k', cvs. set_solver.
Qed.

(** X6. [Merge] only appends. The other fields of the receiver are
    unchanged; every list of the receiver is a prefix of the list under the
    same name afterwards; and what follows the prefix are entries of the
    lists of the merged index that the loop has visited. *)
Theorem IndexFile_Merge_appends (keys : list string) (i f i' : repo.IndexFile) :
  repo.IndexFile_Merge keys i f = Ok i' →
  i' = repo.with_Entries (repo.Entries i') i
  ∧ (∀ name c, repo.entries i !! name = Some c →
       ∃ added, repo.entries i' !! name = Some (c ++ added))
  ∧ (∀ name c', repo.entries i' !! name = Some c' →
       ∃ added,
         c' = default [] (repo.entries i !! name) ++ added ∧
         Forall (λ e, ∃ k cvs, k ∈ keys ∧ repo.entries f !! k = Some cvs ∧ e ∈ cvs)
           added).
Proof.
  intros Hmerge. apply Merge_range_extended in Hmerge as [Hi Hl].
  split; [done|]. split.
  - intros name c Hc. specialize (Hl name).
    destruct (repo.entries i' !! name) as [c'|]; [|congruence].
    destruct Hl as (added & -> & _). rewrite Hc. by exists added.
  - intros name c' Hc'. specialize (Hl name). by rewrite Hc' in Hl.
Qed.

(** X7. After [Merge], [Has] finds in the receiver the name and version of
    every entry of the merged index, for a receiver that is initialized and
    readable and a merged index whose entries have metadata and version
    strings that are not empty and parse as constraints. *)
Theorem IndexFile_Merge_lists_all (keys : list string) (i f : repo.IndexFile) :
  repo.readable i → is_Some (repo.Entries i) →
  repo.readable f → repo.requestable f →
  range_order (repo.entries f) keys →
  ∃ i', repo.IndexFile_Merge keys i f = Ok i' ∧
        ∀ name c ver md,
          repo.entries f !! name = Some c → ver ∈ c →
          repo.metadata_of ver = Some md →
          repo.IndexFile_Has i' (chart.Name md) (chart.Version md) = Ok true.
Proof.
  intros Hi Hinit Hf Hreq Hkeys. unfold repo.IndexFile_Merge.
  assert (map_Forall (λ _ c,
    Forall (λ ver, ∃ md, repo.metadata_of ver = Some md ∧ chart.Version md ≠ "" ∧
                         is_Some (semver.NewConstraint (chart.Version md))) c)
    (repo.entries f)) as Hgood.
  { intros k c Hc. apply Forall_forall. intros ver Hver.
    pose proof (proj1 (Forall_forall _ _) (Hf k c Hc) ver Hver) as [md Hmd].
    destruct (proj1 (Forall_forall _ _) (Hreq k c Hc) ver Hver md Hmd) as [Hv Hcs].
    by exists md. }
  destruct (Merge_range_steps keys (repo.entries f) i Hi Hinit Hgood)
    as (i' & Hmerge & _ & _ & Hlisted & _).
  exists i'. split; [done|]. intros name c ver md Hc Hver Hmd.
  apply (proj1 (Forall_forall _ _)
           (Hlisted name c (range_order_elem _ _ name c Hkeys Hc) Hc) ver Hver md Hmd).
Qed.

Lemma Merge_cvs_nil_entries (cvs : repo.ChartVersions) (i : repo.IndexFile) :
  repo.Entries i = None → Forall (λ ver, is_Some (repo.metadata_of ver)) cvs →
  repo.Merge_cvs cvs i = match cvs with [] => Ok i | _ => Panic nil_map_assignment end.
Proof.
  intros Hnil Hread. destruct cvs as [|cv cvs]; [done|]. simpl.
  apply Forall_cons in Hread as [[md Hmd] _].
  unfold repo.Merge_entry.
  destruct (ver_Version_metadata cv md Hmd) as [-> ->]. simpl.
  unfold repo.IndexFile_Has, repo.IndexFile_Get, repo.IndexFile_GetVersions, repo.entries.
  rewrite Hnil. simpl. by rewrite lookup_empty.
Qed.

(** X8. [Merge] into an index whose map is nil, as that of the zero
    [IndexFile]: it returns without a change when every list of the merged
    index is empty, and it panics on the assignment to the nil map when a
    list of the merged index has an entry. *)
Theorem IndexFile_Merge_nil_entries (keys : list string) (i f : repo.IndexFile) :
  repo.Entries i = None → repo.readable f →
  (map_Forall (λ _ c, c = []) (repo.entries f) → repo.IndexFile_Merge keys i f = Ok i)
  ∧ (range_order (repo.entries f) keys →
     (∃ name c, repo.entries f !! name = Some c ∧ c ≠ []) →
     repo.IndexFile_Merge keys i f = Panic nil_map_assignment).
Proof.
  intros Hnil Hf. unfold repo.IndexFile_Merge.
  assert (∀ k, repo.Merge_cvs (default [] (repo.entries f !! k)) i
    = match default [] (repo.entries f !! k) with
      | [] => Ok i | _ => Panic nil_map_assignment end) as Hstep.
  { intros k. apply Merge_cvs_nil_entries; [done|].
    destruct (repo.entries f !! k) as [c|] eqn:Hc; simpl; [|done]. by apply (Hf k). }
  split.
  - intros Hempty. induction keys as [|k keys IH]; [done|]. simpl. rewrite Hstep.
    destruct (repo.entries f !! k) as [c|] eqn:Hc; simpl; [|done].
    by rewrite (Hempty k c Hc).
  - intros Hkeys (name & c & Hc & Hne).
    pose proof (range_order_elem _ _ name c Hkeys Hc) as Hin. clear Hkeys.
    induction keys as [|k keys IH]; [by apply elem_of_nil in Hin|]. simpl.
    rewrite Hstep. destruct (default [] (repo.entries f !! k)) as [|cv cvs] eqn:Hk; [|done].
    simpl. apply IH. apply elem_of_cons in Hin as [<-|Hin]; [|done].
    rewrite Hc in Hk. simpl in Hk. congruence.
Qed.

End Merge_appends.

(** ** Building an index: [MustAdd], [Add], [IndexDirectory] *)

Section MustAdd.
Context `{!chart.Validator} `{!repo.Paths}.

Lemma entries_Some (i : repo.IndexFile) (m : gmap string repo.ChartVersions) :
  repo.Entries i = Some m → repo.entries i = m.
Proof. unfold repo.entries. by intros ->. Qed.

Lemma default_APIVersion_nonempty (md : chart.Metadata) :
  chart.APIVersion (repo.default_APIVersion md) ≠ "".
Proof.
  unfold repo.default_APIVersion.
  destruct (String.eqb (chart.APIVersion md) "") eqn:Heq; [done|].
  by apply String.eqb_neq.
Qed.

Lemma default_APIVersion_fields (md : chart.Metadata) :
  chart.Name (repo.default_APIVersion md) = chart.Name md
  ∧ chart.Version (repo.default_APIVersion md) = chart.Version md.
Proof.
  unfold repo.default_APIVersion.
  by destruct (String.eqb (chart.APIVersion md) "").
Qed.

(** The three ways in which [MustAdd] returns. *)
Lemma IndexFile_MustAdd_cases (now : Z) (i : repo.IndexFile)
    (md : option chart.Metadata) (filename baseURL digest : string)
    (r : repo.IndexFile * option chart.Metadata * option error) :
  repo.IndexFile_MustAdd now i md filename baseURL digest = Ok r →
  (repo.Entries i = None ∧ r = (i, md, Some (errors_New "entries not initialized")))
  ∨ ∃ m md0,
      repo.Entries i = Some m ∧ md = Some md0 ∧
      ((∃ verr,
          chart.Validate (repo.default_APIVersion md0) = Some verr ∧
          r = (i, Some (repo.default_APIVersion md0),
               Some (errors_Wrapf verr ("validate failed for " +:+ filename))))
       ∨ (chart.Validate (repo.default_APIVersion md0) = None ∧
          r = (repo.with_Entries
                 (Some (<[chart.Name md0 :=
                            default [] (m !! chart.Name md0)
                            ++ [Some (repo.MustAdd_record now (repo.default_APIVersion md0)
                                        filename baseURL digest)]]> m)) i,
               Some (repo.default_APIVersion md0), None))).
Proof.
  unfold repo.IndexFile_MustAdd.
  destruct (repo.Entries i) as [m|] eqn:Hm.
  - destruct md as [md0|]; [|done]. simpl. intros Hr. right. exists m, md0.
    split; [done|]. split; [done|].
    destruct (default_APIVersion_fields md0) as [Hname _]. rewrite Hname in Hr.
    destruct (chart.Validate _) as [verr|] eqn:Hverr; injection Hr as <-.
    + left. by exists verr.
    + by right.
  - intros [= <-]. by left.
Qed.

Lemma records_insert (i : repo.IndexFile) (m : gmap string repo.ChartVersions)
    (k : string) (e : option repo.ChartVersion) :
  repo.Entries i = Some m →
  repo.records (repo.with_Entries (Some (<[k := default [] (m !! k) ++ [e]]> m)) i)
  = S (repo.records i).
Proof.
  intros Hm. unfold repo.records. rewrite entries_with_Entries, (entries_Some i m Hm).
  destruct (m !! k) as [c|] eqn:Hc; simpl.
  - rewrite <- (insert_delete_eq m).
    rewrite <- (insert_delete_id m k c Hc) at 2.
    rewrite !map_to_list_insert by apply lookup_delete_eq. simpl.
    rewrite length_app. simpl. lia.
  - by rewrite map_to_list_insert.
Qed.

(** X9. When [MustAdd] returns an error the index is unchanged, and the error
    is either "entries not initialized", for an index whose map is nil (the
    metadata is then not touched, nor read), or the error of [Validate]
    wrapped with the file name (the API version of the metadata has then
    been defaulted). *)
Theorem IndexFile_MustAdd_failure (now : Z) (i i' : repo.IndexFile)
    (md md' : option chart.Metadata) (filename baseURL digest : string) (err : error) :
  repo.IndexFile_MustAdd now i md filename baseURL digest = Ok (i', md', Some err) →
  i' = i
  ∧ ((repo.Entries i = None ∧ md' = md
      ∧ err = errors_New "entries not initialized")
     ∨ (∃ md0 verr,
          is_Some (repo.Entries i) ∧ md = Some md0 ∧
          md' = Some (repo.default_APIVersion md0) ∧
          chart.Validate (repo.default_APIVersion md0) = Some verr ∧
          err = errors_Wrapf verr ("validate failed for " +:+ filename))).
Proof.
  intros [(Hnil & [= -> -> ->])|(m & md0 & Hm & -> & Hcases)]%IndexFile_MustAdd_cases.
  { split; [done|]. by left. }
  destruct Hcases as [(verr & Hverr & [= -> -> ->])|(_ & [=])].
  split; [done|]. right. exists md0, verr. by rewrite Hm.
Qed.

(** X10. When [MustAdd] returns no error, the metadata has passed [Validate]
    with its API version defaulted, and the index has one record more: a
    record with this metadata, one URL (the file name, when the base URL is
    empty), the time of the call, the digest, and no tombstone, appended to
    the list of the chart. The other lists and the other fields of the
    index are unchanged. *)
Theorem IndexFile_MustAdd_appends (now : Z) (i i' : repo.IndexFile)
    (md md' : option chart.Metadata) (filename baseURL digest : string) :
  repo.IndexFile_MustAdd now i md filename baseURL digest = Ok (i', md', None) →
  ∃ md0 cr u,
    md = Some md0 ∧ md' = Some (repo.default_APIVersion md0) ∧
    chart.Validate (repo.default_APIVersion md0) = None ∧
    repo.Metadata cr = md' ∧ repo.URLs cr = [u] ∧ (baseURL = "" → u = filename) ∧
    repo.Created cr = now ∧ repo.Removed cr = false ∧ repo.Digest cr = digest ∧
    i' = repo.with_Entries (repo.Entries i') i ∧
    repo.entries i' !! chart.Name md0
      = Some (default [] (repo.entries i !! chart.Name md0) ++ [Some cr]) ∧
    (∀ name, name ≠ chart.Name md0 → repo.entries i' !! name = repo.entries i !! name) ∧
    repo.records i' = S (repo.records i).
Proof.
  intros [(_ & [=])|(m & md0 & Hm & -> & Hcases)]%IndexFile_MustAdd_cases.
  destruct Hcases as [(verr & _ & [=])|(Hvalid & [= -> ->])].
  exists md0, (repo.MustAdd_record now (repo.default_APIVersion md0) filename baseURL digest),
    (repo.MustAdd_url filename baseURL).
  rewrite (records_insert i m _ _ Hm), entries_with_Entries, (entries_Some i m Hm).
  repeat split; try done.
  - intros ->. reflexivity.
  - apply lookup_insert_eq.
  - intros name Hne. by rewrite lookup_insert_ne.
Qed.

End MustAdd.

Section MustAdd_Get.
Context `{!semver.Lib} `{!chart.Validator} `{!repo.Paths}.

(** X11. After [MustAdd] has added to a readable index a chart whose version
    is not empty and parses as a constraint, [Has] finds the chart by its
    name and version, and [Get] returns an entry with that version string:
    the record just added, when no earlier entry of the chart has the same
    version string. *)
Theorem IndexFile_MustAdd_then_Get (now : Z) (i i' : repo.IndexFile)
    (md : option chart.Metadata) (md1 : chart.Metadata)
    (filename baseURL digest : string) :
  repo.readable i →
  repo.IndexFile_MustAdd now i md filename baseURL digest = Ok (i', Some md1, None) →
  chart.Version md1 ≠ "" →
  is_Some (semver.NewConstraint (chart.Version md1)) →
  repo.IndexFile_Has i' (chart.Name md1) (chart.Version md1) = Ok true
  ∧ ∃ cv md2,
      repo.IndexFile_Get i' (chart.Name md1) (chart.Version md1) = Ok (Some cv, None) ∧
      repo.Metadata cv = Some md2 ∧ chart.Version md2 = chart.Version md1 ∧
      (Forall (λ e, ∀ md0, repo.metadata_of e = Some md0 →
                           chart.Version md0 ≠ chart.Version md1)
         (default [] (repo.entries i !! chart.Name md1)) →
       md2 = md1 ∧ repo.Digest cv = digest ∧ repo.Created cv = now).
Proof.
  intros Hread [(_ & [=])|(m & md0 & Hm & -> & Hcases)]%IndexFile_MustAdd_cases Hv [k Hk].
  destruct Hcases as [(verr & _ & [=])|(_ & [= -> ->])].
  destruct (default_APIVersion_fields md0) as [Hname Hversion].
  unfold repo.readable in Hread.
  rewrite Hname, Hversion in *. rewrite (entries_Some i m Hm) in *.
  set (cr := repo.MustAdd_record now (repo.default_APIVersion md0) filename baseURL digest).
  set (c := default [] (m !! chart.Name md0)) in *.
  assert (Forall (λ ver, is_Some (repo.metadata_of ver)) c) as Hc.
  { unfold c. destruct (m !! chart.Name md0) as [c0|] eqn:Hc0; simpl; [|done].
    by apply (Hread (chart.Name md0)). }
  assert (repo.ver_Version (Some cr) = Ok (chart.Version md0)) as Hcr.
  { unfold repo.ver_Version. simpl. by rewrite Hversion. }
  assert (repo.Metadata cr = Some (repo.default_APIVersion md0)
          ∧ repo.Digest cr = digest ∧ repo.Created cr = now) as (Hmd & Hdigest & Hnow)
    by done.
  clearbody cr.
  assert (∃ cv md2,
    repo.ChartVersions_Get (c ++ [Some cr]) (chart.Name md0) (chart.Version md0)
      = Ok (Some cv, None) ∧
    repo.Metadata cv = Some md2 ∧ chart.Version md2 = chart.Version md0 ∧
    (Forall (λ e, ∀ md1, repo.metadata_of e = Some md1 →
                         chart.Version md1 ≠ chart.Version md0) c →
     md2 = repo.default_APIVersion md0 ∧ repo.Digest cv = digest ∧ repo.Created cv = now))
    as (cv & md2 & Hget & Hmd2 & Hv2 & Hnew).
  { rewrite (ChartVersions_Get_constraint _ _ _ k Hv Hk), Get_exact_app.
    destruct (Get_exact_total c (chart.Version md0) Hc) as [exact Hexact].
    rewrite Hexact. simpl. apply Get_exact_inv in Hexact. destruct exact as [cv|]; simpl.
    - destruct Hexact as (before & after & md2 & Hceq & Hmd2 & Hv2 & _).
      exists cv, md2. split; [done|]. split; [done|]. split; [done|].
      intros Hnone. exfalso.
      rewrite Hceq in Hnone. apply Forall_app in Hnone as [_ Hnone].
      apply Forall_cons in Hnone as [Hnone _].
      by apply (Hnone md2).
    - rewrite Hcr. simpl. rewrite String.eqb_refl. simpl.
      exists cr, (repo.default_APIVersion md0). by repeat split. }
  assert (repo.entries
            (repo.with_Entries (Some (<[chart.Name md0 := c ++ [Some cr]]> m)) i)
          !! chart.Name md0 = Some (c ++ [Some cr])) as Hlist
    by (rewrite entries_with_Entries; apply lookup_insert_eq).
  assert (c ++ [Some cr] ≠ []) as Hne by (by destruct c).
  split.
  - rewrite (IndexFile_Has_lookup _ _ _ _ Hlist Hne). by rewrite Hget.
  - exists cv, md2. split; [|done].
    unfold repo.IndexFile_Get, repo.IndexFile_GetVersions. rewrite Hlist.
    rewrite length_app, Nat.add_1_r. simpl. exact Hget.
Qed.

(** X12. [Add] with metadata returns, and either logs nothing and the index
    has one record more, or leaves the index as it is and logs one line
    with the name and version of the chart. With the nil metadata pointer
    it panics, whatever the index. *)
Theorem IndexFile_Add_outcome (now : Z) (i : repo.IndexFile) (md0 : chart.Metadata)
    (filename baseURL digest : string) :
  (∃ i' md' lg,
     repo.IndexFile_Add now i (Some md0) filename baseURL digest = Ok (i', md', lg) ∧
     ((lg = [] ∧ repo.records i' = S (repo.records i))
      ∨ (i' = i ∧ ∃ err,
           lg = [repo.skip_invalid_entry (chart.Name md0) (chart.Version md0)
                   filename (Some err)])))
  ∧ repo.IndexFile_Add now i None filename baseURL digest = Panic nil_dereference.
Proof.
  unfold repo.IndexFile_Add. split.
  - destruct (repo.IndexFile_MustAdd now i (Some md0) filename baseURL digest)
      as [r|] eqn:Hadd; simpl.
    + apply IndexFile_MustAdd_cases in Hadd
        as [(Hnil & ->)|(m & md1 & Hm & [= <-] & Hcases)]; simpl.
      { eexists _, _, _. split; [done|]. right. split; [done|]. by eexists. }
      destruct Hcases as [(verr & _ & ->)|(_ & ->)]; simpl.
      * destruct (default_APIVersion_fields md0) as [-> ->].
        eexists _, _, _. split; [done|]. right. split; [done|]. by eexists.
      * eexists _, _, _. split; [done|]. left. split; [done|].
        by apply records_insert.
    + unfold repo.IndexFile_MustAdd in Hadd.
      destruct (repo.Entries i); [|done]. simpl in Hadd.
      by destruct (chart.Validate _).
  - unfold repo.IndexFile_MustAdd. by destruct (repo.Entries i).
Qed.

End MustAdd_Get.

Section IndexDirectory.
Context `{!chart.Validator} `{!repo.Paths} `{!repo.Archives}.

Lemma filter_loadable_cons (arch : string) (rest : list string) :
  length (filter (λ a, repo.loadable a) (arch :: rest))
  = (if repo.loadable arch then 1 else 0) + length (filter (λ a, repo.loadable a) rest).
Proof.
  rewrite filter_cons. by destruct (repo.loadable arch) eqn:Hl; simpl.
Qed.

(** The loop of [IndexDirectory] keeps the index initialized and its
    entries validated, and adds one record for every archive that loads. *)
Lemma IndexDirectory_range_index (dir baseURL : string) (archives : list string)
    (t : nat) (index : repo.IndexFile) (idx : option repo.IndexFile)
    (err : option error) :
  repo.IndexDirectory_range dir baseURL archives t index = Ok (idx, err) →
  is_Some (repo.Entries index) →
  map_Forall (λ _ c, Forall repo.validated c) (repo.entries index) →
  ∃ index',
    idx = Some index' ∧ index' = repo.with_Entries (repo.Entries index') index ∧
    is_Some (repo.Entries index') ∧
    map_Forall (λ _ c, Forall repo.validated c) (repo.entries index') ∧
    repo.records index'
      ≤ repo.records index + length (filter (λ a, repo.loadable a) archives) ∧
    (err = None →
     repo.records index'
       = repo.records index + length (filter (λ a, repo.loadable a) archives)).
Proof.
  revert t index. induction archives as [|arch rest IH]; intros t index Hrun Hinit Hvalid.
  { injection Hrun as <- <-. exists index.
    split; [done|]. split; [by destruct index|]. split; [done|]. split; [done|].
    simpl. lia. }
  assert (∀ n e,
    ∃ index', Some index = Some index' ∧
      index' = repo.with_Entries (repo.Entries index') index ∧
      is_Some (repo.Entries index') ∧
      map_Forall (λ _ c, Forall repo.validated c) (repo.entries index') ∧
      repo.records index' ≤ repo.records index + n ∧
      (Some e = (None : option error) → repo.records index' = repo.records index + n))
    as Hstop.
  { intros n e. exists index.
    split; [done|]. split; [by destruct index|]. split; [done|]. split; [done|].
    split; [lia|done]. }
  simpl in Hrun.
  destruct (repo.filepath_Rel dir arch) as [fname|e].
  2: { injection Hrun as <- <-. apply Hstop. }
  destruct (repo.filepath_Split fname) as [parentDir fname'].
  rewrite filter_loadable_cons.
  destruct (repo.loader_Load arch) as [md|e] eqn:Hload.
  2: { assert (repo.loadable arch = false) as ->
         by (unfold repo.loadable; by rewrite Hload).
       by apply (IH t index). }
  assert (repo.loadable arch = true) as ->
    by (unfold repo.loadable; by rewrite Hload).
  destruct (repo.provenance_DigestFile arch) as [hash|e].
  2: { injection Hrun as <- <-. apply Hstop. }
  destruct (repo.IndexFile_MustAdd _ index md fname' _ hash) as [r|] eqn:Hadd; [|done].
  simpl in Hrun.
  apply IndexFile_MustAdd_cases in Hadd
    as [(Hnil & ->)|(m & md0 & Hm & -> & Hcases)].
  { rewrite Hnil in Hinit. by destruct Hinit. }
  destruct Hcases as [(verr & _ & ->)|(Hok & ->)]; simpl in Hrun.
  { injection Hrun as <- <-. apply Hstop. }
  apply IH in Hrun as (index' & -> & Hfields & Hinit' & Hvalid' & Hle & Heq).
  - rewrite records_insert in Hle, Heq by done.
    exists index'. split; [done|]. split.
    { rewrite Hfields. by destruct index. }
    split; [done|]. split; [done|]. split; [lia|].
    intros Herr. specialize (Heq Herr). lia.
  - by eexists.
  - rewrite entries_with_Entries. rewrite (entries_Some index m Hm) in Hvalid.
    apply map_Forall_insert_2; [|done].
    apply Forall_app. split.
    + destruct (m !! chart.Name md0) as [c|] eqn:Hc; simpl; [|done].
      by apply (Hvalid (chart.Name md0)).
    + repeat constructor. exists (repo.default_APIVersion md0).
      split; [done|]. split; [apply default_APIVersion_nonempty|done].
Qed.

(** X13. [IndexDirectory] returns no index only with the error of one of its
    two directory listings. The index it returns otherwise has the API
    version v1 and an initialized map, each of its entries has passed
    [Validate], and it has at most one record for every archive that loads
    as a chart: exactly one, when there is no error. *)
Theorem IndexDirectory_index (dir baseURL : string)
    (idx : option repo.IndexFile) (err : option error) :
  repo.IndexDirectory dir baseURL = Ok (idx, err) →
  match idx with
  | None =>
      ∃ e, err = Some e ∧
        (repo.filepath_Glob (repo.filepath_Join dir "*.tgz") = inr e
         ∨ repo.filepath_Glob (repo.filepath_Join dir "**/*.tgz") = inr e)
  | Some index =>
      ∃ archives moreArchives,
        repo.filepath_Glob (repo.filepath_Join dir "*.tgz") = inl archives ∧
        repo.filepath_Glob (repo.filepath_Join dir "**/*.tgz") = inl moreArchives ∧
        repo.APIVersion index = repo.APIVersionV1 ∧
        is_Some (repo.Entries index) ∧
        map_Forall (λ _ c, Forall repo.validated c) (repo.entries index) ∧
        repo.records index
          ≤ length (filter (λ a, repo.loadable a) (archives ++ moreArchives)) ∧
        (err = None →
         repo.records index
           = length (filter (λ a, repo.loadable a) (archives ++ moreArchives)))
  end.
Proof.
  unfold repo.IndexDirectory.
  destruct (repo.filepath_Glob (repo.filepath_Join dir "*.tgz")) as [archives|e].
  2: { intros [= <- <-]. exists e. split; [done|]. by left. }
  destruct (repo.filepath_Glob (repo.filepath_Join dir "**/*.tgz")) as [more|e].
  2: { intros [= <- <-]. exists e. split; [done|]. by right. }
  intros Hrun. apply IndexDirectory_range_index in Hrun
    as (index & -> & Hfields & Hinit & Hvalid & Hle & Heq).
  - exists archives, more. split; [done|]. split; [done|]. split.
    { by rewrite Hfields. }
    split; [done|]. split; [done|].
    assert (repo.records (repo.NewIndexFile (repo.time_Now 0)) = 0) as Hzero.
    { unfold repo.records, repo.entries. simpl. by rewrite map_to_list_empty. }
    rewrite Hzero in Hle, Heq. done.
  - by eexists.
  - unfold repo.entries. simpl. apply map_Forall_empty.
Qed.

End IndexDirectory.

(** ** What [LoadIndexFile] and [loadIndex] return *)

Section loadIndex_results.
Context `{!semver.Lib} `{!sort.Pdqsort} `{!chart.Validator}
        `{!repo.Codec} `{!repo.FileSystem} `{!repo.RangeOrder}.

(** The ways in which [loadIndex] returns: it returns an index in all of
    them. *)
Lemma loadIndex_cases (data source : string)
    (idx : option repo.IndexFile) (err : option error) (lg : list repo.log_record) :
  repo.loadIndex data source = Ok (idx, err, lg) →
  ∃ i, idx = Some i ∧
    ((data = "" ∧ i = repo.zero ∧ err = Some repo.ErrEmptyIndexYaml ∧ lg = [])
     ∨ (data ≠ "" ∧ ∃ e, repo.jsonOrYamlUnmarshal data repo.zero = (i, Some e)
                         ∧ err = Some e ∧ lg = [])
     ∨ (data ≠ "" ∧ ∃ decoded, repo.jsonOrYamlUnmarshal data repo.zero = (decoded, None)
                   ∧ repo.APIVersion i = repo.APIVersion decoded
                   ∧ err = (if String.eqb (repo.APIVersion decoded) ""
                            then Some repo.ErrNoAPIVersion else None))).
Proof.
  unfold repo.loadIndex. destruct data as [|a data].
  { intros [= <- <- <-]. exists repo.zero. split; [done|]. by left. }
  change (String.length (String a data) =? 0) with false. cbv iota.
  destruct (repo.jsonOrYamlUnmarshal _ _) as [decoded [e|]] eqn:Hdecode.
  { intros [= <- <- <-]. exists decoded. split; [done|]. right. left.
    split; [done|]. by exists e. }
  match goal with |- context [mbind _ ?x] => destruct x as [[cleaned lg1]|] eqn:Hclean end;
    [|done].
  assert (repo.APIVersion cleaned = repo.APIVersion decoded) as Hcleaned.
  { destruct (repo.Entries decoded) as [m|]; simpl in Hclean.
    - destruct (repo.loadIndex_range _ _ _ _) as [r|]; [|done].
      simpl in Hclean. by injection Hclean as <- _.
    - by injection Hclean as <- _. }
  simpl.
  destruct (repo.IndexFile_SortEntries _ cleaned) as [i'|] eqn:Hsort; [|done]. simpl.
  apply IndexFile_SortEntries_APIVersion in Hsort. rewrite Hsort, Hcleaned.
  intros Hr. exists i'. split.
  { by destruct (String.eqb _ _); injection Hr as <- _ _. }
  right. right. split; [done|]. exists decoded. split; [done|]. split; [congruence|].
  by destruct (String.eqb _ _); injection Hr as _ <- _.
Qed.

(** X14. [LoadIndexFile] returns an index or an error, never both. Without an
    error the index has an API version. With an error there is no index,
    and the error is the error of reading the file, as it is, or the error
    of [loadIndex] (an empty file, a decoder error, a missing API version)
    wrapped with "error loading" and the path. *)
Theorem LoadIndexFile_result (path : string)
    (idx : option repo.IndexFile) (err : option error) (lg : list repo.log_record) :
  repo.LoadIndexFile path = Ok (idx, err, lg) →
  match err with
  | None => ∃ i, idx = Some i ∧ repo.APIVersion i ≠ ""
  | Some e =>
      idx = None ∧
      ((repo.os_ReadFile path = inr e ∧ lg = [])
       ∨ ∃ b cause,
           repo.os_ReadFile path = inl b ∧
           e = errors_Wrapf cause ("error loading " +:+ path) ∧
           ((b = "" ∧ cause = repo.ErrEmptyIndexYaml)
            ∨ (∃ i, repo.jsonOrYamlUnmarshal b repo.zero = (i, Some cause))
            ∨ cause = repo.ErrNoAPIVersion))
  end.
Proof.
  unfold repo.LoadIndexFile.
  destruct (repo.os_ReadFile path) as [b|e] eqn:Hread.
  2: { intros [= <- <- <-]. split; [done|]. by left. }
  destruct (repo.loadIndex b path) as [[[idx1 err1] lg1]|] eqn:Hload; [|done]. simpl.
  apply loadIndex_cases in Hload as (i & -> & Hcases).
  destruct Hcases as [(-> & _ & -> & _)|[(_ & e & Hdecode & -> & _)
                                         |(_ & decoded & Hdecode & Hv & ->)]].
  - intros [= <- <- <-]. split; [done|]. right. exists "", repo.ErrEmptyIndexYaml.
    split; [done|]. split; [done|]. by left.
  - intros [= <- <- <-]. split; [done|]. right. exists b, e.
    split; [done|]. split; [done|]. right. left. by exists i.
  - destruct (String.eqb (repo.APIVersion decoded) "") eqn:Hempty.
    + intros [= <- <- <-]. split; [done|]. right. exists b, repo.ErrNoAPIVersion.
      split; [done|]. split; [done|]. by right; right.
    + intros [= <- <- <-]. exists i. split; [done|]. rewrite Hv.
      by apply String.eqb_neq.
Qed.


Lemma with_Metadata_id (cv : repo.ChartVersion) (md : chart.Metadata) :
  repo.Metadata cv = Some md → repo.with_Metadata (Some md) cv = cv.
Proof. destruct cv. simpl. by intros ->. Qed.

(** An entry that passes is written back as it is, and is not removed. *)
Lemma loadIndex_chart_passes (name source : string) (k : nat)
    (arr : repo.ChartVersions) (n : nat) (lg : list repo.log_record) :
  k ≤ n → Forall repo.passes (take k arr) → k ≤ length arr →
  repo.loadIndex_chart name source k arr n lg = Ok (arr, n, lg).
Proof.
  induction k as [|idx IH]; intros Hn Hpass Hlen; [done|]. simpl.
  assert ((idx <? n) = true) as -> by (apply Nat.ltb_lt; lia).
  destruct (lookup_lt_is_Some_2 arr idx) as [e He]; [lia|].
  unfold index. rewrite He. simpl.
  rewrite (take_S_r arr idx e He) in Hpass.
  apply Forall_app in Hpass as [Hpass [(md & Hmd & Hv & Hok) _]%Forall_cons].
  destruct e as [cv|]; [|done]. simpl in Hmd. rewrite Hmd. simpl.
  apply String.eqb_neq in Hv. rewrite Hv, Hok.
  rewrite (with_Metadata_id cv md Hmd), (list_insert_id arr idx (Some cv) He).
  apply IH; [lia|done|lia].
Qed.

Lemma loadIndex_range_passes (source : string) (keys : list string)
    (m : gmap string repo.ChartVersions) (lg : list repo.log_record) :
  map_Forall (λ _ c, Forall repo.passes c) m →
  repo.loadIndex_range source keys m lg = Ok (m, lg).
Proof.
  intros Hm. induction keys as [|name keys IH]; [done|]. simpl.
  destruct (m !! name) as [cvs|] eqn:Hcvs; [|done].
  rewrite loadIndex_chart_passes; [|done| |done].
  - simpl. by rewrite insert_id.
  - rewrite firstn_all. by apply (Hm name).
Qed.

(** X15. A document whose entries all have metadata with an API version and
    pass validation is loaded as it was decoded, up to [SortEntries]: no
    entry is changed, nothing is logged, and the error is [ErrNoAPIVersion]
    exactly when the decoded index has no API version. *)
Theorem loadIndex_valid_document (data source : string) (i : repo.IndexFile) :
  data ≠ "" →
  repo.jsonOrYamlUnmarshal data repo.zero = (i, None) →
  map_Forall (λ _ c, Forall repo.passes c) (repo.entries i) →
  repo.loadIndex data source =
    i' ← repo.IndexFile_SortEntries (repo.range_keys (repo.entries i)) i;
    Ok (Some i',
        if String.eqb (repo.APIVersion i) "" then Some repo.ErrNoAPIVersion else None,
        []).
Proof.
  intros Hdata Hdecode Hpass. unfold repo.loadIndex.
  destruct data as [|a data]; [done|].
  change (String.length (String a data) =? 0) with false. cbv iota.
  rewrite Hdecode.
  assert ((match repo.Entries i with
           | None => Ok (i, [])
           | Some m =>
               r ← repo.loadIndex_range source (repo.range_keys m) m [];
               Ok (repo.with_Entries (Some r.1) i, r.2)
           end) = Ok (i, [])) as ->.
  { unfold repo.entries in Hpass. destruct (repo.Entries i) as [m|] eqn:Hm; [|done].
    rewrite loadIndex_range_passes by done. simpl. f_equal. f_equal.
    destruct i. simpl in *. by subst. }
  simpl.
  destruct (repo.IndexFile_SortEntries _ i) as [i'|] eqn:Hsort; [|done]. simpl.
  rewrite (IndexFile_SortEntries_APIVersion _ _ _ Hsort).
  by destruct (String.eqb _ _).
Qed.


Lemma defaulted_readable (c : list (option repo.ChartVersion)) :
  Forall repo.defaulted c → Forall (λ ver, is_Some (repo.metadata_of ver)) c.
Proof. intros Hc. eapply Forall_impl; [exact Hc|]. intros ver (md & Hmd & _). by eexists. Qed.

(** On an array without nil entries the cleanup loop returns, and every
    entry of the array then has metadata with an API version. [todo] are
    the entries that the loop has yet to visit. *)
Lemma loadIndex_chart_defaulted (name source : string)
    (todo visited : list (option repo.ChartVersion)) (n : nat)
    (lg : list repo.log_record) :
  length todo ≤ n ≤ length (todo ++ visited) →
  Forall (λ ver, is_Some ver) todo →
  Forall repo.defaulted visited →
  ∃ r, repo.loadIndex_chart name source (length todo) (todo ++ visited) n lg = Ok r ∧
       length r.1.1 = length (todo ++ visited) ∧
       Forall repo.defaulted r.1.1.
Proof.
  revert visited n lg.
  induction todo as [|e todo IH] using rev_ind; intros visited n lg Hn Htodo Hvisited.
  { by eexists. }
  apply Forall_app in Htodo as [Htodo [[cv ->] _]%Forall_cons].
  rewrite length_app in *. simpl in *. rewrite Nat.add_1_r. simpl.
  assert ((length todo <? n) = true) as -> by (apply Nat.ltb_lt; lia).
  rewrite <- (assoc_L (++)). simpl. rewrite index_middle. simpl.
  set (md := if (chart.APIVersion (default chart.zero (repo.Metadata cv)) =? "")%string
             then _ else _).
  assert (chart.APIVersion md ≠ "") as Hmd.
  { unfold md.
    destruct (String.eqb (chart.APIVersion (default chart.zero (repo.Metadata cv))) "")
      eqn:Heq; [done|]. by apply String.eqb_neq. }
  clearbody md.
  set (x := Some (repo.with_Metadata (Some md) cv)).
  replace (<[length todo := x]> (todo ++ Some cv :: visited))
    with (todo ++ x :: visited)
    by (by rewrite insert_app_r_alt, Nat.sub_diag by lia).
  assert (Forall repo.defaulted (x :: visited)) as Hx
    by (constructor; [by exists md|done]).
  destruct (repo.ignoreSkippableChartValidationError _).
  - rewrite remove_at_middle by lia.
    destruct (IH (take (n - (length todo + 1)) visited
                  ++ drop (n - 1 - length todo) (x :: visited)) (n - 1)
                 (lg ++ [repo.skip_invalid_entry name (chart.Version md) source
                           (chart.Validate md)]))
      as (r & -> & Hlen & Hr); [|done| |].
    + rewrite !length_app, length_take, length_drop in *. simpl in *. lia.
    + apply Forall_app. split; [by apply Forall_take|by apply Forall_drop].
    + exists r. split; [done|]. split; [|done].
      rewrite Hlen, !length_app, length_take, length_drop in *. simpl in *. lia.
  - destruct (IH (x :: visited) n lg) as (r & -> & Hlen & Hr); [|done|done|].
    + rewrite !length_app in *. simpl in *. lia.
    + exists r. split; [done|]. split; [|done].
      rewrite Hlen, !length_app. simpl. lia.
Qed.

Lemma loadIndex_range_defaulted (source : string) (keys : list string)
    (m : gmap string (list (option repo.ChartVersion))) (lg : list repo.log_record) :
  map_Forall (λ _ c, Forall (λ ver, is_Some ver) c) m →
  ∃ r, repo.loadIndex_range source keys m lg = Ok r ∧
       dom r.1 = dom m ∧
       ∀ k c, m !! k = Some c →
         ∃ c', r.1 !! k = Some c' ∧ length c' = length c ∧
               Forall (λ ver, is_Some ver) c' ∧
               (k ∈ keys ∨ Forall repo.defaulted c → Forall repo.defaulted c').
Proof.
  revert m lg. induction keys as [|name keys IH]; intros m lg Hm; simpl.
  { eexists. split; [done|]. split; [done|]. intros k c Hc. exists c. repeat split; auto.
    - by apply (Hm k).
    - by intros [?%elem_of_nil|?]. }
  destruct (m !! name) as [cvs|] eqn:Hcvs.
  - destruct (loadIndex_chart_defaulted name source cvs [] (length cvs) lg)
      as (r1 & Hr1 & Hlen1 & Hread1).
    { rewrite app_nil_r. lia. }
    { by apply (Hm name). }
    { constructor. }
    rewrite app_nil_r in Hr1, Hlen1. rewrite Hr1. simpl.
    destruct (IH (<[name := r1.1.1]> m) r1.2) as (r & Hr & Hdom & Hall).
    { apply map_Forall_insert_2; [|done].
      by apply readable_is_Some, defaulted_readable. }
    exists r. split; [done|]. split.
    { rewrite Hdom. apply dom_insert_lookup_L. by eexists. }
    intros k c Hc.
    destruct (decide (k = name)) as [->|Hne].
    + assert (c = cvs) as -> by congruence.
      destruct (Hall name r1.1.1) as (c' & Hc' & Hlen' & Hsome' & Hread');
        [apply lookup_insert_eq|].
      exists c'. repeat split; auto. congruence.
    + destruct (Hall k c) as (c' & Hc' & Hlen' & Hsome' & Hread');
        [by rewrite lookup_insert_ne|].
      exists c'. repeat split; auto.
      intros [[?|?]%elem_of_cons|?]; [done|auto..].
  - destruct (IH m lg Hm) as (r & Hr & Hdom & Hall). exists r. split; [done|].
    split; [done|]. intros k c Hc. destruct (Hall k c Hc) as (c' & Hc' & Hlen' & Hsome' & Hread').
    exists c'. repeat split; auto.
    intros [[->|?]%elem_of_cons|?]; [congruence|auto..].
Qed.

(** X16. Defaults. For a document without null entries and with at most 12
    entries in a list, [loadIndex] returns, and every entry of the index it
    returns has metadata with an API version; every list has the length
    that it was decoded with. *)
Theorem loadIndex_defaults (data source : string) (i : repo.IndexFile) :
  data ≠ "" →
  repo.jsonOrYamlUnmarshal data repo.zero = (i, None) →
  map_Forall (λ _ c, Forall (λ ver, is_Some ver) c ∧ length c ≤ sort.maxInsertion)
    (repo.entries i) →
  ∃ loaded lg,
    repo.loadIndex data source
      = Ok (Some loaded,
            if String.eqb (repo.APIVersion i) "" then Some repo.ErrNoAPIVersion else None,
            lg) ∧
    map_Forall (λ _ c, Forall repo.defaulted c) (repo.entries loaded) ∧
    ∀ name c, repo.entries i !! name = Some c →
      ∃ c', repo.entries loaded !! name = Some c' ∧ length c' = length c.
Proof.
  intros Hdata Hdecode Hgood. unfold repo.loadIndex.
  destruct data as [|a data]; [done|].
  change (String.length (String a data) =? 0) with false. cbv iota.
  rewrite Hdecode. unfold repo.entries in Hgood.
  destruct (repo.Entries i) as [m|] eqn:Hm; simpl in *.
  - destruct (loadIndex_range_defaulted source (repo.range_keys m) m [])
      as ([m1 lg] & -> & Hdom & Hall).
    { intros k c Hc. by apply (Hgood k). }
    simpl in *.
    assert (∀ k c1, m1 !! k = Some c1 →
      Forall repo.defaulted c1 ∧ ∃ c, m !! k = Some c ∧ length c1 = length c) as Hm1.
    { intros k c1 Hc1.
      assert (is_Some (m !! k)) as [c Hc].
      { apply elem_of_dom. rewrite <- Hdom. apply elem_of_dom. by eexists. }
      destruct (Hall k c Hc) as (c' & Hc' & Hlen' & _ & Hread').
      assert (c' = c1) as -> by congruence. split; [|by exists c].
      apply Hread'. left. eapply range_order_elem; [apply repo.range_keys_order|done]. }
    rewrite IndexFile_SortEntries_insertion; simpl.
    + eexists _, lg. split; [by destruct (String.eqb _ _)|].
      rewrite entries_with_Entries. split.
      * apply map_Forall_fmap. intros k c1 Hc1. simpl.
        rewrite insertion_perm. by apply (Hm1 k).
      * intros name c Hc. rewrite (entries_Some i m Hm) in Hc.
        destruct (Hall name c Hc) as (c' & Hc' & Hlen' & _).
        exists (sort.insertion repo.Less_entries c'). rewrite lookup_fmap, Hc'.
        split; [done|]. by rewrite insertion_perm.
    + apply repo.range_keys_order.
    + intros k c1 Hc1. by apply defaulted_readable, (Hm1 k).
    + intros k c1 Hc1. destruct (Hm1 k c1 Hc1) as [_ (c & Hc & ->)].
      by apply (Hgood k).
  - unfold repo.IndexFile_SortEntries. rewrite Hm. simpl.
    exists i, []. split; [by destruct (String.eqb _ _)|].
    unfold repo.entries. rewrite Hm. simpl. split; [apply map_Forall_empty|].
    intros name c. by rewrite lookup_empty.
Qed.

End loadIndex_results.

(** ** The registry: lookups by URL and canonical names *)

Section registry_lookups.
Context `{!downloader.Collaborators}.

(** What the scan of the registry returns is a registered entry that
    satisfies the predicate. *)
Lemma getInfoByF_range_Some (keys : list string) (m : gmap string repo.Entry)
    (f : repo.Entry → bool) (e : repo.Entry) :
  downloader.getInfoByF_range keys m f = Some e →
  ∃ k, k ∈ keys ∧ m !! k = Some e ∧ f e = true.
Proof.
  induction keys as [|k keys IH]; [done|]. simpl.
  destruct (m !! k) as [entry|] eqn:Hk.
  - destruct (f entry) eqn:Hf.
    + intros [= <-]. exists k. set_solver.
    + intros (k' & ? & ? & ?)%IH. exists k'. set_solver.
  - intros (k' & ? & ? & ?)%IH. exists k'. set_solver.
Qed.

(** The scan finds an entry when one of the entries visited satisfies the
    predicate. *)
Lemma getInfoByF_range_find (keys : list string) (m : gmap string repo.Entry)
    (f : repo.Entry → bool) (k : string) (e : repo.Entry) :
  k ∈ keys → m !! k = Some e → f e = true →
  is_Some (downloader.getInfoByF_range keys m f).
Proof.
  intros Hk He Hf. induction keys as [|k' keys IH]; [by apply elem_of_nil in Hk|].
  simpl. destruct (decide (k' = k)) as [->|Hne].
  - by rewrite He, Hf.
  - assert (k ∈ keys) as Hin
      by (apply elem_of_cons in Hk as [?|?]; [congruence|done]).
    destruct (m !! k') as [e'|]; [destruct (f e'); [done|]|]; by apply IH.
Qed.

(** The two ways in which [getInfoByURL] answers: with a registered entry
    of an equal URL, or, when the scan finds none, with a generated entry
    that it registers. *)
Lemma getInfoByURL_cases (keys : list string) (c : downloader.ChartRepositories)
    (url : string) :
  (∃ k e, k ∈ keys ∧ downloader.repos c !! k = Some e ∧
          downloader.urlutil_Equal (repo.URL e) url = true ∧
          downloader.getInfoByURL keys c url = (Some e, c))
  ∨ (downloader.getInfoByF keys c (λ entry, downloader.urlutil_Equal (repo.URL entry) url)
       = None ∧
     ((∃ err, (downloader.key url).2 = Some err ∧
              downloader.getInfoByURL keys c url = (None, c))
      ∨ (∃ generated,
           downloader.key url = (generated, None) ∧
           let name := downloader.managerKeyPrefix +:+ generated in
           let entry := {| repo.Name := name; repo.URL := url;
                           repo.Username := ""; repo.Password := "" |} in
           downloader.getInfoByURL keys c url
           = (Some entry,
              downloader.with_repos (<[name := entry]> (downloader.repos c)) c)))).
Proof.
  unfold downloader.getInfoByURL.
  destruct (downloader.getInfoByF keys c _) as [e|] eqn:Hscan.
  - left. apply getInfoByF_range_Some in Hscan as (k & ? & ? & ?). by exists k, e.
  - right. split; [done|]. destruct (downloader.key url) as [generated [err|]].
    + left. by exists err.
    + right. by exists generated.
Qed.

(** X17. When a registered repository has a URL that the comparator takes for
    equal to the given one, [GetInfoByURL] returns a registered entry with
    such a URL and leaves the registry as it is. *)
Theorem GetInfoByURL_finds_registered (keys : list string)
    (c : downloader.ChartRepositories) (url : string) (k : string) (e : repo.Entry) :
  range_order (downloader.repos c) keys →
  downloader.repos c !! k = Some e →
  downloader.urlutil_Equal (repo.URL e) url = true →
  ∃ k' e',
    downloader.GetInfoByURL keys c url = (Some e', c) ∧
    downloader.repos c !! k' = Some e' ∧
    downloader.urlutil_Equal (repo.URL e') url = true.
Proof.
  intros Hkeys Hk He. unfold downloader.GetInfoByURL.
  destruct (getInfoByURL_cases keys c url) as [(k' & e' & _ & ? & ? & ?)|[Hnone _]].
  { by exists k', e'. }
  destruct (getInfoByF_range_find keys (downloader.repos c)
              (λ entry, downloader.urlutil_Equal (repo.URL entry) url) k e)
    as [e' He']; [by eapply range_order_elem|done..|].
  unfold downloader.getInfoByF in Hnone. congruence.
Qed.


(** The ways in which [CanonicalizeRepoName] answers: with no name, with
    the name it was given less a prefix, or with the name of the entry that
    [getInfoByURL] returns. *)
Lemma CanonicalizeRepoName_cases (keys : list string) (c : downloader.ChartRepositories)
    (name : string) :
  downloader.CanonicalizeRepoName keys c name = ("", c)
  ∨ (∃ trimmed e,
       downloader.getInfo c trimmed = Some e ∧
       downloader.CanonicalizeRepoName keys c name = (trimmed, c))
  ∨ (downloader.url_IsAbs name = true ∧
     downloader.CanonicalizeRepoName keys c name
     = match downloader.getInfoByURL keys c name with
       | (Some entry, c') => (repo.Name entry, c')
       | (None, c') => ("", c')
       end).
Proof.
  unfold downloader.CanonicalizeRepoName.
  destruct (_ || _ || _); [by left|].
  destruct (downloader.getInfo c (strings.TrimPrefix name "@")) as [e|] eqn:H1; simpl.
  { right. left. by eexists _, e. }
  destruct (downloader.getInfo c (strings.TrimPrefix name "alias:")) as [e|] eqn:H2; simpl.
  { right. left. by eexists _, e. }
  destruct (downloader.url_IsAbs name); [|by left].
  right. right. done.
Qed.

Lemma getInfo_Some (c : downloader.ChartRepositories) (name : string) (e : repo.Entry) :
  downloader.getInfo c name = Some e ↔ name ≠ "" ∧ downloader.repos c !! name = Some e.
Proof.
  unfold downloader.getInfo. destruct (String.eqb name "") eqn:Hname.
  - apply String.eqb_eq in Hname. split; [done|]. by intros [? _].
  - apply String.eqb_neq in Hname. split; [done|]. by intros [_ ?].
Qed.

(** X18. In a registry whose entries are registered under their own names,
    the name that [CanonicalizeRepoName] returns is empty or the name of an
    entry that [GetInfo] finds in the registry after the call. *)
Theorem CanonicalizeRepoName_registered (keys : list string)
    (c : downloader.ChartRepositories) (name : string) :
  downloader.registered_by_name c →
  let r := downloader.CanonicalizeRepoName keys c name in
  r.1 = "" ∨ ∃ e, downloader.GetInfo r.2 r.1 = Some e ∧ repo.Name e = r.1.
Proof.
  intros Hc r. unfold r, downloader.GetInfo.
  destruct (CanonicalizeRepoName_cases keys c name)
    as [->|[(trimmed & e & He & ->)|[_ ->]]]; simpl.
  - by left.
  - right. exists e. split; [done|]. apply getInfo_Some in He as [_ He].
    by apply (Hc trimmed).
  - destruct (getInfoByURL_cases keys c name)
      as [(k & e & _ & Hk & _ & ->)|[_ [(err & _ & ->)|(generated & _ & ->)]]]; simpl.
    + rewrite (Hc k e Hk). destruct (decide (k = "")) as [->|Hne]; [by left|].
      right. exists e. split; [|by apply (Hc k)]. by apply getInfo_Some.
    + by left.
    + destruct (decide (downloader.managerKeyPrefix +:+ generated = "")) as [->|Hne];
        [by left|].
      right. eexists. split.
      * apply getInfo_Some. split; [done|]. apply lookup_insert_eq.
      * done.
Qed.

(** X19. [CanonicalizeRepoName] changes nothing but the table of
    repositories, and this only by registering, for an absolute URL that no
    registered repository has, the generated entry under the generated
    name, which it returns. *)
Theorem CanonicalizeRepoName_registers (keys : list string)
    (c : downloader.ChartRepositories) (name : string) :
  range_order (downloader.repos c) keys →
  let r := downloader.CanonicalizeRepoName keys c name in
  downloader.indexPath r.2 = downloader.indexPath c
  ∧ downloader.indices r.2 = downloader.indices c
  ∧ (downloader.repos r.2 = downloader.repos c
     ∨ ∃ generated,
         downloader.url_IsAbs name = true ∧
         downloader.key name = (generated, None) ∧
         r.1 = downloader.managerKeyPrefix +:+ generated ∧
         downloader.repos r.2
           = <[r.1 := {| repo.Name := r.1; repo.URL := name;
                         repo.Username := ""; repo.Password := "" |}]>
               (downloader.repos c) ∧
         ∀ k e, downloader.repos c !! k = Some e →
                downloader.urlutil_Equal (repo.URL e) name = false).
Proof.
  intros Hkeys r. unfold r.
  destruct (CanonicalizeRepoName_cases keys c name)
    as [->|[(trimmed & e & He & ->)|[Habs ->]]]; simpl; [by auto..|].
  destruct (getInfoByURL_cases keys c name)
    as [(k & e & _ & Hk & _ & ->)|[Hnone [(err & _ & ->)|(generated & Hkey & ->)]]];
    simpl; [by auto..|].
  split; [done|]. split; [done|]. right. exists generated.
  repeat split; try done. intros k e Hk.
  destruct (downloader.urlutil_Equal (repo.URL e) name) eqn:Heq; [|done].
  destruct (getInfoByF_range_find keys (downloader.repos c)
              (λ entry, downloader.urlutil_Equal (repo.URL entry) name) k e)
    as [e' He']; [by eapply range_order_elem|done..|].
  unfold downloader.getInfoByF in Hnone. congruence.
Qed.

End registry_lookups.

(** ** The registry: listing the names *)

Section registry_keys.

Lemma Keys_range_registered (keys : list string) (m : gmap string repo.Entry) :
  (∀ k, k ∈ keys → is_Some (m !! k)) → downloader.Keys_range keys m = keys.
Proof.
  induction keys as [|k keys IH]; intros Hkeys; [done|]. simpl.
  destruct (Hkeys k) as [e ->]; [set_solver|]. rewrite IH; [done|].
  intros k' Hk'. apply Hkeys. by right.
Qed.

Lemma range_order_registered {V} (m : gmap string V) (keys : list string) (k : string) :
  range_order m keys → k ∈ keys ↔ is_Some (m !! k).
Proof.
  unfold range_order. intros ->. rewrite list_elem_of_fmap. split.
  - intros ([k' v] & -> & Hkv%elem_of_map_to_list). by exists v.
  - intros [v Hv]. exists (k, v). split; [done|]. by apply elem_of_map_to_list.
Qed.

(** X20. [Keys] lists every registered name once, and [GetInfo] finds exactly
    the listed names other than the empty name. *)
Theorem Keys_registered (keys : list string) (c : downloader.ChartRepositories) :
  range_order (downloader.repos c) keys →
  NoDup (downloader.Keys keys c)
  ∧ length (downloader.Keys keys c) = size (downloader.repos c)
  ∧ (∀ k, k ∈ downloader.Keys keys c ↔ is_Some (downloader.repos c !! k))
  ∧ (∀ k, is_Some (downloader.GetInfo c k) ↔ k ∈ downloader.Keys keys c ∧ k ≠ "").
Proof.
  intros Hkeys. unfold downloader.Keys.
  rewrite Keys_range_registered
    by (intros k Hk; by apply (range_order_registered _ keys)).
  split; [|split; [|split]].
  - unfold range_order in Hkeys. rewrite Hkeys. apply NoDup_fst_map_to_list.
  - unfold range_order in Hkeys. by rewrite Hkeys, length_fmap, length_map_to_list.
  - intros k. by apply range_order_registered.
  - intros k. rewrite (range_order_registered _ keys k Hkeys).
    unfold downloader.GetInfo, downloader.getInfo.
    destruct (String.eqb k "") eqn:Hk.
    + apply String.eqb_eq in Hk. split; [by intros [? ?]|by intros [_ ?]].
    + apply String.eqb_neq in Hk. split; [done|by intros [? _]].
Qed.

Lemma GetKeysByF_range_visits (keys : list string) (m : gmap string repo.Entry)
    (f : repo.Entry → bool) (result : list string) :
  downloader.GetKeysByF_range keys m f result
  = result ++ (repo.Name <$> filter (λ e, f e) (omap (λ k, m !! k) keys)).
Proof.
  revert result. induction keys as [|k keys IH]; intros result; simpl.
  { by rewrite app_nil_r. }
  destruct (m !! k) as [e|]; [|by apply IH]. rewrite IH, filter_cons.
  destruct (f e); simpl; [|done].
  destruct (decide True); [|done]. by rewrite <- (assoc_L (++)).
Qed.

Lemma omap_lookup_map_to_list {V} (m : gmap string V) :
  omap (λ k, m !! k) (map_to_list m).*1 = (map_to_list m).*2.
Proof.
  assert (Forall (λ kv, m !! kv.1 = Some kv.2) (map_to_list m)) as Hall.
  { apply Forall_forall. intros [k v]. apply elem_of_map_to_list. }
  induction Hall as [|[k v] l Hkv _ IH]; [done|]. simpl in *. rewrite Hkv.
  f_equal. exact IH.
Qed.

(** X21. [GetKeysByF] returns the names of the registered entries that satisfy
    the predicate, one for every such entry. *)
Theorem GetKeysByF_names (keys : list string) (c : downloader.ChartRepositories)
    (f : repo.Entry → bool) :
  range_order (downloader.repos c) keys →
  downloader.GetKeysByF keys c f
  ≡ₚ repo.Name <$> filter (λ e, f e) (map_to_list (downloader.repos c)).*2.
Proof.
  intros Hkeys. unfold downloader.GetKeysByF. rewrite GetKeysByF_range_visits. simpl.
  unfold range_order in Hkeys. by rewrite Hkeys, omap_lookup_map_to_list.
Qed.

End registry_keys.

(** ** The registry: construction *)

Section registry_construction.
Context `{!downloader.Collaborators}.

Lemma NewChartRepositories_range_all (l : list repo.Entry) (repos : gmap string repo.Entry) :
  downloader.NewChartRepositories_range (Some <$> l) repos
  = Ok (foldl (λ m e, <[repo.Name e := e]> m) repos l).
Proof. revert repos. induction l as [|e l IH]; intros repos; [done|]. simpl. apply IH. Qed.

Lemma NewChartRepositories_range_nil (entries : list (option repo.Entry))
    (repos : gmap string repo.Entry) :
  None ∈ entries →
  downloader.NewChartRepositories_range entries repos = Panic nil_dereference.
Proof.
  revert repos. induction entries as [|[e|] entries IH]; intros repos Hin.
  - by apply elem_of_nil in Hin.
  - simpl. apply IH. by apply elem_of_cons in Hin as [?|?].
  - done.
Qed.

(** The map that the constructor builds holds, for every name, the last
    entry of the configuration with that name. *)
Lemma lookup_registered_last (l : list repo.Entry) (repos : gmap string repo.Entry)
    (name : string) :
  foldl (λ m e, <[repo.Name e := e]> m) repos l !! name
  = match last (filter (λ e, repo.Name e = name) l) with
    | Some e => Some e
    | None => repos !! name
    end.
Proof.
  induction l as [|x l IH] using rev_ind; [done|].
  rewrite foldl_snoc, filter_app.
  destruct (decide (repo.Name x = name)) as [<-|Hne].
  - rewrite lookup_insert_eq, filter_cons_True, filter_nil by done. by rewrite last_snoc.
  - rewrite lookup_insert_ne, filter_cons_False, filter_nil, app_nil_r by done. exact IH.
Qed.

(** X22. [NewChartRepositories] passes on the error of the configuration
    loader. For a configuration without nil entries it returns a registry
    with the given cache path and an empty index cache, in which every name
    stands for the last entry of the configuration with that name. On a nil
    entry it panics. *)
Theorem NewChartRepositories_registers (repoConfigPath repoCachePath : string) :
  (∀ err, downloader.loadRepoConfig repoConfigPath = inr err →
     downloader.NewChartRepositories repoConfigPath repoCachePath = Ok (None, Some err))
  ∧ (∀ l, downloader.loadRepoConfig repoConfigPath = inl (Some <$> l) →
       ∃ c, downloader.NewChartRepositories repoConfigPath repoCachePath
              = Ok (Some c, None) ∧
            downloader.indexPath c = repoCachePath ∧
            downloader.indices c = ∅ ∧
            ∀ name, downloader.repos c !! name
                    = last (filter (λ e, repo.Name e = name) l))
  ∧ (∀ entries, downloader.loadRepoConfig repoConfigPath = inl entries →
       None ∈ entries →
       downloader.NewChartRepositories repoConfigPath repoCachePath
       = Panic nil_dereference).
Proof.
  unfold downloader.NewChartRepositories. split; [|split].
  - by intros err ->.
  - intros l ->. rewrite NewChartRepositories_range_all. simpl.
    eexists. split; [done|]. repeat split. intros name. simpl.
    rewrite lookup_registered_last, lookup_empty. by destruct (last _).
  - intros entries -> Hnil. by rewrite NewChartRepositories_range_nil.
Qed.

End registry_construction.

(** ** The registry: dependencies *)

Section registry_dependencies.
Context `{!downloader.Collaborators}.

(** [getInfoByURL] keeps the cache, registers under its own name what it
    registers, and removes no name. *)
Lemma getInfoByURL_keeps (keys : list string) (c : downloader.ChartRepositories)
    (url : string) :
  let c' := (downloader.getInfoByURL keys c url).2 in
  downloader.indexPath c' = downloader.indexPath c
  ∧ downloader.indices c' = downloader.indices c
  ∧ dom (downloader.repos c) ⊆ dom (downloader.repos c')
  ∧ (downloader.registered_by_name c → downloader.registered_by_name c').
Proof.
  destruct (getInfoByURL_cases keys c url)
    as [(k & e & _ & _ & _ & ->)|[_ [(err & _ & ->)|(generated & _ & ->)]]]; simpl;
    [done..|].
  split; [done|]. split; [done|]. split.
  - rewrite dom_insert_L. set_solver.
  - intros Hc. by apply map_Forall_insert_2.
Qed.

(** [CanonicalizeRepoName] keeps the cache and removes no name; in a
    registry whose entries are registered under their names, the name it
    returns, unless empty, is the name of a registered entry. *)
Lemma CanonicalizeRepoName_keeps (keys : list string) (c : downloader.ChartRepositories)
    (name : string) :
  let r := downloader.CanonicalizeRepoName keys c name in
  downloader.indexPath r.2 = downloader.indexPath c
  ∧ downloader.indices r.2 = downloader.indices c
  ∧ dom (downloader.repos c) ⊆ dom (downloader.repos r.2)
  ∧ (downloader.registered_by_name c →
     downloader.registered_by_name r.2
     ∧ (r.1 = "" ∨ ∃ e, downloader.getInfo r.2 r.1 = Some e ∧ repo.Name e = r.1)).
Proof.
  destruct (CanonicalizeRepoName_cases keys c name)
    as [->|[(trimmed & e & He & ->)|[_ ->]]]; simpl.
  - split; [done|]. split; [done|]. split; [reflexivity|].
    intros Hc. split; [done|by left].
  - split; [done|]. split; [done|]. split; [reflexivity|]. intros Hc. split; [done|].
    right. exists e. split; [done|].
    apply getInfo_Some in He as [_ He]. by apply (Hc trimmed).
  - destruct (getInfoByURL_keeps keys c name) as (Hpath & Hindices & Hdom & Hnames).
    destruct (getInfoByURL_cases keys c name)
      as [(k & e & _ & Hk & _ & Heq)|[_ [(err & _ & Heq)|(generated & _ & Heq)]]];
      rewrite Heq in *; simpl in *; (split; [done|]); (split; [done|]); (split; [done|]);
      intros Hc; (split; [by apply Hnames|]).
    + rewrite (Hc k e Hk). destruct (decide (k = "")) as [->|Hne]; [by left|].
      right. exists e. split; [|by apply (Hc k)]. by apply getInfo_Some.
    + by left.
    + destruct (decide (downloader.managerKeyPrefix +:+ generated = "")) as [->|Hne];
        [by left|].
      right. eexists. split.
      * apply getInfo_Some. split; [done|]. apply lookup_insert_eq.
      * done.
Qed.

Lemma getInfo_dom (c c' : downloader.ChartRepositories) (name : string) :
  dom (downloader.repos c) ⊆ dom (downloader.repos c') →
  is_Some (downloader.getInfo c name) → is_Some (downloader.getInfo c' name).
Proof.
  intros Hdom [e [Hne He]%getInfo_Some].
  apply elem_of_dom_2, Hdom, elem_of_dom in He as [e' He'].
  exists e'. by apply getInfo_Some.
Qed.

(** The loop of [GetForDeps]: it panics on a nil dependency only; what it
    adds to [out] are non-empty names of registered entries, under the
    names of dependencies of the list. *)
Lemma GetForDeps_range_result (orders : nat → list string) (k : nat)
    (c : downloader.ChartRepositories) (deps : list (option chart.Dependency))
    (out : gmap string string) (P : string → Prop) :
  downloader.registered_by_name c →
  (∀ d r, out !! d = Some r → r ≠ "" ∧ is_Some (downloader.getInfo c r) ∧ P d) →
  match downloader.GetForDeps_range orders k c deps out with
  | Ok (out', c') =>
      Forall (λ dep, is_Some dep) deps ∧
      downloader.indexPath c' = downloader.indexPath c ∧
      downloader.indices c' = downloader.indices c ∧
      dom (downloader.repos c) ⊆ dom (downloader.repos c') ∧
      downloader.registered_by_name c' ∧
      ∀ d r, out' !! d = Some r →
        r ≠ "" ∧ is_Some (downloader.getInfo c' r) ∧
        (P d ∨ ∃ dep, Some dep ∈ deps ∧ chart.Dependency_Name dep = d)
  | Panic p => p = nil_dereference ∧ None ∈ deps
  end.
Proof.
  revert k c out P. induction deps as [|[dep|] deps IH]; intros k c out P Hc Hout; simpl.
  - repeat split; try done; by destruct (Hout d r) as (? & ? & ?); auto.
  - destruct (CanonicalizeRepoName_keeps (orders k) c (chart.Repository dep))
      as (Hpath & Hindices & Hdom & Hnames).
    destruct (Hnames Hc) as [Hc1 Hname]. clear Hnames.
    destruct (downloader.CanonicalizeRepoName (orders k) c (chart.Repository dep))
      as [name c1]. simpl in *.
    specialize (IH (S k) c1
      (if String.eqb name "" then out else <[chart.Dependency_Name dep := name]> out)
      (λ d, P d ∨ d = chart.Dependency_Name dep) Hc1).
    destruct (downloader.GetForDeps_range _ _ c1 deps _) as [[out' c']|p].
    + destruct IH as (Hdeps & Hpath' & Hindices' & Hdom' & Hc' & Hout').
      { intros d r. destruct (String.eqb name "") eqn:Hempty.
        - intros Hd. destruct (Hout d r Hd) as (? & ? & ?).
          split; [done|]. split; [by eapply getInfo_dom|by left].
        - apply String.eqb_neq in Hempty.
          destruct (decide (chart.Dependency_Name dep = d)) as [<-|Hne].
          + rewrite lookup_insert_eq. intros [= <-]. split; [done|].
            split; [|by right]. destruct Hname as [?|[e [He _]]]; [done|by exists e].
          + rewrite lookup_insert_ne by done. intros Hd.
            destruct (Hout d r Hd) as (? & ? & ?).
            split; [done|]. split; [by eapply getInfo_dom|by left]. }
      split; [by constructor|]. split; [congruence|]. split; [congruence|].
      split; [by etrans|]. split; [done|].
      intros d r Hd. destruct (Hout' d r Hd) as (? & ? & [[?| ->]|(dep' & ? & ?)]).
      * auto.
      * split; [done|]. split; [done|]. right. exists dep. split; [by left|done].
      * split; [done|]. split; [done|]. right. exists dep'. split; [by right|done].
    + destruct IH as [-> Hnil].
      { intros d r. destruct (String.eqb name "") eqn:Hempty.
        - intros Hd. destruct (Hout d r Hd) as (? & ? & ?).
          split; [done|]. split; [by eapply getInfo_dom|by left].
        - apply String.eqb_neq in Hempty.
          destruct (decide (chart.Dependency_Name dep = d)) as [<-|Hne].
          + rewrite lookup_insert_eq. intros [= <-]. split; [done|].
            split; [|by right]. destruct Hname as [?|[e [He _]]]; [done|by exists e].
          + rewrite lookup_insert_ne by done. intros Hd.
            destruct (Hout d r Hd) as (? & ? & ?).
            split; [done|]. split; [by eapply getInfo_dom|by left]. }
      split; [done|]. by right.
  - split; [done|]. by left.
Qed.

(** X23. [GetForDeps] on a registry whose entries are registered under their
    own names. It panics only on a nil dependency. Otherwise every name in
    the mapping it returns is the name of a dependency of the list, mapped
    to a name that is not empty and that [GetInfo] finds in the registry
    after the call; no registered name is removed, and the index cache is
    unchanged. *)
Theorem GetForDeps_result (orders : nat → list string)
    (c : downloader.ChartRepositories) (deps : list (option chart.Dependency)) :
  downloader.registered_by_name c →
  match downloader.GetForDeps orders c deps with
  | Ok (out, c') =>
      Forall (λ dep, is_Some dep) deps ∧
      downloader.indices c' = downloader.indices c ∧
      dom (downloader.repos c) ⊆ dom (downloader.repos c') ∧
      ∀ d r, out !! d = Some r →
        r ≠ "" ∧ is_Some (downloader.GetInfo c' r) ∧
        ∃ dep, Some dep ∈ deps ∧ chart.Dependency_Name dep = d
  | Panic p => p = nil_dereference ∧ None ∈ deps
  end.
Proof.
  intros Hc. unfold downloader.GetForDeps.
  pose proof (GetForDeps_range_result orders 0 c deps ∅ (λ _, False) Hc) as Hrange.
  destruct (downloader.GetForDeps_range orders 0 c deps ∅) as [[out c']|p].
  - destruct Hrange as (Hdeps & _ & Hindices & Hdom & _ & Hout).
    { intros d r. by rewrite lookup_empty. }
    repeat split; try done; destruct (Hout d r) as (? & ? & [[]|?]); done.
  - apply Hrange. intros d r. by rewrite lookup_empty.
Qed.

End registry_dependencies.

(** ** The registry: the index cache and the invariant *)

Section registry_cache.
Context `{!downloader.Collaborators} `{!semver.Lib} `{!sort.Pdqsort}
        `{!chart.Validator} `{!repo.Codec} `{!repo.RangeOrder}.

(** An index that [LoadIndexFile] returns without an error has an API
    version. *)
Lemma LoadIndexFile_loaded `{!repo.FileSystem} (path : string)
    (idx : option repo.IndexFile) (lg : list repo.log_record) :
  repo.LoadIndexFile path = Ok (idx, None, lg) →
  ∃ i, idx = Some i ∧ repo.APIVersion i ≠ "".
Proof.
  unfold repo.LoadIndexFile.
  destruct (repo.os_ReadFile path) as [b|e]; [|done].
  destruct (repo.loadIndex b path) as [[[idx1 err1] lg1]|] eqn:Hload; [|done]. simpl.
  destruct err1 as [e|]; [done|]. intros [= <- <-].
  apply loadIndex_cases in Hload
    as (i & -> & [(_ & _ & [=] & _)|[(_ & e & _ & [=] & _)|(_ & decoded & _ & Hv & Herr)]]).
  exists i. split; [done|]. rewrite Hv.
  destruct (String.eqb (repo.APIVersion decoded) "") eqn:Hempty; [done|].
  by apply String.eqb_neq.
Qed.

(** The ways in which [GetIndex] returns. *)
Lemma GetIndex_cases `{!repo.FileSystem} (c c' : downloader.ChartRepositories)
    (name : string) (index : option repo.IndexFile) (err : option error)
    (lg : list repo.log_record) :
  downloader.GetIndex c name = Ok (index, err, c', lg) →
  (c' = c ∧ lg = [] ∧ err = None ∧
   (index = None ∧ (name = "" ∨ (downloader.indices c !! name = None
                                  ∧ downloader.getInfo c name = None))
    ∨ (name ≠ "" ∧ downloader.indices c !! name = Some index)))
  ∨ (name ≠ "" ∧ downloader.indices c !! name = None ∧
     ∃ entry, downloader.repos c !! name = Some entry ∧
       ((c' = c ∧ index = None ∧ is_Some err)
        ∨ (err = None ∧ (∃ i, index = Some i ∧ repo.APIVersion i ≠ "") ∧
           c' = downloader.with_indices (<[name := index]> (downloader.indices c)) c))).
Proof.
  unfold downloader.GetIndex.
  destruct (String.eqb name "") eqn:Hname.
  { apply String.eqb_eq in Hname. intros [= <- <- <- <-]. left. repeat split; auto. }
  apply String.eqb_neq in Hname.
  destruct (downloader.indices c !! name) as [cached|] eqn:Hcached.
  { intros [= <- <- <- <-]. left. repeat split; auto. }
  destruct (downloader.getInfo c name) as [entry|] eqn:Hentry.
  2: { intros [= <- <- <- <-]. left. repeat split; auto. }
  apply getInfo_Some in Hentry as [_ Hentry].
  destruct (repo.LoadIndexFile _) as [[[idx e] l]|] eqn:Hload; [|done]. simpl.
  intros Hr. right. split; [done|]. split; [done|]. exists entry. split; [done|].
  destruct e as [e|]; injection Hr as <- <- <- <-.
  - left. by repeat split.
  - right. split; [done|]. split; [|done]. by eapply LoadIndexFile_loaded.
Qed.


(** X24. An index that [GetIndex] has returned without an error is returned
    again by the next call for the same name, with no access to the file
    system, whatever the files then hold, and with no change of the
    registry. [GetIndex] never changes the table of repositories. *)
Theorem GetIndex_cached (disk disk' : repo.FileSystem)
    (c c' : downloader.ChartRepositories) (name : string)
    (index : option repo.IndexFile) (lg : list repo.log_record) :
  downloader.GetIndex (H4 := disk) c name = Ok (index, None, c', lg) →
  downloader.repos c' = downloader.repos c
  ∧ downloader.GetIndex (H4 := disk') c' name = Ok (index, None, c', []).
Proof.
  intros Hget. apply GetIndex_cases in Hget as Hcases.
  destruct Hcases as [(-> & -> & _ & Hcases)|(Hname & Hnone & entry & Hentry & Hcases)].
  - split; [done|]. unfold downloader.GetIndex.
    destruct Hcases as [[-> [->|[Hnone Hunknown]]]|[Hname Hcached]]; [done| |].
    + destruct (String.eqb name ""); [done|]. by rewrite Hnone, Hunknown.
    + apply String.eqb_neq in Hname. by rewrite Hname, Hcached.
  - destruct Hcases as [(_ & _ & [e [=]])|(_ & _ & ->)].
    split; [done|]. unfold downloader.GetIndex. simpl.
    apply String.eqb_neq in Hname. by rewrite Hname, lookup_insert_eq.
Qed.

Context `{!repo.FileSystem}.

(** Every operation keeps the invariant. *)
Lemma step_invariant (cache : string) (c c' : downloader.ChartRepositories) :
  downloader.step c c' → downloader.invariant cache c → downloader.invariant cache c'.
Proof.
  assert (∀ keys c name, downloader.invariant cache c →
    downloader.invariant cache (downloader.CanonicalizeRepoName keys c name).2)
    as Hcanonical.
  { intros keys c0 name (Hpath & Hcache & Hnames & Hloaded).
    destruct (CanonicalizeRepoName_keeps keys c0 name) as (Hp & Hi & Hd & Hn).
    split; [congruence|]. split; [|split].
    - unfold downloader.cache_registered in *. rewrite Hi. by etrans.
    - by apply Hn.
    - unfold downloader.cache_loaded. by rewrite Hi. }
  intros Hstep (Hpath & Hcache & Hnames & Hloaded).
  destruct Hstep as [keys c url|keys c name|keys c ref|orders c deps out c' Hdeps
                     |c name index err c' lg Hget].
  - destruct (getInfoByURL_keeps keys c url) as (Hp & Hi & Hd & Hn).
    unfold downloader.GetInfoByURL.
    split; [congruence|]. split; [|split].
    + unfold downloader.cache_registered in *. rewrite Hi. by etrans.
    + by apply Hn.
    + unfold downloader.cache_loaded. by rewrite Hi.
  - by apply Hcanonical.
  - unfold downloader.GetForRef. destruct (0 <? _)%Z; [|done]. by apply Hcanonical.
  - pose proof (GetForDeps_range_result orders 0 c deps ∅ (λ _, False) Hnames) as Hrange.
    unfold downloader.GetForDeps in Hdeps. rewrite Hdeps in Hrange.
    destruct Hrange as (_ & Hp & Hi & Hd & Hn & _).
    { intros d r. by rewrite lookup_empty. }
    split; [congruence|]. split; [|split].
    + unfold downloader.cache_registered in *. rewrite Hi. by etrans.
    + done.
    + unfold downloader.cache_loaded. by rewrite Hi.
  - apply GetIndex_cases in Hget
      as [(-> & _)|(Hname & Hnone & entry & Hentry & [(-> & _)|(_ & Hidx & ->)])];
      [done..|].
    split; [done|]. split; [|split]; simpl.
    + unfold downloader.cache_registered in *. simpl. rewrite dom_insert_L.
      apply elem_of_dom_2 in Hentry.
      apply union_subseteq. split; [by apply singleton_subseteq_l|done].
    + done.
    + unfold downloader.cache_loaded. simpl. by apply map_Forall_insert_2.
Qed.

Lemma NewChartRepositories_range_names (entries : list (option repo.Entry))
    (repos repos' : gmap string repo.Entry) :
  downloader.NewChartRepositories_range entries repos = Ok repos' →
  map_Forall (λ name entry, repo.Name entry = name) repos →
  map_Forall (λ name entry, repo.Name entry = name) repos'.
Proof.
  revert repos. induction entries as [|[e|] entries IH]; intros repos; simpl.
  - by intros [= <-].
  - intros Hrest Hrepos. apply (IH _ Hrest). by apply map_Forall_insert_2.
  - done.
Qed.

(** X25. The invariant of the registry. Every registry reached from the one
    that [NewChartRepositories] has returned, by calls of [GetInfoByURL],
    [CanonicalizeRepoName], [GetForRef], [GetForDeps] and [GetIndex], keeps
    the cache path, caches indices of registered names only, holds every
    entry under its own name, and caches only indices that have an API
    version. *)
Theorem registry_invariant (repoConfigPath repoCachePath : string)
    (c0 c : downloader.ChartRepositories) :
  downloader.NewChartRepositories repoConfigPath repoCachePath = Ok (Some c0, None) →
  rtc downloader.step c0 c →
  downloader.indexPath c = repoCachePath
  ∧ downloader.cache_registered c
  ∧ downloader.registered_by_name c
  ∧ downloader.cache_loaded c.
Proof.
  intros Hnew Hsteps.
  assert (downloader.invariant repoCachePath c0) as Hc0.
  { split; [|split; [by eapply NewChartRepositories_cache_registered|]].
    - unfold downloader.NewChartRepositories in Hnew.
      destruct (downloader.loadRepoConfig repoConfigPath); [|done].
      destruct (downloader.NewChartRepositories_range _ _); [|done].
      by injection Hnew as <-.
    - unfold downloader.NewChartRepositories in Hnew.
      destruct (downloader.loadRepoConfig repoConfigPath) as [l|]; [|done].
      destruct (downloader.NewChartRepositories_range l ∅) as [m|] eqn:Hm; [|done].
      injection Hnew as <-. split.
      + by apply (NewChartRepositories_range_names l ∅ m Hm), map_Forall_empty.
      + apply map_Forall_empty. }
  clear Hnew. induction Hsteps as [|c1 c2 c3 Hstep _ IH]; [done|].
  apply IH. by eapply step_invariant.
Qed.

End registry_cache.

(** ** Evaluations of the properties above on sample data *)

Section Get_results_evaluations.
Local Existing Instance semver_ref.lib.
Local Existing Instance sort_ref.small_only.

(** The empty request on an unsorted list: the first entry whose version
    parses and is accepted. *)
Lemma ChartVersions_Get_sound_witness :
  let cv := samples.entry "c" "1.0.0" "d0" in
  let c := [Some (samples.entry "c" "bad" "d2"); Some cv;
            Some (samples.entry "c" "2.0.0" "d1")] in
  let version := "" in
  repo.ChartVersions_Get c "c" version = Ok (Some cv, None)
  ∧ (None = None :> option error) ∧ Some cv ∈ c
  ∧ ∃ md, repo.Metadata cv = Some md ∧
      ((version ≠ "" ∧ chart.Version md = version)
       ∨ ∃ cs t,
           semver.NewConstraint (if String.eqb version "" then "*" else version)
             = Some cs ∧
           semver.NewVersion (chart.Version md) = Some t ∧
           semver.Check cs t = true).
Proof.
  intros cv c version.
  assert (repo.ChartVersions_Get c "c" version = Ok (Some cv, None)) as Hget
    by (vm_compute; reflexivity).
  split; [exact Hget|].
  exact (ChartVersions_Get_sound c "c" version (Some cv) None Hget).
Defined.

(** A request for the versions [2.x] of a chart that has versions 1.0.0 and
    1.2.0. *)
Lemma ChartVersions_Get_not_found_witness :
  let c := [Some (samples.entry "c" "1.0.0" "d0"); Some (samples.entry "c" "1.2.0" "d1")] in
  let version := "2.x" in
  ∃ cs, semver.NewConstraint version = Some cs
  ∧ (∃ r, repo.ChartVersions_Get c "c" version = Ok r)
  ∧ (repo.ChartVersions_Get c "c" version
       = Ok (None, Some (errors_New ("no chart version found for " +:+ "c" +:+ "-" +:+ version)))
     ↔ Forall (λ ver, ∀ md, repo.metadata_of ver = Some md →
                 (version = "" ∨ chart.Version md ≠ version)
                 ∧ ∀ t, semver.NewVersion (chart.Version md) = Some t →
                        semver.Check cs t = false) c).
Proof.
  intros c version.
  destruct (semver.NewConstraint version) as [cs|] eqn:Hcs; [|by vm_compute in Hcs].
  exists cs. split; [done|].
  apply (ChartVersions_Get_not_found c "c" version cs).
  - each_entry ltac:(by eexists).
  - exact Hcs.
Defined.

(** A chart that is not listed, requested by a string that is no constraint,
    and a chart with an empty list. *)
Lemma IndexFile_Get_unknown_chart_witness :
  let i := samples.index "v1" [("c", [Some (samples.entry "c" "1.0.0" "d0")]); ("d", [])] in
  repo.IndexFile_Get i "e" "not a constraint" = Ok (None, Some repo.ErrNoChartName)
  ∧ repo.IndexFile_Has i "e" "not a constraint" = Ok false
  ∧ repo.IndexFile_Get i "d" "1.0.0" = Ok (None, Some repo.ErrNoChartVersion)
  ∧ repo.IndexFile_Has i "d" "1.0.0" = Ok false.
Proof.
  intros i.
  pose proof (IndexFile_Get_unknown_chart i "e" "not a constraint") as (He & _ & _).
  pose proof (IndexFile_Get_unknown_chart i "d" "1.0.0") as (_ & Hd & _).
  destruct He as [? ?]; [vm_compute; reflexivity|].
  destruct Hd as [? ?]; [vm_compute; reflexivity|].
  by repeat split.
Defined.

(** The empty request skips the pre-release 3.0.0-rc.1 and returns 2.1.0;
    the request [2.0.x] returns 2.0.3. *)
Lemma IndexFile_Get_latest_witness :
  let e v := samples.entry "c" v "d0" in
  let c := [Some (e "1.0.0"); Some (e "3.0.0-rc.1"); Some (e "2.1.0"); Some (e "bad");
            Some (e "2.0.3")] in
  let i0 := samples.index "v1" [("c", c)] in
  let i := samples.index "v1"
    [("c", [Some (e "3.0.0-rc.1"); Some (e "2.1.0"); Some (e "2.0.3"); Some (e "1.0.0");
            Some (e "bad")])] in
  let latest version cv :=
    ∃ md,
      Some cv ∈ c ∧ repo.Metadata cv = Some md ∧
      ((version ≠ "" ∧ chart.Version md = version)
       ∨ ∃ cs t,
           semver.NewConstraint (if String.eqb version "" then "*" else version)
             = Some cs ∧
           semver.NewVersion (chart.Version md) = Some t ∧
           semver.Check cs t = true ∧
           ∀ e md' t',
             e ∈ c → repo.metadata_of e = Some md' →
             semver.NewVersion (chart.Version md') = Some t' →
             semver.Check cs t' = true →
             semver.LessThan t t' = false) in
  repo.IndexFile_SortEntries ["c"] i0 = Ok i
  ∧ repo.IndexFile_Get i "c" "" = Ok (Some (e "2.1.0"), None)
  ∧ latest "" (e "2.1.0")
  ∧ repo.IndexFile_Get i "c" "2.0.x" = Ok (Some (e "2.0.3"), None)
  ∧ latest "2.0.x" (e "2.0.3").
Proof.
  intros e c i0 i latest.
  assert (repo.IndexFile_SortEntries ["c"] i0 = Ok i) as Hsort by (vm_compute; reflexivity).
  assert (repo.IndexFile_Get i "c" "" = Ok (Some (e "2.1.0"), None)) as Hany
    by (vm_compute; reflexivity).
  assert (repo.IndexFile_Get i "c" "2.0.x" = Ok (Some (e "2.0.3"), None)) as Hminor
    by (vm_compute; reflexivity).
  assert (range_order (repo.entries i0) ["c"]) as Hkeys
    by (unfold range_order; vm_compute; reflexivity).
  assert (repo.readable i0) as Hread.
  { apply map_Forall_insert_2; [|apply map_Forall_empty].
    each_entry ltac:(by eexists). }
  assert (map_Forall (λ _ c, length c ≤ sort.maxInsertion) (repo.entries i0)) as Hlen.
  { apply map_Forall_insert_2; [|apply map_Forall_empty].
    unfold sort.maxInsertion. simpl. lia. }
  assert (repo.entries i0 !! "c" = Some c) as Hc by (vm_compute; reflexivity).
  split; [exact Hsort|]. split; [exact Hany|]. split; [|split; [exact Hminor|]].
  - exact (IndexFile_Get_latest (H1 := semver_ref_order) ["c"] i0 i "c" "" c (e "2.1.0")
             Hkeys Hread Hlen Hsort Hc Hany).
  - exact (IndexFile_Get_latest (H1 := semver_ref_order) ["c"] i0 i "c" "2.0.x" c
             (e "2.0.3") Hkeys Hread Hlen Hsort Hc Hminor).
Defined.

(** An entry whose version does not parse, and one whose version parses. *)
Lemma ChartVersions_Less_reflexive_witness :
  let bad := Some (samples.entry "c" "bad" "d0") in
  let good := Some (samples.entry "c" "1.0.0" "d1") in
  let c := [bad; good] in
  (repo.ChartVersions_Less c 0 0 = Ok (negb (repo.parses bad))
   ∧ (¬ repo.parses bad → ∀ b, repo.ChartVersions_Less c 0 b = Ok true))
  ∧ (repo.ChartVersions_Less c 1 1 = Ok (negb (repo.parses good))
     ∧ (¬ repo.parses good → ∀ b, repo.ChartVersions_Less c 1 b = Ok true))
  ∧ negb (repo.parses bad) = true ∧ negb (repo.parses good) = false.
Proof.
  intros bad good c. split; [|split].
  - by eapply (ChartVersions_Less_reflexive (H1 := semver_ref_order) c 0 bad).
  - by eapply (ChartVersions_Less_reflexive (H1 := semver_ref_order) c 1 good).
  - vm_compute. by split.
Defined.

(** Two entries whose versions do not parse change places with every sort. *)
Lemma IndexFile_SortEntries_again_witness :
  let e v := Some (samples.entry "c" v "d0") in
  let i := samples.index "v1" [("c", [e "1.0.0"; e "bad1"; e "2.0.0"; e "bad2"])] in
  let i1 := samples.index "v1" [("c", [e "2.0.0"; e "1.0.0"; e "bad2"; e "bad1"])] in
  let i2 := samples.index "v1" [("c", [e "2.0.0"; e "1.0.0"; e "bad1"; e "bad2"])] in
  repo.IndexFile_SortEntries ["c"] i = Ok i1
  ∧ repo.IndexFile_SortEntries ["c"] i1 = Ok i2
  ∧ ∃ i1 i2,
      repo.IndexFile_SortEntries ["c"] i = Ok i1 ∧
      repo.IndexFile_SortEntries ["c"] i1 = Ok i2 ∧
      (∀ name c, repo.entries i !! name = Some c →
         ∃ sorted,
           repo.entries i1 !! name
             = Some (sorted ++ reverse (filter (λ e, ¬ repo.parses e) c)) ∧
           repo.entries i2 !! name
             = Some (sorted ++ filter (λ e, ¬ repo.parses e) c)) ∧
      (map_Forall (λ _ c, length (filter (λ e, ¬ repo.parses e) c) ≤ 1)
         (repo.entries i) → i2 = i1).
Proof.
  intros e i i1 i2. split; [vm_compute; reflexivity|]. split; [vm_compute; reflexivity|].
  apply (IndexFile_SortEntries_again (H1 := semver_ref_order) ["c"] ["c"] i).
  - unfold range_order. vm_compute. reflexivity.
  - unfold range_order. vm_compute. reflexivity.
  - apply map_Forall_insert_2; [|apply map_Forall_empty].
    each_entry ltac:(by eexists).
  - apply map_Forall_insert_2; [|apply map_Forall_empty].
    unfold sort.maxInsertion. simpl. lia.
Defined.

End Get_results_evaluations.

Section Merge_appends_evaluations.
Local Existing Instance semver_ref.lib.

(** A merge that adds a version to a chart and a chart to the index. *)
Lemma IndexFile_Merge_appends_witness :
  let e1 := Some (samples.entry "c" "1.0.0" "d0") in
  let e2 := Some (samples.entry "c" "2.0.0" "d1") in
  let e3 := Some (samples.entry "d" "0.1.0" "d2") in
  let keys := ["c"; "d"] in
  let i := samples.index "v1" [("c", [e1])] in
  let f := samples.index "v2" [("c", [e2; e1]); ("d", [e3])] in
  let i' := samples.index "v1" [("c", [e1; e2]); ("d", [e3])] in
  repo.IndexFile_Merge keys i f = Ok i'
  ∧ i' = repo.with_Entries (repo.Entries i') i
  ∧ (∀ name c, repo.entries i !! name = Some c →
       ∃ added, repo.entries i' !! name = Some (c ++ added))
  ∧ (∀ name c', repo.entries i' !! name = Some c' →
       ∃ added,
         c' = default [] (repo.entries i !! name) ++ added ∧
         Forall (λ e, ∃ k cvs, k ∈ keys ∧ repo.entries f !! k = Some cvs ∧ e ∈ cvs)
           added).
Proof.
  intros e1 e2 e3 keys i f i'.
  assert (repo.IndexFile_Merge keys i f = Ok i') as Hmerge by (vm_compute; reflexivity).
  split; [exact Hmerge|]. exact (IndexFile_Merge_appends keys i f i' Hmerge).
Defined.

(** The same merge: everything of the merged index is found afterwards. *)
Lemma IndexFile_Merge_lists_all_witness :
  let e1 := Some (samples.entry "c" "1.0.0" "d0") in
  let e2 := Some (samples.entry "c" "2.0.0" "d1") in
  let e3 := Some (samples.entry "d" "0.1.0" "d2") in
  let keys := ["c"; "d"] in
  let i := samples.index "v1" [("c", [e1])] in
  let f := samples.index "v1" [("c", [e2; e1]); ("d", [e3])] in
  ∃ i', repo.IndexFile_Merge keys i f = Ok i' ∧
        ∀ name c ver md,
          repo.entries f !! name = Some c → ver ∈ c →
          repo.metadata_of ver = Some md →
          repo.IndexFile_Has i' (chart.Name md) (chart.Version md) = Ok true.
Proof.
  intros e1 e2 e3 keys i f. apply (IndexFile_Merge_lists_all keys i f).
  - apply map_Forall_insert_2; [|apply map_Forall_empty].
    each_entry ltac:(by eexists).
  - by eexists.
  - apply map_Forall_insert_2; [|apply map_Forall_insert_2; [|apply map_Forall_empty]];
      each_entry ltac:(by eexists).
  - apply map_Forall_insert_2; [|apply map_Forall_insert_2; [|apply map_Forall_empty]];
      each_entry ltac:(intros md [= <-]; split; [done|by eexists]).
  - unfold range_order. vm_compute. reflexivity.
Defined.

(** Merging into the zero index. *)
Lemma IndexFile_Merge_nil_entries_witness :
  let f := samples.index "v1" [("c", [Some (samples.entry "c" "1.0.0" "d0")])] in
  let f0 := samples.index "v1" [("c", [])] in
  repo.IndexFile_Merge ["c"] repo.zero f0 = Ok repo.zero
  ∧ repo.IndexFile_Merge ["c"] repo.zero f = Panic nil_map_assignment.
Proof.
  intros f f0. split.
  - apply (IndexFile_Merge_nil_entries ["c"] repo.zero f0); [done| |].
    + apply map_Forall_insert_2; [|apply map_Forall_empty]. constructor.
    + apply map_Forall_insert_2; [|apply map_Forall_empty]. done.
  - apply (IndexFile_Merge_nil_entries ["c"] repo.zero f); [done| | |].
    + apply map_Forall_insert_2; [|apply map_Forall_empty].
      each_entry ltac:(by eexists).
    + unfold range_order. vm_compute. reflexivity.
    + eexists "c", _. split; [vm_compute; reflexivity|done].
Defined.

End Merge_appends_evaluations.

Section MustAdd_evaluations.
Local Existing Instance semver_ref.lib.
Local Existing Instance chart_ref.validator.
Local Existing Instance build_ref.paths.

(** A chart without a name does not validate. *)
Lemma IndexFile_MustAdd_failure_witness :
  let md := Some (samples.metadata "" "1.0.0") in
  let md' := Some (repo.default_APIVersion (samples.metadata "" "1.0.0")) in
  let i := repo.NewIndexFile 0 in
  let err := errors_Wrapf (ValidationError "chart.metadata.name is required")
               "validate failed for c-1.0.0.tgz" in
  repo.IndexFile_MustAdd 1 i md "c-1.0.0.tgz" "" "sha" = Ok (i, md', Some err)
  ∧ i = i
  ∧ ((repo.Entries i = None ∧ md' = md
      ∧ err = errors_New "entries not initialized")
     ∨ (∃ md0 verr,
          is_Some (repo.Entries i) ∧ md = Some md0 ∧
          md' = Some (repo.default_APIVersion md0) ∧
          chart.Validate (repo.default_APIVersion md0) = Some verr ∧
          err = errors_Wrapf verr ("validate failed for " +:+ "c-1.0.0.tgz"))).
Proof.
  intros md md' i err.
  assert (repo.IndexFile_MustAdd 1 i md "c-1.0.0.tgz" "" "sha" = Ok (i, md', Some err))
    as Hadd by (vm_compute; reflexivity).
  split; [exact Hadd|].
  exact (IndexFile_MustAdd_failure 1 i i md md' "c-1.0.0.tgz" "" "sha" err Hadd).
Defined.

(** A chart file added with a base URL. *)
Lemma IndexFile_MustAdd_appends_witness :
  let md := Some (samples.metadata "c" "1.0.0") in
  let md' := Some (repo.default_APIVersion (samples.metadata "c" "1.0.0")) in
  let i := samples.index "v1" [("c", [Some (samples.entry "c" "0.9.0" "d0")])] in
  let cr := repo.MustAdd_record 7 (repo.default_APIVersion (samples.metadata "c" "1.0.0"))
              "out/c-1.0.0.tgz" "https://charts.example.com" "sha" in
  let i' := samples.index "v1" [("c", [Some (samples.entry "c" "0.9.0" "d0"); Some cr])] in
  repo.URLs cr = ["https://charts.example.com/c-1.0.0.tgz"]
  ∧ repo.IndexFile_MustAdd 7 i md "out/c-1.0.0.tgz" "https://charts.example.com" "sha"
    = Ok (i', md', None)
  ∧ ∃ md0 cr u,
      md = Some md0 ∧ md' = Some (repo.default_APIVersion md0) ∧
      chart.Validate (repo.default_APIVersion md0) = None ∧
      repo.Metadata cr = md' ∧ repo.URLs cr = [u] ∧
      ("https://charts.example.com" = "" → u = "out/c-1.0.0.tgz") ∧
      repo.Created cr = 7%Z ∧ repo.Removed cr = false ∧ repo.Digest cr = "sha" ∧
      i' = repo.with_Entries (repo.Entries i') i ∧
      repo.entries i' !! chart.Name md0
        = Some (default [] (repo.entries i !! chart.Name md0) ++ [Some cr]) ∧
      (∀ name, name ≠ chart.Name md0 → repo.entries i' !! name = repo.entries i !! name) ∧
      repo.records i' = S (repo.records i).
Proof.
  intros md md' i cr i'. split; [vm_compute; reflexivity|].
  assert (repo.IndexFile_MustAdd 7 i md "out/c-1.0.0.tgz" "https://charts.example.com" "sha"
          = Ok (i', md', None)) as Hadd by (vm_compute; reflexivity).
  split; [exact Hadd|].
  exact (IndexFile_MustAdd_appends 7 i i' md md' "out/c-1.0.0.tgz"
           "https://charts.example.com" "sha" Hadd).
Defined.

(** A version added to a chart is found by its version. *)
Lemma IndexFile_MustAdd_then_Get_witness :
  let md1 := repo.default_APIVersion (samples.metadata "c" "1.0.0") in
  let i := samples.index "v1" [("c", [Some (samples.entry "c" "0.9.0" "d0")])] in
  let cr := repo.MustAdd_record 7 md1 "c-1.0.0.tgz" "" "sha" in
  let i' := samples.index "v1" [("c", [Some (samples.entry "c" "0.9.0" "d0"); Some cr])] in
  repo.IndexFile_Has i' (chart.Name md1) (chart.Version md1) = Ok true
  ∧ ∃ cv md2,
      repo.IndexFile_Get i' (chart.Name md1) (chart.Version md1) = Ok (Some cv, None) ∧
      repo.Metadata cv = Some md2 ∧ chart.Version md2 = chart.Version md1 ∧
      (Forall (λ e, ∀ md0, repo.metadata_of e = Some md0 →
                           chart.Version md0 ≠ chart.Version md1)
         (default [] (repo.entries i !! chart.Name md1)) →
       md2 = md1 ∧ repo.Digest cv = "sha" ∧ repo.Created cv = 7%Z).
Proof.
  intros md1 i cr i'.
  apply (IndexFile_MustAdd_then_Get 7 i i' (Some (samples.metadata "c" "1.0.0")) md1
           "c-1.0.0.tgz" "" "sha").
  - apply map_Forall_insert_2; [|apply map_Forall_empty].
    each_entry ltac:(by eexists).
  - vm_compute. reflexivity.
  - done.
  - by eexists.
Defined.

End MustAdd_evaluations.

Section IndexDirectory_evaluations.
Local Existing Instance chart_ref.validator.
Local Existing Instance build_ref.paths.
Local Existing Instance samples.directory.

(** The index of the sample directory: two charts, and a file that is
    skipped. *)
Lemma IndexDirectory_index_witness :
  let a := repo.MustAdd_record 1 (repo.default_APIVersion (samples.metadata "a" "1.0.0"))
             "a-1.0.0.tgz" "https://charts.example.com" "sha-a" in
  let b := repo.MustAdd_record 2 (repo.default_APIVersion (samples.metadata "b" "0.2.0"))
             "b-0.2.0.tgz" "https://charts.example.com/sub" "sha-b" in
  let index := samples.index "v1" [("a", [Some a]); ("b", [Some b])] in
  repo.IndexDirectory "/charts" "https://charts.example.com" = Ok (Some index, None)
  ∧ ∃ archives moreArchives,
      repo.filepath_Glob (repo.filepath_Join "/charts" "*.tgz") = inl archives ∧
      repo.filepath_Glob (repo.filepath_Join "/charts" "**/*.tgz") = inl moreArchives ∧
      repo.APIVersion index = repo.APIVersionV1 ∧
      is_Some (repo.Entries index) ∧
      map_Forall (λ _ c, Forall repo.validated c) (repo.entries index) ∧
      repo.records index
        ≤ length (filter (λ a, repo.loadable a) (archives ++ moreArchives)) ∧
      ((None : option error) = None →
       repo.records index
         = length (filter (λ a, repo.loadable a) (archives ++ moreArchives))).
Proof.
  intros a b index.
  assert (repo.IndexDirectory "/charts" "https://charts.example.com"
          = Ok (Some index, None)) as Hrun by (vm_compute; reflexivity).
  split; [exact Hrun|].
  exact (IndexDirectory_index "/charts" "https://charts.example.com" (Some index) None Hrun).
Defined.

End IndexDirectory_evaluations.

Section loadIndex_results_evaluations.
Local Existing Instance semver_ref.lib.
Local Existing Instance sort_ref.small_only.
Local Existing Instance chart_ref.validator.
Local Existing Instance repo_ref.range_order.

(** A file that loads, a file that is missing, and a file that does not
    decode. *)
Lemma LoadIndexFile_result_witness :
  let files := repo_ref.file_system
    [("index.yaml", samples.document_two_versions);
     ("old.yaml", samples.document_no_apiVersion)] in
  let load := repo.LoadIndexFile (H2 := samples.cache_codec) (H3 := files) in
  let sorted := samples.index "v1"
    [("c", [Some (samples.entry "c" "2.0.0" "d1"); Some (samples.entry "c" "1.0.0" "d0")])] in
  load "index.yaml" = Ok (Some sorted, None, [])
  ∧ (∃ i, Some sorted = Some i ∧ repo.APIVersion i ≠ "")
  ∧ load "missing.yaml" = Ok (None, Some (os_error "missing.yaml"), [])
  ∧ ∃ e lg, load "old.yaml" = Ok (None, Some e, lg) ∧
      ((repo.os_ReadFile (FileSystem := files) "old.yaml" = inr e ∧ lg = [])
       ∨ ∃ b cause,
           repo.os_ReadFile (FileSystem := files) "old.yaml" = inl b ∧
           e = errors_Wrapf cause ("error loading " +:+ "old.yaml") ∧
           ((b = "" ∧ cause = repo.ErrEmptyIndexYaml)
            ∨ (∃ i, repo.jsonOrYamlUnmarshal (H := samples.cache_codec) b repo.zero
                    = (i, Some cause))
            ∨ cause = repo.ErrNoAPIVersion)).
Proof.
  intros files load sorted.
  assert (load "index.yaml" = Ok (Some sorted, None, [])) as Hload
    by (vm_compute; reflexivity).
  split; [exact Hload|]. split.
  { exact (LoadIndexFile_result (H2 := samples.cache_codec) (H3 := files)
             "index.yaml" (Some sorted) None [] Hload). }
  split; [vm_compute; reflexivity|].
  destruct (load "old.yaml") as [[[idx [e|]] lg]|] eqn:Hold;
    try (vm_compute in Hold; discriminate).
  destruct (LoadIndexFile_result (H2 := samples.cache_codec) (H3 := files)
              "old.yaml" idx (Some e) lg Hold) as [-> Hcause].
  by exists e, lg.
Defined.

(** A valid document with two versions of a chart. *)
Lemma loadIndex_valid_document_witness :
  let decoded := samples.index "v1"
    [("c", [Some (samples.entry "c" "1.0.0" "d0"); Some (samples.entry "c" "2.0.0" "d1")])] in
  let sorted := samples.index "v1"
    [("c", [Some (samples.entry "c" "2.0.0" "d1"); Some (samples.entry "c" "1.0.0" "d0")])] in
  repo.IndexFile_SortEntries (repo.range_keys (repo.entries decoded)) decoded = Ok sorted
  ∧ repo.loadIndex (H2 := samples.cache_codec) samples.document_two_versions "index.yaml" =
      i' ← repo.IndexFile_SortEntries (repo.range_keys (repo.entries decoded)) decoded;
      Ok (Some i',
          if String.eqb (repo.APIVersion decoded) "" then Some repo.ErrNoAPIVersion else None,
          []).
Proof.
  intros decoded sorted. split; [vm_compute; reflexivity|].
  apply (loadIndex_valid_document (H2 := samples.cache_codec)
           samples.document_two_versions "index.yaml" decoded).
  - done.
  - vm_compute. reflexivity.
  - apply map_Forall_insert_2; [|apply map_Forall_empty].
    each_entry ltac:(eexists; split; [reflexivity|]; split; [done|reflexivity]).
Defined.

(** A document with an entry that has no metadata. *)
Lemma loadIndex_defaults_witness :
  let bare := {| repo.Metadata := None; repo.URLs := []; repo.Created := 0;
                 repo.Removed := false; repo.Digest := "d9";
                 repo.ChecksumDeprecated := ""; repo.EngineDeprecated := "";
                 repo.TillerVersionDeprecated := ""; repo.URLDeprecated := "" |} in
  let i := samples.index "v1" [("c", [Some bare; Some (samples.entry "c" "1.0.0" "d0")])] in
  let codec := repo_ref.codec [("document", i)] in
  ∃ loaded lg,
    repo.loadIndex (H2 := codec) "document" "index.yaml"
      = Ok (Some loaded,
            if String.eqb (repo.APIVersion i) "" then Some repo.ErrNoAPIVersion else None,
            lg) ∧
    map_Forall (λ _ c, Forall repo.defaulted c) (repo.entries loaded) ∧
    ∀ name c, repo.entries i !! name = Some c →
      ∃ c', repo.entries loaded !! name = Some c' ∧ length c' = length c.
Proof.
  intros bare i codec.
  apply (loadIndex_defaults (H2 := codec) "document" "index.yaml" i).
  - done.
  - vm_compute. reflexivity.
  - apply map_Forall_insert_2; [|apply map_Forall_empty]. split.
    + each_entry ltac:(by eexists).
    + unfold sort.maxInsertion. simpl. lia.
Defined.

End loadIndex_results_evaluations.

Section registry_evaluations.
Local Existing Instance semver_ref.lib.
Local Existing Instance sort_ref.small_only.
Local Existing Instance chart_ref.validator.
Local Existing Instance repo_ref.range_order.
Local Existing Instance samples.cache_codec.

(** The URL of a registered repository, written with a final slash. *)
Lemma GetInfoByURL_finds_registered_witness :
  let C := downloader_ref.collaborators [] in
  let url := "https://charts.example.com/stable/" in
  downloader.GetInfoByURL (H := C) ["stable"] samples.registry url
    = (Some samples.stable, samples.registry)
  ∧ ∃ k' e',
      downloader.GetInfoByURL (H := C) ["stable"] samples.registry url
        = (Some e', samples.registry) ∧
      downloader.repos samples.registry !! k' = Some e' ∧
      downloader.urlutil_Equal (Collaborators := C) (repo.URL e') url = true.
Proof.
  intros C url. split; [vm_compute; reflexivity|].
  apply (GetInfoByURL_finds_registered (H := C) ["stable"] samples.registry url
           "stable" samples.stable).
  - unfold range_order. vm_compute. reflexivity.
  - vm_compute. reflexivity.
  - vm_compute. reflexivity.
Defined.

(** The sample registry holds its entry under its name. *)
Lemma registry_names : downloader.registered_by_name samples.registry.
Proof.
  apply map_Forall_insert_2; [done|apply map_Forall_empty].
Qed.

(** A URL that no registered repository has is registered under its
    generated name. *)
Lemma CanonicalizeRepoName_registered_witness :
  let C := downloader_ref.collaborators [] in
  let r := downloader.CanonicalizeRepoName (H := C) ["stable"] samples.registry
             samples.url_a in
  r.1 = samples.taken_name
  ∧ (r.1 = "" ∨ ∃ e, downloader.GetInfo r.2 r.1 = Some e ∧ repo.Name e = r.1).
Proof.
  intros C r. split; [vm_compute; reflexivity|].
  exact (CanonicalizeRepoName_registered (H := C) ["stable"] samples.registry
           samples.url_a registry_names).
Defined.

(** The same call: what it changes in the registry. *)
Lemma CanonicalizeRepoName_registers_witness :
  let C := downloader_ref.collaborators [] in
  let keys := ["stable"] in
  let c := samples.registry in
  let name := samples.url_a in
  let r := downloader.CanonicalizeRepoName (H := C) keys c name in
  downloader.indexPath r.2 = downloader.indexPath c
  ∧ downloader.indices r.2 = downloader.indices c
  ∧ (downloader.repos r.2 = downloader.repos c
     ∨ ∃ generated,
         downloader.url_IsAbs (Collaborators := C) name = true ∧
         downloader.key (Collaborators := C) name = (generated, None) ∧
         r.1 = downloader.managerKeyPrefix (Collaborators := C) +:+ generated ∧
         downloader.repos r.2
           = <[r.1 := {| repo.Name := r.1; repo.URL := name;
                         repo.Username := ""; repo.Password := "" |}]>
               (downloader.repos c) ∧
         ∀ k e, downloader.repos c !! k = Some e →
                downloader.urlutil_Equal (Collaborators := C) (repo.URL e) name = false).
Proof.
  intros C keys c name.
  apply (CanonicalizeRepoName_registers (H := C) keys c name).
  unfold range_order. vm_compute. reflexivity.
Defined.

(** The names of the sample registry. *)
Lemma Keys_registered_witness :
  let keys := ["stable"] in
  let c := samples.registry in
  downloader.Keys keys c = ["stable"]
  ∧ NoDup (downloader.Keys keys c)
  ∧ length (downloader.Keys keys c) = size (downloader.repos c)
  ∧ (∀ k, k ∈ downloader.Keys keys c ↔ is_Some (downloader.repos c !! k))
  ∧ (∀ k, is_Some (downloader.GetInfo c k) ↔ k ∈ downloader.Keys keys c ∧ k ≠ "").
Proof.
  intros keys c. split; [vm_compute; reflexivity|].
  apply (Keys_registered keys c). unfold range_order. vm_compute. reflexivity.
Defined.

(** The repositories with an https URL. *)
Lemma GetKeysByF_names_witness :
  let keys := ["stable"] in
  let c := samples.registry in
  let f := λ e : repo.Entry, strings.HasPrefix (repo.URL e) "https://" in
  downloader.GetKeysByF keys c f = ["stable"]
  ∧ downloader.GetKeysByF keys c f
    ≡ₚ repo.Name <$> filter (λ e, f e) (map_to_list (downloader.repos c)).*2.
Proof.
  intros keys c f. split; [vm_compute; reflexivity|].
  apply (GetKeysByF_names keys c f). unfold range_order. vm_compute. reflexivity.
Defined.

(** A configuration that is missing, one with two entries of the same name,
    and one with a nil entry. *)
Lemma NewChartRepositories_registers_witness :
  let first := {| repo.Name := "stable"; repo.URL := "https://old.example.com";
                  repo.Username := ""; repo.Password := "" |} in
  let l := [first; samples.stable] in
  let C := downloader_ref.collaborators
             [("repositories.yaml", Some <$> l); ("broken.yaml", [Some first; None])] in
  downloader.NewChartRepositories (H := C) "missing.yaml" "/cache"
    = Ok (None, Some (os_error "missing.yaml"))
  ∧ (∃ c, downloader.NewChartRepositories (H := C) "repositories.yaml" "/cache"
            = Ok (Some c, None) ∧
          downloader.indexPath c = "/cache" ∧
          downloader.indices c = ∅ ∧
          ∀ name, downloader.repos c !! name
                  = last (filter (λ e, repo.Name e = name) l))
  ∧ downloader.NewChartRepositories (H := C) "broken.yaml" "/cache"
    = Panic nil_dereference.
Proof.
  intros first l C.
  destruct (NewChartRepositories_registers (H := C) "missing.yaml" "/cache")
    as (Hmissing & _ & _).
  destruct (NewChartRepositories_registers (H := C) "repositories.yaml" "/cache")
    as (_ & Hgood & _).
  destruct (NewChartRepositories_registers (H := C) "broken.yaml" "/cache")
    as (_ & _ & Hbroken).
  split; [|split].
  - apply Hmissing. vm_compute. reflexivity.
  - apply Hgood. vm_compute. reflexivity.
  - apply (Hbroken [Some first; None]); [vm_compute; reflexivity|].
    right. left.
Defined.

(** Three dependencies: on an alias, on a URL, and on a local path, which
    has no canonical name. *)
Lemma GetForDeps_result_witness :
  let C := downloader_ref.collaborators [] in
  let orders := λ k : nat, if (k <? 2)%nat then ["stable"]
                           else ["stable"; samples.taken_name] in
  let deps := [Some (samples.dependency "web" "@stable");
               Some (samples.dependency "db" samples.url_a);
               Some (samples.dependency "local" "file://../local")] in
  let c := samples.registry in
  match downloader.GetForDeps (H := C) orders c deps with
  | Ok (out, c') =>
      Forall (λ dep, is_Some dep) deps ∧
      downloader.indices c' = downloader.indices c ∧
      dom (downloader.repos c) ⊆ dom (downloader.repos c') ∧
      ∀ d r, out !! d = Some r →
        r ≠ "" ∧ is_Some (downloader.GetInfo c' r) ∧
        ∃ dep, Some dep ∈ deps ∧ chart.Dependency_Name dep = d
  | Panic p => p = nil_dereference ∧ None ∈ deps
  end
  ∧ fst <$> downloader.GetForDeps (H := C) orders c deps
    = Ok {["web" := "stable"; "db" := samples.taken_name]}.
Proof.
  intros C orders deps c. split.
  - exact (GetForDeps_result (H := C) orders c deps registry_names).
  - vm_compute. reflexivity.
Defined.

(** The index of the sample repository is loaded from the cache file, and
    returned again after the file is gone. *)
Lemma GetIndex_cached_witness :
  let C := downloader_ref.collaborators [] in
  let disk' := repo_ref.file_system [] in
  let sorted := samples.index "v1"
    [("c", [Some (samples.entry "c" "2.0.0" "d1"); Some (samples.entry "c" "1.0.0" "d0")])] in
  let c' := downloader.with_indices {["stable" := Some sorted]} samples.registry in
  downloader.GetIndex (H := C) (H4 := samples.cache_files) samples.registry "stable"
    = Ok (Some sorted, None, c', [])
  ∧ downloader.repos c' = downloader.repos samples.registry
  ∧ downloader.GetIndex (H := C) (H4 := disk') c' "stable" = Ok (Some sorted, None, c', []).
Proof.
  intros C disk' sorted c'.
  assert (downloader.GetIndex (H := C) (H4 := samples.cache_files) samples.registry "stable"
          = Ok (Some sorted, None, c', [])) as Hget by (vm_compute; reflexivity).
  split; [exact Hget|].
  exact (GetIndex_cached (H := C) samples.cache_files disk' samples.registry c' "stable"
           (Some sorted) [] Hget).
Defined.

(** The registry after one canonicalization of a URL. *)
Lemma registry_invariant_witness :
  let C := downloader_ref.collaborators [("repositories.yaml", [Some samples.stable])] in
  let c := (downloader.CanonicalizeRepoName (H := C) ["stable"] samples.registry
              samples.url_a).2 in
  downloader.NewChartRepositories (H := C) "repositories.yaml" "/cache"
    = Ok (Some samples.registry, None)
  ∧ downloader.indexPath c = "/cache"
  ∧ downloader.cache_registered c
  ∧ downloader.registered_by_name c
  ∧ downloader.cache_loaded c.
Proof.
  intros C c.
  assert (downloader.NewChartRepositories (H := C) "repositories.yaml" "/cache"
          = Ok (Some samples.registry, None)) as Hnew by (vm_compute; reflexivity).
  split; [exact Hnew|].
  apply (registry_invariant (H := C) (H5 := samples.cache_files)
           "repositories.yaml" "/cache" samples.registry c Hnew).
  apply rtc_once. apply downloader.step_CanonicalizeRepoName.
Defined.

End registry_evaluations.
